(** * Rotation YAML IntelliSense: name dictionary, symbol tables, validator

    A shallow embedding of the expression-recognition and validation core of
    the extension:

    - [SpellDatabase] (spellData.ts): CSV loading, [autoLoad] and [reload],
      [normalizeName], [isValidSpell], the look-ups, [searchSpells],
      [findSimilar], [levenshteinDistance];
    - [RotationDiagnosticProvider] (diagnosticProvider.ts): the three
      symbol-table scans and the four per-line checks;
    - [RotationHoverProvider] (hoverProvider.ts): the buff / debuff / dot
      template shapes and the function-call shapes of [matchTemplate],
      [getOperatorHover];
    - [RotationCompletionProvider] (completionProvider.ts): [isInSection],
      the completions of variables, config variables and spell names, and
      the keyword [any].

    JavaScript strings are sequences of UTF-16 code units; they are modelled
    as lists of code units.  The regular expressions of the source are kept
    as data and run by one backtracking matcher. *)

From Stdlib Require Import String Ascii DecimalString.
From Stdlib Require Import NArith ZArith Bool Arith Lia List Sorted.
Import ListNotations.

Set Implicit Arguments.

(* ================================================================= *)
(** ** Strings *)

Definition char := N.
Definition str := list char.

(** String literals of the source, as code units. *)
Definition js (s : string) : str := map N_of_ascii (list_ascii_of_string s).

Definition char_eqb : char -> char -> bool := N.eqb.

Fixpoint str_eqb (a b : str) : bool :=
  match a, b with
  | [], [] => true
  | x :: a', y :: b' => char_eqb x y && str_eqb a' b'
  | _, _ => false
  end.

Definition in_range (lo hi c : char) : bool := (lo <=? c)%N && (c <=? hi)%N.

Definition is_digit (c : char) : bool := in_range 48%N 57%N c.
Definition is_lower (c : char) : bool := in_range 97%N 122%N c.
Definition is_upper (c : char) : bool := in_range 65%N 90%N c.
Definition is_underscore (c : char) : bool := (c =? 95)%N.

(** [\w] *)
Definition is_word (c : char) : bool :=
  is_lower c || is_upper c || is_digit c || is_underscore c.

(** LineTerminator: LF, CR, LS, PS. *)
Definition is_line_terminator (c : char) : bool :=
  (c =? 10)%N || (c =? 13)%N || (c =? 8232)%N || (c =? 8233)%N.

(** [\s]: WhiteSpace and LineTerminator of ECMAScript. *)
Definition is_space (c : char) : bool :=
  (c =? 9)%N || (c =? 11)%N || (c =? 12)%N || (c =? 32)%N || (c =? 160)%N
  || (c =? 5760)%N || in_range 8192%N 8202%N c || (c =? 8239)%N || (c =? 8287)%N
  || (c =? 12288)%N || (c =? 65279)%N || is_line_terminator c.

(** [.] *)
Definition is_any (c : char) : bool := negb (is_line_terminator c).

(** [[a-z_]], [[a-z0-9]], [[&|]] *)
Definition is_lower_us (c : char) : bool := is_lower c || is_underscore c.
Definition is_lower_alnum (c : char) : bool := is_lower c || is_digit c.
Definition is_bool_op (c : char) : bool := (c =? 38)%N || (c =? 124)%N.

(** Case folding of the [i] flag: an ASCII letter matches both of its cases,
    and no code unit above 127 folds onto an ASCII one. *)
Definition ascii_upper (c : char) : char := if is_lower c then (c - 32)%N else c.
Definition char_eqb_i (a b : char) : bool := (ascii_upper a =? ascii_upper b)%N.

(** [String.prototype.startsWith] *)
Fixpoint startsWith (s p : str) : bool :=
  match p, s with
  | [], _ => true
  | a :: p', x :: s' => char_eqb a x && startsWith s' p'
  | _ :: _, [] => false
  end.

(** [String.prototype.indexOf]: first position of [p] in [s], or -1. *)
Fixpoint indexOf_from (s p : str) (i : Z) : Z :=
  if startsWith s p then i
  else match s with
       | [] => (-1)%Z
       | _ :: s' => indexOf_from s' p (i + 1)
       end.

Definition indexOf (s p : str) : Z := indexOf_from s p 0.

Definition includes (s p : str) : bool := (0 <=? indexOf s p)%Z.

(** [String.prototype.trimStart], [trimEnd], [trim] *)
Fixpoint trimStart (s : str) : str :=
  match s with
  | c :: s' => if is_space c then trimStart s' else s
  | [] => []
  end.

Definition trimEnd (s : str) : str := rev (trimStart (rev s)).
Definition trim (s : str) : str := trimEnd (trimStart s).

(** Decimal rendering of a number inside a template literal. *)
Definition nat_to_str (n : nat) : str :=
  js (NilZero.string_of_uint (Nat.to_uint n)).

(** [Array.prototype.join] *)
Fixpoint join (sep : str) (l : list str) : str :=
  match l with
  | [] => []
  | [a] => a
  | a :: l' => a ++ sep ++ join sep l'
  end.

(** [Array.prototype.includes] on strings, [Set.prototype.has]. *)
Definition str_mem (x : str) (l : list str) : bool := existsb (str_eqb x) l.

(** [Set.prototype.add]: a [Set] keeps insertion order and no duplicate. *)
Definition set_add (x : str) (l : list str) : list str :=
  if str_mem x l then l else l ++ [x].

(* ================================================================= *)
(** ** Regular expressions

    Every quantifier of the source applies to a single character class, so
    the syntax has a class repetition [Rep] ([p*] is [Rep p 0], [p+] is
    [Rep p 1], [p{3,}] is [Rep p 3]) instead of a general star. *)

Inductive regex : Type :=
| Lit (l : str)                         (* literal text *)
| LitI (l : str)                        (* literal text under the i flag *)
| Cls (p : char -> bool)                (* one character of a class *)
| Rep (p : char -> bool) (min : nat)    (* greedy p{min,} *)
| Seq (r1 r2 : regex)
| Alt (r1 r2 : regex)
| Cap (n : nat) (r : regex)             (* capturing group number n *)
| Bol                                   (* ^ *)
| Eol                                   (* $ *)
| Wb.                                   (* \b *)

(** A position in the subject: the code unit before the cursor (none at
    index 0) and the text after it. *)
Definition pos := (option char * str)%type.

Definition caps := list (nat * str).

Fixpoint getcap (n : nat) (c : caps) : option str :=
  match c with
  | [] => None
  | (k, v) :: c' => if Nat.eqb k n then Some v else getcap n c'
  end.

Definition setcap (n : nat) (v : str) (c : caps) : caps := (n, v) :: c.

Definition R := (pos * caps)%type.

Definition accept : pos -> caps -> option R := fun p c => Some (p, c).

Fixpoint lit_match (eqc : char -> char -> bool) (l : str) (prev : option char)
    (s : str) : option pos :=
  match l with
  | [] => Some (prev, s)
  | a :: l' =>
      match s with
      | x :: s' => if eqc a x then lit_match eqc l' (Some x) s' else None
      | [] => None
      end
  end.

(** Greedy repetition of a class: take the longest run first, give
    characters back one at a time while the continuation fails. *)
Fixpoint rep (p : char -> bool) (min : nat) (k : pos -> caps -> option R)
    (prev : option char) (s : str) (c : caps) : option R :=
  let stop := if Nat.eqb min 0 then k (prev, s) c else None in
  match s with
  | x :: s' =>
      if p x then
        match rep p (pred min) k (Some x) s' c with
        | Some r => Some r
        | None => stop
        end
      else stop
  | [] => stop
  end.

Definition word_before (p : pos) : bool :=
  match fst p with Some c => is_word c | None => false end.

Definition word_after (p : pos) : bool :=
  match snd p with c :: _ => is_word c | [] => false end.

(** Text consumed between two positions of the same subject. *)
Definition consumed (p p' : pos) : str :=
  firstn (length (snd p) - length (snd p')) (snd p).

(** The backtracking matcher, in continuation-passing style. *)
Fixpoint m (r : regex) (k : pos -> caps -> option R) (p : pos) (c : caps)
    : option R :=
  match r with
  | Lit l =>
      match lit_match char_eqb l (fst p) (snd p) with
      | Some p' => k p' c
      | None => None
      end
  | LitI l =>
      match lit_match char_eqb_i l (fst p) (snd p) with
      | Some p' => k p' c
      | None => None
      end
  | Cls q =>
      match snd p with
      | x :: s' => if q x then k (Some x, s') c else None
      | [] => None
      end
  | Rep q min => rep q min k (fst p) (snd p) c
  | Seq r1 r2 => m r1 (fun p' c' => m r2 k p' c') p c
  | Alt r1 r2 =>
      match m r1 k p c with
      | Some x => Some x
      | None => m r2 k p c
      end
  | Cap n r' => m r' (fun p' c' => k p' (setcap n (consumed p p') c')) p c
  | Bol => match fst p with None => k p c | Some _ => None end
  | Eol => match snd p with [] => k p c | _ :: _ => None end
  | Wb => if xorb (word_before p) (word_after p) then k p c else None
  end.

(** A match: [index], the matched text ([match[0]]) and the groups. *)
Record Match : Type := mkMatch {
  m_index : nat;
  m_text : str;
  m_groups : caps
}.

Definition group (n : nat) (x : Match) : option str := getcap n (m_groups x).

Definition match_at (r : regex) (prev : option char) (s : str) (idx : nat)
    : option Match :=
  match m r accept (prev, s) [] with
  | Some (p', c) => Some (mkMatch idx (consumed (prev, s) p') c)
  | None => None
  end.

(** [RegExp.prototype.exec] without the [g] flag: leftmost match. *)
Fixpoint search (r : regex) (prev : option char) (s : str) (idx : nat)
    : option Match :=
  match match_at r prev s idx with
  | Some x => Some x
  | None =>
      match s with
      | [] => None
      | x :: s' => search r (Some x) s' (S idx)
      end
  end.

(** [String.prototype.match] with a regex without the [g] flag. *)
Definition re_match (r : regex) (s : str) : option Match := search r None s 0.

(** [RegExp.prototype.test] on a regex without the [g] flag. *)
Definition test (r : regex) (s : str) : bool :=
  match re_match r s with Some _ => true | None => false end.

(** The loop [while ((match = re.exec(text)) !== null)] on a fresh regex
    with the [g] flag: all matches, left to right, each search resuming
    where the previous match ended.  [skip] counts the code units of the
    last match still to be stepped over.  (No pattern of the source matches
    the empty string, on which the JavaScript loop would not advance.) *)
Fixpoint matchAll_from (r : regex) (prev : option char) (s : str) (idx : nat)
    (skip : nat) : list Match :=
  match skip with
  | S skip' =>
      match s with
      | [] => []
      | x :: s' => matchAll_from r (Some x) s' (S idx) skip'
      end
  | O =>
      match match_at r prev s idx with
      | Some x =>
          x :: match s with
               | [] => []
               | y :: s' =>
                   matchAll_from r (Some y) s' (S idx) (length (m_text x) - 1)
               end
      | None =>
          match s with
          | [] => []
          | y :: s' => matchAll_from r (Some y) s' (S idx) 0
          end
      end
  end.

Definition matchAll (r : regex) (s : str) : list Match :=
  matchAll_from r None s 0 0.

(** [String.prototype.replace] with a [g] regex and a literal replacement:
    the text between matches is copied, each match is replaced.  After an
    empty match the scan moves on by one code unit. *)
Fixpoint replace_from (r : regex) (by_ : str) (prev : option char) (s : str)
    (skip : nat) : str :=
  match skip with
  | S skip' =>
      match s with
      | [] => []
      | x :: s' => replace_from r by_ (Some x) s' skip'
      end
  | O =>
      match match_at r prev s 0 with
      | Some x =>
          by_ ++ match length (m_text x), s with
                 | _, [] => []
                 | O, y :: s' => y :: replace_from r by_ (Some y) s' 0
                 | S n, y :: s' => replace_from r by_ (Some y) s' n
                 end
      | None =>
          match s with
          | [] => []
          | y :: s' => y :: replace_from r by_ (Some y) s' 0
          end
      end
  end.

Definition replace (r : regex) (by_ : str) (s : str) : str :=
  replace_from r by_ None s 0.

(** [String.prototype.split]: the pieces between the matches of a separator
    that never matches the empty string.  No match is tried at the end of
    the subject, and the empty subject gives one empty piece. *)
Fixpoint split_from (r : regex) (prev : option char) (s : str) (cur : str)
    (skip : nat) : list str :=
  match skip with
  | S skip' =>
      match s with
      | [] => [cur]
      | x :: s' => split_from r (Some x) s' cur skip'
      end
  | O =>
      match s with
      | [] => [cur]
      | x :: s' =>
          match match_at r prev s 0 with
          | Some mt =>
              match length (m_text mt) with
              | O => split_from r (Some x) s' (cur ++ [x]) 0
              | S n => cur :: split_from r (Some x) s' [] n
              end
          | None => split_from r (Some x) s' (cur ++ [x]) 0
          end
      end
  end.

Definition split (r : regex) (s : str) : list str := split_from r None s [] 0.

(** [Array.prototype.findIndex]; [None] stands for -1. *)
Fixpoint findIndex (A : Type) (f : A -> bool) (l : list A) : option nat :=
  match l with
  | [] => None
  | x :: l' =>
      if f x then Some 0
      else match findIndex f l' with
           | Some i => Some (S i)
           | None => None
           end
  end.

(** A [Map]: keys in insertion order; [set] on a present key overwrites the
    value in place. *)
Section JsMap.
Variables (K V : Type) (eqb : K -> K -> bool).

Fixpoint map_set (k : K) (v : V) (l : list (K * V)) : list (K * V) :=
  match l with
  | [] => [(k, v)]
  | (k', v') :: l' =>
      if eqb k' k then (k, v) :: l' else (k', v') :: map_set k v l'
  end.

Definition map_has (k : K) (l : list (K * V)) : bool :=
  existsb (fun e => eqb (fst e) k) l.

Fixpoint map_get (k : K) (l : list (K * V)) : option V :=
  match l with
  | [] => None
  | (k', v') :: l' => if eqb k' k then Some v' else map_get k l'
  end.
End JsMap.

(** An array that is written by index: writing at the length appends, and
    writing further leaves holes (filled here with [d]). *)
Fixpoint arr_set (A : Type) (d : A) (i : nat) (v : A) (l : list A) : list A :=
  match i, l with
  | O, [] => [v]
  | O, _ :: l' => v :: l'
  | S i', [] => d :: arr_set d i' v []
  | S i', x :: l' => x :: arr_set d i' v l'
  end.

(* ================================================================= *)
(** ** SpellDatabase (spellData.ts) *)

Record SpellInfo : Type := mkSpell {
  id : Z;
  name : str;
  normalizedName : str
}.

Record SpellDatabase : Type := mkDb {
  spells : list (str * SpellInfo);
  spellsById : list (Z * SpellInfo);
  loaded : bool
}.

(** [new SpellDatabase()] *)
Definition newDb : SpellDatabase := mkDb [] [] false.

Definition is_apostrophe (c : char) : bool := (c =? 39)%N.

(** [parseInt(s, 10)]: leading white space, an optional sign, then the
    longest run of digits; [None] is NaN.  The value is the exact integer,
    which is what the source computes for an id below 2^53; a longer run of
    digits is rounded by the source to a double (and to [Infinity] beyond
    its range), which this model does not follow. *)
Fixpoint digits_value (s : str) (acc : Z) : Z :=
  match s with
  | c :: s' =>
      if is_digit c then digits_value s' (10 * acc + (Z.of_N c - 48))%Z
      else acc
  | [] => acc
  end.

Definition parseInt (s : str) : option Z :=
  let s1 := trimStart s in
  let '(neg, s2) :=
    match s1 with
    | c :: s' =>
        if (c =? 45)%N then (true, s')
        else if (c =? 43)%N then (false, s')
        else (false, s1)
    | [] => (false, s1)
    end in
  match s2 with
  | c :: _ =>
      if is_digit c
      then Some (if neg then (- digits_value s2 0)%Z else digits_value s2 0)
      else None
  | [] => None
  end.

(** [parseCsvLine]: fields separated by commas, double quotes protect
    commas, a doubled quote inside quotes is one quote. *)
Fixpoint parseCsvLine_loop (line : str) (current : str) (inQuotes : bool)
    (result : list str) : list str :=
  match line with
  | [] => result ++ [trim current]
  | c :: rest =>
      if (c =? 34)%N then
        match inQuotes, rest with
        | true, c2 :: rest' =>
            if (c2 =? 34)%N
            then parseCsvLine_loop rest' (current ++ [34%N]) inQuotes result
            else parseCsvLine_loop rest current (negb inQuotes) result
        | _, _ => parseCsvLine_loop rest current (negb inQuotes) result
        end
      else if (c =? 44)%N && negb inQuotes then
        parseCsvLine_loop rest [] inQuotes (result ++ [trim current])
      else parseCsvLine_loop rest (current ++ [c]) inQuotes result
  end.

Definition parseCsvLine (line : str) : list str :=
  parseCsvLine_loop line [] false [].

(** [levenshteinDistance]: the matrix is an array of rows, filled by index
    exactly as the source does.  (A cell that was never written reads as 0
    here; the loops only read cells already written.) *)
Definition cell (matrix : list (list nat)) (i j : nat) : nat :=
  nth j (nth i matrix []) 0.

Definition set_cell (matrix : list (list nat)) (i j v : nat)
    : list (list nat) :=
  arr_set [] i (arr_set 0 j v (nth i matrix [])) matrix.

Definition lev_inner (a b : str) (i : nat) (matrix : list (list nat)) (j : nat)
    : list (list nat) :=
  if char_eqb (nth (i - 1) b 0%N) (nth (j - 1) a 0%N)
  then set_cell matrix i j (cell matrix (i - 1) (j - 1))
  else set_cell matrix i j
         (Nat.min (Nat.min (cell matrix (i - 1) (j - 1) + 1)
                           (cell matrix i (j - 1) + 1))
                  (cell matrix (i - 1) j + 1)).

Definition lev_outer (a b : str) (matrix : list (list nat)) (i : nat)
    : list (list nat) :=
  fold_left (lev_inner a b i) (seq 1 (length a)) matrix.

Definition lev_matrix (a b : str) : list (list nat) :=
  let m0 := fold_left (fun mx i => arr_set [] i [i] mx)
                      (seq 0 (S (length b))) [] in
  let m1 := fold_left (fun mx j => set_cell mx 0 j j)
                      (seq 0 (S (length a))) m0 in
  fold_left (lev_outer a b) (seq 1 (length b)) m1.

Definition levenshteinDistance (a b : str) : nat :=
  match a, b with
  | [], _ => length b
  | _, [] => length a
  | _, _ => cell (lev_matrix a b) (length b) (length a)
  end.

Section WithToLowerCase.

(** [String.prototype.toLowerCase] follows the Unicode case mappings; it is
    left as a parameter.  What is used of it is stated where it is used. *)
Variable toLowerCase : str -> str.

Definition re_apostrophe : regex := Cls is_apostrophe.            (* /['']/g *)
Definition re_non_alnum : regex :=
  Rep (fun c => negb (is_lower_alnum c)) 1.                       (* /[^a-z0-9]+/g *)
Definition re_edge_us : regex :=
  Alt (Seq Bol (Lit (js "_"))) (Seq (Lit (js "_")) Eol).          (* /^_|_$/g *)
Definition re_us_run : regex := Rep is_underscore 1.              (* /_+/g *)

Definition normalizeName (name : str) : str :=
  replace re_us_run (js "_")
    (replace re_edge_us []
       (replace re_non_alnum (js "_")
          (replace re_apostrophe [] (toLowerCase name)))).

Definition re_newline : regex :=
  Alt (Lit [13%N; 10%N]) (Lit [10%N]).                            (* /\r?\n/ *)

(** One data row of [loadFromCsv]. *)
Definition load_row (idIndex nameIndex : nat) (db : SpellDatabase)
    (row : str) : SpellDatabase :=
  let line := trim row in
  match line with
  | [] => db
  | _ :: _ =>
      let columns := parseCsvLine line in
      if length columns <=? Nat.max idIndex nameIndex then db
      else
        let idStr := nth idIndex columns [] in
        let name := nth nameIndex columns [] in
        match idStr, name with
        | [], _ => db
        | _, [] => db
        | _, _ =>
            match parseInt idStr with
            | None => db
            | Some id =>
                let normalizedName := normalizeName name in
                let spell := mkSpell id name normalizedName in
                mkDb (map_set str_eqb normalizedName spell (spells db))
                     (map_set Z.eqb id spell (spellsById db))
                     (loaded db)
            end
        end
  end.

(** [loadFromCsv].  The file is [None] when it does not exist or cannot be
    read (the [catch] returns false and nothing was changed by then). *)
Definition loadFromCsv (file : option str) (db : SpellDatabase)
    : SpellDatabase * bool :=
  match file with
  | None => (db, false)
  | Some content =>
      match split re_newline content with
      | [] => (db, false)
      | header_line :: rows =>
          let header :=
            map trim (split (Lit (js ",")) (toLowerCase header_line)) in
          match findIndex (fun h => str_eqb h (js "id")) header,
                findIndex (fun h => str_eqb h (js "name")
                                    || str_eqb h (js "name_lang")) header with
          | Some idIndex, Some nameIndex =>
              let countBefore := length (spells db) in
              let db' := fold_left (load_row idIndex nameIndex) rows db in
              let loaded := length (spells db') - countBefore in
              (mkDb (spells db') (spellsById db') true, 0 <? loaded)
          | _, _ => (db, false)
          end
      end
  end.

Definition isLoaded (db : SpellDatabase) : bool := loaded db.

Definition isValidSpell (db : SpellDatabase) (name : str) : bool :=
  if negb (loaded db) then true
  else map_has str_eqb (normalizeName name) (spells db).

Definition findSimilar (db : SpellDatabase) (name : str) (maxDistance : nat)
    : list SpellInfo :=
  let normalized := normalizeName name in
  let results :=
    fold_left
      (fun results e =>
         let distance := levenshteinDistance normalized (fst e) in
         if (distance <=? maxDistance) && (0 <? distance)
         then results ++ [snd e] else results)
      (spells db) [] in
  firstn 5 results.

(** [getSpell], [getSpellById], [getAllSpellNames], [getSpellCount] *)
Definition getSpell (db : SpellDatabase) (name : str) : option SpellInfo :=
  map_get str_eqb (normalizeName name) (spells db).

Definition getSpellById (db : SpellDatabase) (id : Z) : option SpellInfo :=
  map_get Z.eqb id (spellsById db).

Definition getAllSpellNames (db : SpellDatabase) : list str :=
  map fst (spells db).

Definition getSpellCount (db : SpellDatabase) : nat := length (spells db).

(** [searchSpells]: the loop over the table pushes a matching record and
    only then compares the number of results with [limit]. *)
Fixpoint searchSpells_loop (normalized lowered : str) (limit : Z)
    (l : list (str * SpellInfo)) (results : list SpellInfo)
    : list SpellInfo :=
  match l with
  | [] => results
  | (key, spell) :: l' =>
      if startsWith key normalized
         || includes (toLowerCase (name spell)) lowered
      then
        let results' := results ++ [spell] in
        if (limit <=? Z.of_nat (length results'))%Z then results'
        else searchSpells_loop normalized lowered limit l' results'
      else searchSpells_loop normalized lowered limit l' results
  end.

Definition searchSpells (db : SpellDatabase) (prefix : str) (limit : Z)
    : list SpellInfo :=
  searchSpells_loop (normalizeName prefix) (toLowerCase prefix) limit
    (spells db) [].

(** [autoLoad]: every spell file found in the workspace folders is loaded,
    in the order of the search, and the tables are merged; the files bundled
    with the extension are tried, up to the first that loads something, only
    when no workspace file loaded anything.  The file system is summed up by
    the contents of the files found: [workspace] is [None] when there is no
    workspace folder, and a file that cannot be read is [None]. *)
Definition load_all (files : list (option str)) (db : SpellDatabase)
    : SpellDatabase * bool :=
  fold_left
    (fun st file =>
       let '(db', result) := loadFromCsv file (fst st) in
       (db', if result then true else snd st))
    files (db, false).

Fixpoint load_first (files : list (option str)) (db : SpellDatabase)
    : SpellDatabase * bool :=
  match files with
  | [] => (db, false)
  | file :: files' =>
      let '(db', result) := loadFromCsv file db in
      if result then (db', true) else load_first files' db'
  end.

Definition autoLoad (workspace : option (list (option str)))
    (bundled : list (option str)) (db : SpellDatabase)
    : SpellDatabase * bool :=
  match workspace with
  | None => (db, false)
  | Some files =>
      let '(db', loadedAny) := load_all files db in
      if loadedAny then (db', true) else load_first bundled db'
  end.

(** [reload] clears both tables and the flag, then loads again. *)
Definition reload (workspace : option (list (option str)))
    (bundled : list (option str)) (db : SpellDatabase)
    : SpellDatabase * bool :=
  autoLoad workspace bundled (mkDb [] [] false).

End WithToLowerCase.

(** Lower-casing of the ASCII letters; it agrees with [toLowerCase] on
    strings of ASCII code units. *)
Definition ascii_lower (c : char) : char := if is_upper c then (c + 32)%N else c.
Definition toLowerCaseAscii (s : str) : str := map ascii_lower s.

(* ================================================================= *)
(** ** RotationDiagnosticProvider (diagnosticProvider.ts) *)

Inductive DiagnosticSeverity : Type := Error | Warning | Information | Hint.

(** [new vscode.Range(startLine, startCharacter, endLine, endCharacter)] *)
Record Range : Type := mkRange {
  start_line : nat;
  start_character : Z;
  end_line : nat;
  end_character : Z
}.

Record Diagnostic : Type := mkDiagnostic {
  range : Range;
  message : str;
  severity : DiagnosticSeverity
}.

(** A document is the sequence of its lines ([document.lineAt(i).text]). *)
Definition TextDocument := list str.

(** A sequence of regex parts. *)
Fixpoint seqs (l : list regex) : regex :=
  match l with
  | [] => Lit []
  | [r] => r
  | r :: l' => Seq r (seqs l')
  end.

Definition dq : str := [34%N].

Definition len (s : str) : Z := Z.of_nat (length s).

(** *** Symbol tables *)

Definition re_lists_section : regex :=                (* /^lists:\s*$/ *)
  seqs [Bol; Lit (js "lists:"); Rep is_space 0; Eol].
Definition re_config_section : regex :=               (* /^config:\s*$/ *)
  seqs [Bol; Lit (js "config:"); Rep is_space 0; Eol].
Definition re_variables_section : regex :=            (* /^variables:\s*$/ *)
  seqs [Bol; Lit (js "variables:"); Rep is_space 0; Eol].
Definition re_root_key : regex :=                     (* /^[a-z_]+:\s*$/ *)
  seqs [Bol; Rep is_lower_us 1; Lit (js ":"); Rep is_space 0; Eol].
Definition re_entry : regex :=                        (* /^\s{2}(\w+):\s*$/ *)
  seqs [Bol; Cls is_space; Cls is_space; Cap 1 (Rep is_word 1); Lit (js ":");
        Rep is_space 0; Eol].
Definition re_variable_entry : regex :=               (* /^\s{2}(\w+):/ *)
  seqs [Bol; Cls is_space; Cls is_space; Cap 1 (Rep is_word 1); Lit (js ":")].

(** The scan shared by the three collectors: [section] is the regex that
    enters the section, [entry] the one that recognises an entry line. *)
Fixpoint collect_loop (section entry : regex) (lines : list str)
    (inSection : bool) (found : list str) : list str :=
  match lines with
  | [] => found
  | text :: rest =>
      if test section text then collect_loop section entry rest true found
      else if inSection && test re_root_key text
                        && negb (startsWith text (js " "))
      then collect_loop section entry rest false found
      else if inSection then
        match re_match entry text with
        | Some mt =>
            match group 1 mt with
            | Some n => collect_loop section entry rest inSection (set_add n found)
            | None => collect_loop section entry rest inSection found
            end
        | None => collect_loop section entry rest inSection found
        end
      else collect_loop section entry rest inSection found
  end.

Definition collectDefinedLists (document : TextDocument) : list str :=
  collect_loop re_lists_section re_entry document false [].

Definition collectDefinedConfigVars (document : TextDocument) : list str :=
  collect_loop re_config_section re_entry document false [].

Definition collectDefinedVariables (document : TextDocument) : list str :=
  collect_loop re_variables_section re_variable_entry document false [].

(** [RotationCompletionProvider.collectVariables] is the same scan. *)
Definition collectVariables (document : TextDocument) : list str :=
  collect_loop re_variables_section re_variable_entry document false [].

(** *** Config and variable references *)

Definition sharedConfigVars : list str :=
  map js ["auto_target_enabled"; "auto_target_range"; "auto_target_delay";
          "auto_heal_enabled"; "auto_heal_range";
          "interrupt_enabled"; "interrupt_delay"; "interrupt_threshold";
          "defensive_enabled"; "defensive_threshold";
          "burst_enabled"; "aoe_enabled"; "aoe_threshold";
          "movement_threshold"; "gcd_tolerance"]%string.

Definition re_config_ref : regex :=                   (* /\bconfig\.(\w+)/g *)
  seqs [Wb; Lit (js "config."); Cap 1 (Rep is_word 1)].
Definition re_var_ref : regex :=                      (* /\bvar\.(\w+)/g *)
  seqs [Wb; Lit (js "var."); Cap 1 (Rep is_word 1)].

(** [. Available: a, b, c, d, e...] *)
Definition available_hint (availableVars : list str) : str :=
  if 0 <? length availableVars
  then js ". Available: " ++ join (js ", ") (firstn 5 availableVars)
       ++ (if 5 <? length availableVars then js "..." else [])
  else [].

Definition diag_at (lineNum : nat) (startIndex : Z) (width : Z) (msg : str)
    (sev : DiagnosticSeverity) : Diagnostic :=
  mkDiagnostic (mkRange lineNum startIndex lineNum (startIndex + width)) msg sev.

Definition diag_line (lineNum : nat) (text : str) (msg : str)
    (sev : DiagnosticSeverity) : Diagnostic :=
  mkDiagnostic (mkRange lineNum 0 lineNum (len text)) msg sev.

Definition group1 (mt : Match) : str :=
  match group 1 mt with Some v => v | None => [] end.

Definition config_ref_check (lineNum : nat) (definedConfigVars : list str)
    (mt : Match) : list Diagnostic :=
  let varName := group1 mt in
  if negb (str_mem varName definedConfigVars)
     && negb (str_mem varName sharedConfigVars)
  then
    let startIndex := (Z.of_nat (m_index mt) + 7)%Z in
    [diag_at lineNum startIndex (len varName)
       (js "Config variable " ++ dq ++ varName ++ dq ++ js " is not defined"
        ++ available_hint definedConfigVars)
       Warning]
  else [].

Definition var_ref_check (lineNum : nat) (definedVariables : list str)
    (mt : Match) : list Diagnostic :=
  let varName := group1 mt in
  if negb (str_mem varName definedVariables)
  then
    let startIndex := (Z.of_nat (m_index mt) + 4)%Z in
    [diag_at lineNum startIndex (len varName)
       (js "Variable " ++ dq ++ varName ++ dq ++ js " is not defined"
        ++ available_hint definedVariables)
       Warning]
  else [].

Definition validateConfigAndVarReferences (text : str) (lineNum : nat)
    (definedConfigVars definedVariables : list str) : list Diagnostic :=
  flat_map (config_ref_check lineNum definedConfigVars)
           (matchAll re_config_ref text)
  ++ flat_map (var_ref_check lineNum definedVariables)
              (matchAll re_var_ref text).

(** *** Action lines *)

Definition re_action : regex :=                       (* /^\s*-\s*(.+)$/ *)
  seqs [Bol; Rep is_space 0; Lit (js "-"); Rep is_space 0;
        Cap 1 (Rep is_any 1); Eol].
Definition re_open_paren : regex := Lit (js "(").     (* /\(/g *)
Definition re_close_paren : regex := Lit (js ")").    (* /\)/g *)
Definition re_empty_if : regex :=                     (* /,if=\s*(,|$)/ *)
  seqs [Lit (js ",if="); Rep is_space 0; Cap 1 (Alt (Lit (js ",")) Eol)].
Definition re_op_run : regex := Rep is_bool_op 3.     (* /[&|]{3,}/ *)
Definition re_trailing_op : regex :=                  (* /[&|]\s*(,|$)/ *)
  seqs [Cls is_bool_op; Rep is_space 0; Cap 1 (Alt (Lit (js ",")) Eol)].
Definition re_leading_op : regex :=                   (* /,if=[&|]/ *)
  seqs [Lit (js ",if="); Cls is_bool_op].
Definition re_up_true : regex :=                      (* /\.up\s*=\s*true/i *)
  seqs [LitI (js ".up"); Rep is_space 0; Lit (js "="); Rep is_space 0;
        LitI (js "true")].
Definition re_down_true : regex :=                    (* /\.down\s*=\s*true/i *)
  seqs [LitI (js ".down"); Rep is_space 0; Lit (js "="); Rep is_space 0;
        LitI (js "true")].
Definition re_missing_spell : regex :=                (* /^\s*-\s*,/ *)
  seqs [Bol; Rep is_space 0; Lit (js "-"); Rep is_space 0; Lit (js ",")].
Definition re_call_alias : regex :=                   (* \bcall=(G), G = \w* *)
  seqs [Wb; Lit (js "call="); Cap 1 (Rep is_word 0)].
Definition re_list_ref : regex :=       (* /(?:call|run)_action_list.*name=(\w+)/ *)
  seqs [Alt (Lit (js "call")) (Lit (js "run")); Lit (js "_action_list");
        Rep is_any 0; Lit (js "name="); Cap 1 (Rep is_word 1)].

Definition sharedLists : list str :=
  map js ["spell_queue"; "sanity_checks"; "auto_target"; "auto_heal";
          "variables"; "precombat"; "cooldowns"; "defensives";
          "interrupts"]%string.

Definition when (b : bool) (l : list Diagnostic) : list Diagnostic :=
  if b then l else [].

(** The last check of [validateActionLine]: the referenced list exists. *)
Definition list_ref_check (text actionContent : str) (lineNum : nat)
    (definedLists : list str) : list Diagnostic :=
  let callAliasMatch := re_match re_call_alias actionContent in
  let listMatch :=
    match re_match re_list_ref actionContent with
    | Some mt => Some mt
    | None =>
        match callAliasMatch with
        | Some ca => match group1 ca with [] => None | _ :: _ => Some ca end
        | None => None
        end
    end in
  match listMatch with
  | Some mt =>
      let listName := group1 mt in
      if negb (str_mem listName definedLists)
         && negb (str_mem listName sharedLists)
      then
        let nameIndex := (indexOf text (js "name=" ++ listName) + 5)%Z in
        [diag_at lineNum nameIndex (len listName)
           (js "Action list " ++ dq ++ listName ++ dq ++ js " is not defined"
            ++ (if 0 <? length definedLists
                then js ". Available lists: " ++ join (js ", ") definedLists
                else []))
           Error]
      else []
  | None => []
  end.

Definition validateActionLine (text : str) (lineNum : nat)
    (definedLists : list str) : list Diagnostic :=
  match re_match re_action text with
  | None => []
  | Some am =>
      let actionContent := group1 am in
      let openParens := length (matchAll re_open_paren actionContent) in
      let closeParens := length (matchAll re_close_paren actionContent) in
      when (negb (openParens =? closeParens))
        [diag_line lineNum text
           (js "Unbalanced parentheses: " ++ nat_to_str openParens
            ++ js " opening, " ++ nat_to_str closeParens ++ js " closing")
           Error]
      ++ when (test re_empty_if actionContent)
           [diag_at lineNum (indexOf text (js ",if=")) 4
              (js "Empty condition after if=") Error]
      ++ match re_match re_op_run actionContent with
         | Some om =>
             [diag_at lineNum (indexOf text (m_text om)) (len (m_text om))
                (js "Invalid operator sequence") Error]
         | None => []
         end
      ++ when (test re_trailing_op actionContent)
           [diag_line lineNum text (js "Condition ends with an operator")
              Warning]
      ++ when (test re_leading_op actionContent)
           [diag_at lineNum (indexOf text (js ",if=")) 5
              (js "Condition starts with an operator (use ! for negation)")
              Warning]
      ++ when (test re_up_true actionContent)
           [diag_line lineNum text
              (js ".up already returns boolean, no need for =true (use just .up)")
              Information]
      ++ when (test re_down_true actionContent)
           [diag_line lineNum text
              (js ".down already returns boolean, no need for =true (use just .down)")
              Information]
      ++ when (test re_missing_spell text)
           [diag_line lineNum text (js "Missing spell name before comma")
              Error]
      ++ when ((startsWith actionContent (js "call_action_list")
                || startsWith actionContent (js "run_action_list"))
               && negb (includes actionContent (js "name=")))
           [diag_line lineNum text
              (js "call_action_list/run_action_list requires name= parameter")
              Error]
      ++ match re_match re_call_alias actionContent with
         | Some ca =>
             match group1 ca with
             | [] => [diag_line lineNum text (js "call= requires a list name")
                        Error]
             | _ :: _ => []
             end
         | None => []
         end
      ++ list_ref_check text actionContent lineNum definedLists
  end.

(** *** Spell names *)

Fixpoint alts (l : list regex) : regex :=
  match l with
  | [] => Lit []
  | [r] => r
  | r :: l' => Alt r (alts l')
  end.

Definition re_unit : regex :=          (* (?:player|target|focus|mouseover) *)
  alts [Lit (js "player"); Lit (js "target"); Lit (js "focus");
        Lit (js "mouseover")].
Definition re_aura_fn : regex :=       (* (?:up|down|remains|stacks) *)
  alts [Lit (js "up"); Lit (js "down"); Lit (js "remains");
        Lit (js "stacks")].

(** [\bPREFIX\.(\w+)\.] and [\bPREFIX\.(\w+)] *)
Definition re_dotted (prefix : string) : regex :=
  seqs [Wb; Lit (js prefix); Lit (js "."); Cap 1 (Rep is_word 1); Lit (js ".")].
Definition re_prefixed (prefix : string) : regex :=
  seqs [Wb; Lit (js prefix); Lit (js "."); Cap 1 (Rep is_word 1)].

(** The table [patterns] of [validateSpellNames], in its order. *)
Definition patterns : list (regex * str) :=
  [ (re_dotted "buff", js "buff");
    (re_dotted "debuff", js "debuff");
    (re_dotted "dot", js "dot");
    (re_dotted "cooldown", js "cooldown");
    (re_dotted "totem", js "totem");
    (re_prefixed "talent", js "talent");
    (re_prefixed "usable", js "usable");
    (re_prefixed "active_dot", js "active_dot");
    (re_dotted "nameplates.debuff", js "nameplates.debuff");
    (re_dotted "nameplates.buff", js "nameplates.buff");
    (seqs [Wb; Lit (js "prev_gcd."); Cls is_digit; Lit (js ".");
           Cap 1 (Rep is_word 1)], js "prev_gcd");
    (seqs [Wb; re_unit; Lit (js ".buff."); re_aura_fn; Lit (js "(");
           Cap 1 (Rep is_word 1); Lit (js ")")], js "buff function");
    (seqs [Wb; re_unit; Lit (js ".debuff."); re_aura_fn; Lit (js "(");
           Cap 1 (Rep is_word 1); Lit (js ")")], js "debuff function");
    (seqs [Wb; Lit (js "player.talent("); Cap 1 (Rep is_word 1);
           Lit (js ")")], js "talent function");
    (seqs [Wb; Lit (js "player.prev_gcd_"); Cls (in_range 49%N 53%N);
           Lit (js "("); Cap 1 (Rep is_word 1); Lit (js ")")],
     js "prev_gcd function") ]%string.

Definition re_action_word : regex :=                  (* /^\s*-\s*(\w+)/ *)
  seqs [Bol; Rep is_space 0; Lit (js "-"); Rep is_space 0;
        Cap 1 (Rep is_word 1)].
Definition re_number : regex :=                       (* /^\d+$/ *)
  seqs [Bol; Rep is_digit 1; Eol].

Definition specialActions : list str :=
  map js ["call_action_list"; "run_action_list"; "return"; "stop_casting";
          "queue_spell"; "trinket_1"; "trinket_2"; "healthstone";
          "health_potion"; "mana_potion"; "combat_potion"; "target_enemy";
          "attack_target"; "weapon_onuse"; "wrist_onuse"; "helm_onuse";
          "cloak_onuse"; "belt_onuse"; "interact_target";
          "interact_mouseover"; "loot_a_rang"; "augment_rune";
          "focus_party1"; "focus_party2"; "focus_party3"; "focus_party4";
          "target_mouseover"; "target_focus"; "focus_target";
          "focus_mouseover"; "call"]%string
  ++ map (fun i => js "focus_raid" ++ nat_to_str (i + 1)) (seq 0 40).

(** The template placeholders [SPELL], [TALENT], [VARNAME]. *)
Definition is_placeholder (spellName : str) : bool :=
  str_eqb spellName (js "SPELL") || str_eqb spellName (js "TALENT")
  || str_eqb spellName (js "VARNAME").

Section Validator.

Variable toLowerCase : str -> str.
Variable spellDatabase : SpellDatabase.

(** [. Did you mean: a, b?] *)
Definition did_you_mean (spellName : str) : str :=
  let similar := findSimilar toLowerCase spellDatabase spellName 2 in
  if 0 <? length similar
  then js ". Did you mean: " ++ join (js ", ") (map normalizedName similar)
       ++ js "?"
  else [].

(** The check of the first word after the dash. *)
Definition action_word_check (text : str) (lineNum : nat) : list Diagnostic :=
  match re_match re_action_word text with
  | Some am =>
      let spellName := group1 am in
      if test re_number spellName then []
      else if negb (str_mem spellName specialActions)
              && negb (isValidSpell toLowerCase spellDatabase spellName)
      then
        [diag_at lineNum (indexOf text spellName) (len spellName)
           (js "Unknown spell: " ++ dq ++ spellName ++ dq
            ++ did_you_mean spellName)
           Warning]
      else []
  | None => []
  end.

(** The body of the loop over the matches of one pattern. *)
Definition expr_name_check (lineNum : nat) (type : str) (mt : Match)
    : list Diagnostic :=
  let spellName := group1 mt in
  if is_placeholder spellName then []
  else if test re_number spellName then []
  else if negb (isValidSpell toLowerCase spellDatabase spellName)
  then
    let startIndex :=
      (Z.of_nat (m_index mt) + indexOf (m_text mt) spellName)%Z in
    [diag_at lineNum startIndex (len spellName)
       (js "Unknown spell in " ++ type ++ js ": " ++ dq ++ spellName ++ dq
        ++ did_you_mean spellName)
       Warning]
  else [].

(** The loop over [patterns]. *)
Definition expr_names_check (text : str) (lineNum : nat) : list Diagnostic :=
  flat_map
    (fun pattern =>
       flat_map (expr_name_check lineNum (snd pattern))
                (matchAll (fst pattern) text))
    patterns.

Definition validateSpellNames (text : str) (lineNum : nat) : list Diagnostic :=
  if negb (isLoaded spellDatabase) then []
  else action_word_check text lineNum ++ expr_names_check text lineNum.

(** *** Common typos *)

Definition typos : list (regex * str * DiagnosticSeverity) :=
  [ (seqs [Wb; Lit (js "buf.")], js "Did you mean " ++ dq ++ js "buff." ++ dq ++ js "?", Warning);
    (seqs [Wb; Lit (js "debbuf.")], js "Did you mean " ++ dq ++ js "debuff." ++ dq ++ js "?", Warning);
    (seqs [Wb; Lit (js "cooldonw.")], js "Did you mean " ++ dq ++ js "cooldown." ++ dq ++ js "?", Warning);
    (seqs [Wb; Lit (js "talant.")], js "Did you mean " ++ dq ++ js "talent." ++ dq ++ js "?", Warning);
    (seqs [Wb; Lit (js "health_pct"); Wb], js "Did you mean " ++ dq ++ js "health.pct" ++ dq ++ js "?", Warning);
    (seqs [Wb; Lit (js "target_health"); Wb], js "Did you mean " ++ dq ++ js "target.health.pct" ++ dq ++ js "?", Warning);
    (seqs [Wb; Lit (js "player_moving"); Wb], js "Did you mean " ++ dq ++ js "player.moving" ++ dq ++ js "?", Warning);
    (seqs [Wb; Lit (js "active_enemie"); Wb], js "Did you mean " ++ dq ++ js "active_enemies" ++ dq ++ js "?", Warning);
    (seqs [Wb; Lit (js "remaning"); Wb], js "Did you mean " ++ dq ++ js "remains" ++ dq ++ js "?", Warning);
    (seqs [Wb; Lit (js "stack"); Rep is_space 0; Lit (js ">")], js "Did you mean " ++ dq ++ js ".stack>" ++ dq ++ js "?", Information);
    (seqs [Lit (js "="); Rep (fun c => (c =? 61)%N) 1], js "Use single = for equality", Information);
    (seqs [Wb; LitI (js "and"); Wb], js "Use & for AND operator", Warning);
    (seqs [Wb; LitI (js "or"); Wb], js "Use | for OR operator", Warning);
    (seqs [Wb; LitI (js "not"); Rep is_space 1; Cls is_word], js "Use ! for NOT operator", Warning) ].

Definition checkCommonTypos (text : str) (lineNum : nat) : list Diagnostic :=
  flat_map
    (fun typo =>
       map (fun mt =>
              diag_at lineNum (Z.of_nat (m_index mt)) (len (m_text mt))
                      (snd (fst typo)) (snd typo))
           (matchAll (fst (fst typo)) text))
    typos.

(** *** The validation pass *)

(** The body of the loop of [updateDiagnostics] for one line. *)
Definition line_diagnostics (definedLists definedConfigVars definedVariables
    : list str) (text : str) (lineNum : nat) : list Diagnostic :=
  if startsWith (trim text) (js "#") || str_eqb (trim text) []
  then []
  else
    (if startsWith (trimStart text) (js "-")
     then validateActionLine text lineNum definedLists else [])
    ++ validateSpellNames text lineNum
    ++ validateConfigAndVarReferences text lineNum definedConfigVars
         definedVariables
    ++ checkCommonTypos text lineNum.

Fixpoint diagnostics_from (definedLists definedConfigVars definedVariables
    : list str) (lines : list str) (lineNum : nat) : list Diagnostic :=
  match lines with
  | [] => []
  | text :: rest =>
      line_diagnostics definedLists definedConfigVars definedVariables
                       text lineNum
      ++ diagnostics_from definedLists definedConfigVars definedVariables
                          rest (S lineNum)
  end.

(** [updateDiagnostics]: the sequence handed to [diagnosticCollection.set]. *)
Definition updateDiagnostics (document : TextDocument) : list Diagnostic :=
  let definedLists := collectDefinedLists document in
  let definedConfigVars := collectDefinedConfigVars document in
  let definedVariables := collectDefinedVariables document in
  diagnostics_from definedLists definedConfigVars definedVariables document 0.

End Validator.

(* ================================================================= *)
(** ** RotationHoverProvider.matchTemplate (hoverProvider.ts)

    The six aura shapes tried first, each a regex of its own in the source:
    [/^buff\.(\w+)\.(\w+)\.any$/] then [/^buff\.(\w+)\.(\w+)$/], and the same
    two for [debuff] and [dot]. *)

Definition re_aura_any (prefix : str) : regex :=
  seqs [Bol; Lit prefix; Cap 1 (Rep is_word 1); Lit (js ".");
        Cap 2 (Rep is_word 1); Lit (js ".any"); Eol].

Definition re_aura (prefix : str) : regex :=
  seqs [Bol; Lit prefix; Cap 1 (Rep is_word 1); Lit (js ".");
        Cap 2 (Rep is_word 1); Eol].

Definition buffAnyMatch (word : str) : option Match :=
  re_match (re_aura_any (js "buff.")) word.
Definition buffMatch (word : str) : option Match :=
  re_match (re_aura (js "buff.")) word.
Definition debuffAnyMatch (word : str) : option Match :=
  re_match (re_aura_any (js "debuff.")) word.
Definition debuffMatch (word : str) : option Match :=
  re_match (re_aura (js "debuff.")) word.
Definition dotAnyMatch (word : str) : option Match :=
  re_match (re_aura_any (js "dot.")) word.
Definition dotMatch (word : str) : option Match :=
  re_match (re_aura (js "dot.")) word.

(** The token without its last four code units (the [.any] suffix). *)
Definition strip_any (word : str) : str := firstn (length word - 4) word.

(** The shapes in function-call syntax of [matchTemplate]:
    [player.buff.up(SPELL)] and the like, [player.talent(TALENT)],
    [player.prev_gcd_1(SPELL)], [group.count(EXPR)] and
    [enemies.inrange(N)], [enemies.combat.inrange(N)]. *)
Definition re_unit_aura_fn : regex :=
  seqs [Bol; Cap 1 re_unit; Lit (js ".");
        Cap 2 (Alt (Lit (js "buff")) (Lit (js "debuff"))); Lit (js ".");
        Cap 3 re_aura_fn; Lit (js "("); Cap 4 (Rep is_word 1); Lit (js ")");
        Eol].
Definition re_talent_fn : regex :=
  seqs [Bol; Lit (js "player.talent("); Cap 1 (Rep is_word 1); Lit (js ")");
        Eol].
Definition re_prev_gcd_fn : regex :=
  seqs [Bol; Lit (js "player.prev_gcd_"); Cap 1 (Cls (in_range 49%N 53%N));
        Lit (js "("); Cap 2 (Rep is_word 1); Lit (js ")"); Eol].
Definition re_group_count : regex :=
  seqs [Bol; Lit (js "group.count(");
        Cap 1 (Rep (fun c => negb (c =? 41)%N) 1); Lit (js ")"); Eol].
Definition re_enemies_inrange : regex :=
  seqs [Bol; Lit (js "enemies"); Alt (Lit (js ".combat")) (Lit []);
        Lit (js ".inrange("); Cap 1 (Rep is_digit 1); Lit (js ")"); Eol].

Definition function_call_shapes : list regex :=
  [re_unit_aura_fn; re_talent_fn; re_prev_gcd_fn; re_group_count;
   re_enemies_inrange].

(** [provideHover] takes the word under the cursor with the word pattern
    [[\w._]+]: a word is one or more word characters and dots. *)
Definition is_hover_char (c : char) : bool := is_word c || (c =? 46)%N.

Definition hover_word (word : str) : Prop :=
  word <> [] /\ forallb is_hover_char word = true.

(** [getOperatorHover]: the text of the hover, or [None] for undefined.
    [char] is [line[pos]], undefined past the end of the line. *)
Definition operators (c : char) : option str :=
  if (c =? 38)%N then Some (js "AND operator - both conditions must be true")
  else if (c =? 124)%N
  then Some (js "OR operator - either condition must be true")
  else if (c =? 33)%N
  then Some (js "NOT operator - negates the following condition")
  else if (c =? 60)%N then Some (js "Less than comparison")
  else if (c =? 62)%N then Some (js "Greater than comparison")
  else if (c =? 61)%N then Some (js "Equality comparison")
  else None.

Definition getOperatorHover (char : option N) (line : str) (pos : nat)
    : option str :=
  let twoChar := firstn 2 (skipn pos line) in
  if str_eqb twoChar (js "<=") || str_eqb twoChar (js ">=")
     || str_eqb twoChar (js "!=") || str_eqb twoChar (js "==")
  then
    let desc :=
      if str_eqb twoChar (js "<=") then js "Less than or equal"
      else if str_eqb twoChar (js ">=") then js "Greater than or equal"
      else if str_eqb twoChar (js "!=") then js "Not equal"
      else js "Equal (same as =)" in
    Some (js "**" ++ twoChar ++ js "** - " ++ desc)
  else if str_eqb twoChar (js ">?") || str_eqb twoChar (js "<?")
  then
    let desc :=
      if str_eqb twoChar (js ">?")
      then js "Min operator (SimC style) - returns minimum of two values"
      else js "Max operator (SimC style) - returns maximum of two values" in
    Some (js "**" ++ twoChar ++ js "** - " ++ desc)
  else
    match char with
    | Some c =>
        match operators c with
        | Some desc => Some (js "**" ++ [c] ++ js "** - " ++ desc)
        | None => None
        end
    | None => None
    end.

(* ================================================================= *)
(** ** RotationCompletionProvider (completionProvider.ts) *)

(** The kinds of completion item that the functions below use. *)
Inductive CompletionItemKind : Type :=
  KindVariable | KindValue | KindKeyword | KindModule.

Record CompletionItem : Type := mkItem {
  label : str;
  kind : CompletionItemKind;
  detail : str;
  documentation : str;
  insertText : option str
}.

(** [collectConfigVars] is the scan of [collectDefinedConfigVars]. *)
Definition collectConfigVars (document : TextDocument) : list str :=
  collect_loop re_config_section re_entry document false [].

Definition getConfigVarCompletions (document : TextDocument)
    (partial prefix : str) : list CompletionItem :=
  flat_map
    (fun varName =>
       if startsWith varName partial || str_eqb partial []
       then [mkItem varName KindVariable
               (if str_eqb prefix (js "settings")
                then js "Config variable (legacy alias)"
                else js "Config variable")
               (js "User-configurable variable defined in config: section."
                ++ [10%N; 10%N]
                ++ js "For multi_select type, use .has(VALUE) to check if an option is selected.")
               None]
       else [])
    (collectConfigVars document).

Definition getVariableCompletions (document : TextDocument) (partial : str)
    : list CompletionItem :=
  flat_map
    (fun varName =>
       if startsWith varName partial || str_eqb partial []
       then [mkItem varName KindVariable (js "Variable")
               (js "Expression variable defined in variables: section")
               None]
       else [])
    (collectVariables document).

Definition re_root_prefix : regex :=                  (* /^[a-z_]+:/ *)
  seqs [Bol; Rep is_lower_us 1; Lit (js ":")].

(** [isInSection]: the scan goes up from the line of the cursor to the
    first line that starts with the section name or looks like a root key.
    (The cursor is on a line of the document; a line that does not exist
    reads as empty here.) *)
Fixpoint isInSection (document : TextDocument) (line : nat)
    (sectionName : str) : bool :=
  let lineText := nth line document [] in
  if startsWith lineText sectionName then true
  else if test re_root_prefix lineText
          && negb (startsWith lineText (js " "))
  then startsWith lineText sectionName
  else match line with
       | O => false
       | S i => isInSection document i sectionName
       end.

(** [getAnySuffixCompletions]: the keyword [any] after the last dot of an
    aura expression.  The three regexes end with a group of word
    characters, possibly empty: what was typed after the last dot. *)
Definition re_aura_any_suffix : regex :=
  seqs [Bol; Cap 1 (alts [Lit (js "buff"); Lit (js "debuff"); Lit (js "dot")]);
        Lit (js "."); Rep is_word 1; Lit (js "."); Rep is_word 1; Lit (js ".");
        Cap 2 (Rep is_word 0); Eol].
Definition re_active_dot_any_suffix : regex :=
  seqs [Bol; Lit (js "active_dot."); Rep is_word 1; Lit (js ".");
        Cap 1 (Rep is_word 0); Eol].
Definition re_nameplate_any_suffix : regex :=
  seqs [Bol; Lit (js "nameplates.");
        Cap 1 (Alt (Lit (js "buff")) (Lit (js "debuff"))); Lit (js ".");
        Rep is_word 1; Lit (js ".");
        Cap 2 (alts [Lit (js "count"); Lit (js "lowest"); Lit (js "highest")]);
        Lit (js "."); Cap 3 (Rep is_word 0); Eol].

Definition groupN (n : nat) (mt : Match) : str :=
  match group n mt with Some v => v | None => [] end.

Definition getAnySuffixCompletions (exprWithoutNegation : str)
    : list CompletionItem :=
  match re_match re_aura_any_suffix exprWithoutNegation with
  | Some buffDebuffAnyMatch =>
      let partial := groupN 2 buffDebuffAnyMatch in
      if startsWith (js "any") partial
      then [mkItem (js "any") KindKeyword
              (groupN 1 buffDebuffAnyMatch ++ js ".SPELL.property.any")
              (js "Check auras from any source (not just player-applied)")
              None]
      else []
  | None => []
  end
  ++ match re_match re_active_dot_any_suffix exprWithoutNegation with
     | Some activeDotAnyMatch =>
         let partial := groupN 1 activeDotAnyMatch in
         if startsWith (js "any") partial
         then [mkItem (js "any") KindKeyword (js "active_dot.SPELL.any")
                 (js "Count DoTs from any source (not just player-applied)")
                 None]
         else []
     | None => []
     end
  ++ match re_match re_nameplate_any_suffix exprWithoutNegation with
     | Some nameplateAuraAnyMatch =>
         let partial := groupN 3 nameplateAuraAnyMatch in
         if startsWith (js "any") partial
         then [mkItem (js "any") KindKeyword
                 (js "nameplates." ++ groupN 1 nameplateAuraAnyMatch
                  ++ js ".SPELL." ++ groupN 2 nameplateAuraAnyMatch
                  ++ js ".any")
                 (js "Use auras from any source (not just player-applied)")
                 None]
         else []
     | None => []
     end.

(** The branch of [getStepOptionCompletions] that completes a list name: the
    value of [name=] on a line with [call_action_list] or
    [run_action_list], and the value of [call=].  [None] stands for the
    other branches, which offer the entries of the table [STEP_OPTIONS].
    The document is optional in the source.  (The completion has its own
    copy of [collectDefinedLists], the same scan.) *)
Definition re_option_value : regex :=
  seqs [Cap 1 (Rep is_word 1); Lit (js "="); Cap 2 (Rep is_word 0); Eol].

Definition sharedListItems : list (str * str) :=
  [ (js "spell_queue", js "Shared spell queue handling (_shared.yaml)");
    (js "sanity_checks", js "Shared sanity check conditions (_shared.yaml)");
    (js "auto_target", js "Shared auto-targeting logic (_shared.yaml)");
    (js "auto_heal", js "Shared auto-heal logic (_shared.yaml)");
    (js "variables", js "Common list for setting/updating variables") ].

Definition getStepOptionCompletions_lists (linePrefix : str)
    (document : option TextDocument) : option (list CompletionItem) :=
  match re_match re_option_value linePrefix with
  | Some valueMatch =>
      let optionName := groupN 1 valueMatch in
      let partial := groupN 2 valueMatch in
      if (str_eqb optionName (js "name")
          && (includes linePrefix (js "call_action_list")
              || includes linePrefix (js "run_action_list")))
         || str_eqb optionName (js "call")
      then
        match document with
        | None => Some []
        | Some document =>
            let definedLists := collectDefinedLists document in
            Some
              (flat_map
                 (fun shared =>
                    if startsWith (fst shared) partial || str_eqb partial []
                    then [mkItem (fst shared) KindModule
                            (js "Shared action list (_shared.yaml)")
                            (snd shared) None]
                    else [])
                 sharedListItems
               ++ flat_map
                    (fun listName =>
                       if startsWith listName partial || str_eqb partial []
                       then [mkItem listName KindModule
                               (js "Defined action list")
                               (js "Call the " ++ dq ++ listName ++ dq
                                ++ js " action list")
                               None]
                       else [])
                    definedLists)
        end
      else None
  | None => None
  end.

Section Completion.

Variable toLowerCase : str -> str.
Variable spellDatabase : SpellDatabase.

(** The rendering of a number inside a template literal. *)
Variable numberToString : Z -> str.

Definition getSpellNameCompletions (contextType partial : str)
    : list CompletionItem :=
  if negb (isLoaded spellDatabase) then []
  else
    map (fun spell =>
           mkItem (normalizedName spell) KindValue
             (name spell ++ js " (ID: " ++ numberToString (id spell)
              ++ js ")")
             (js "Use in " ++ contextType ++ js "." ++ normalizedName spell
              ++ js ".property")
             (Some (normalizedName spell)))
        (searchSpells toLowerCase spellDatabase partial 30).

End Completion.

(* ================================================================= *)
(** ** Vocabulary of the statements *)

(** The code unit before the cursor once [l] has been read. *)
Definition last_of (l : str) (prev : option char) : option char :=
  match rev l with
  | [] => prev
  | x :: _ => Some x
  end.

(** A continuation that fails whenever the next code unit is in the class:
    the repetition can then only stop at the end of the run. *)
Definition rejects (p : char -> bool) (k : pos -> caps -> option R) : Prop :=
  forall prev x s c, p x = true -> k (prev, x :: s) c = None.

Definition not_headed (p : char -> bool) (s : str) : Prop :=
  match s with
  | [] => True
  | x :: _ => p x = false
  end.

(** The three pairs (shape with [.any], base shape) of [matchTemplate]. *)
Definition aura_shapes : list ((str -> option Match) * (str -> option Match)) :=
  [ (buffAnyMatch, buffMatch);
    (debuffAnyMatch, debuffMatch);
    (dotAnyMatch, dotMatch) ].

(** The state of the scan of [collect_loop] after one more line: the flag
    [inSection] and the set found so far. *)
Definition scan_step (section entry : regex) (st : bool * list str)
    (text : str) : bool * list str :=
  let '(inSection, found) := st in
  if test section text then (true, found)
  else if inSection && test re_root_key text
                    && negb (startsWith text (js " "))
  then (false, found)
  else if inSection then
    match re_match entry text with
    | Some mt =>
        match group 1 mt with
        | Some n => (inSection, set_add n found)
        | None => (inSection, found)
        end
    | None => (inSection, found)
    end
  else (inSection, found).

Definition scan (section entry : regex) (lines : list str)
    (st : bool * list str) : bool * list str :=
  fold_left (scan_step section entry) lines st.

(** A root-level key line: a nonempty identifier of [a-z_], a colon, and
    possibly white space up to the end of the line. *)
Definition root_key_line (ident ws : str) : str := ident ++ js ":" ++ ws.

(** A finding lies on line [n]. *)
Definition on_line (n : nat) (d : Diagnostic) : Prop :=
  start_line (range d) = n /\ end_line (range d) = n.

(** The catalogue of the findings of the pass: each message the four checks
    can build, with the severity it is pushed with. *)
Inductive finding_kind : str -> DiagnosticSeverity -> Prop :=
| fk_parens (o c : nat) :
    finding_kind (js "Unbalanced parentheses: " ++ nat_to_str o
                  ++ js " opening, " ++ nat_to_str c ++ js " closing") Error
| fk_empty_if : finding_kind (js "Empty condition after if=") Error
| fk_op_run : finding_kind (js "Invalid operator sequence") Error
| fk_trailing_op : finding_kind (js "Condition ends with an operator") Warning
| fk_leading_op :
    finding_kind (js "Condition starts with an operator (use ! for negation)")
                 Warning
| fk_up_true :
    finding_kind
      (js ".up already returns boolean, no need for =true (use just .up)")
      Information
| fk_down_true :
    finding_kind
      (js ".down already returns boolean, no need for =true (use just .down)")
      Information
| fk_missing_spell : finding_kind (js "Missing spell name before comma") Error
| fk_missing_name :
    finding_kind
      (js "call_action_list/run_action_list requires name= parameter") Error
| fk_call_alias : finding_kind (js "call= requires a list name") Error
| fk_unknown_list (listName hint : str) :
    finding_kind (js "Action list " ++ dq ++ listName ++ dq
                  ++ js " is not defined" ++ hint) Error
| fk_unknown_action (spellName hint : str) :
    finding_kind (js "Unknown spell: " ++ dq ++ spellName ++ dq ++ hint) Warning
| fk_unknown_spell (type spellName hint : str) :
    finding_kind (js "Unknown spell in " ++ type ++ js ": " ++ dq ++ spellName
                  ++ dq ++ hint) Warning
| fk_unknown_config (varName hint : str) :
    finding_kind (js "Config variable " ++ dq ++ varName ++ dq
                  ++ js " is not defined" ++ hint) Warning
| fk_unknown_variable (varName hint : str) :
    finding_kind (js "Variable " ++ dq ++ varName ++ dq
                  ++ js " is not defined" ++ hint) Warning
| fk_typo (r : regex) (msg : str) (sev : DiagnosticSeverity) :
    In (r, msg, sev) typos -> finding_kind msg sev.

Definition catalogued (n : nat) (d : Diagnostic) : Prop :=
  on_line n d /\ finding_kind (message d) (severity d).

(** The messages of the unresolved-reference findings, by their openings. *)
Definition about_unknown_spell (d : Diagnostic) : bool :=
  startsWith (message d) (js "Unknown spell").
Definition about_unknown_list (d : Diagnostic) : bool :=
  startsWith (message d) (js "Action list ").
Definition about_unknown_variable (d : Diagnostic) : bool :=
  startsWith (message d) (js "Variable ").
Definition about_unknown_config (d : Diagnostic) : bool :=
  startsWith (message d) (js "Config variable ").

(** A name exempt from validation: a template placeholder, or a nonempty
    run of digits (a raw spell id). *)
Definition exempt_name (spellName : str) : Prop :=
  spellName = js "SPELL" \/ spellName = js "TALENT"
  \/ spellName = js "VARNAME"
  \/ (spellName <> [] /\ forallb is_digit spellName = true).

(** The shape of a normalized name: code units of [a-z0-9_] only, no
    underscore at either end and no two underscores in a row.  [can_us]
    tells whether an underscore may come next, [last_us] whether the last
    code unit read was one. *)
Fixpoint nf (can_us last_us : bool) (s : str) : bool :=
  match s with
  | [] => negb last_us
  | x :: s' =>
      if is_underscore x then can_us && nf false true s'
      else is_lower_alnum x && nf true false s'
  end.

Definition normalized (s : str) : bool := nf false false s.

(** Code units of [a-z0-9_] only and no two underscores in a row;
    [after_us] tells whether the code unit before was an underscore. *)
Fixpoint good (after_us : bool) (s : str) : bool :=
  match s with
  | [] => true
  | x :: s' =>
      if is_underscore x then negb after_us && good true s'
      else is_lower_alnum x && good false s'
  end.

(** [s] without one underscore at its end. *)
Fixpoint strip_trailing_us (s : str) : str :=
  match s with
  | [] => []
  | x :: s' =>
      match s' with
      | [] => if is_underscore x then [] else [x]
      | _ :: _ => x :: strip_trailing_us s'
      end
  end.

(** [s] without one underscore at its start and one at its end. *)
Definition strip_edge_us (s : str) : str :=
  match s with
  | [] => []
  | x :: s' =>
      if is_underscore x then strip_trailing_us s' else strip_trailing_us s
  end.

(** A code unit of [a-z0-9_]. *)
Definition is_key_char (c : char) : bool := is_lower_alnum c || is_underscore c.

(** *** Edit distance

    An edit script from [s] to [t] and its cost: keeping a code unit is
    free; a substitution, a deletion and an insertion cost 1 each. *)
Inductive edits : str -> str -> nat -> Prop :=
| ed_nil : edits [] [] 0
| ed_keep (x : char) (s t : str) (n : nat) :
    edits s t n -> edits (x :: s) (x :: t) n
| ed_subst (x y : char) (s t : str) (n : nat) :
    edits s t n -> edits (x :: s) (y :: t) (S n)
| ed_del (x : char) (s t : str) (n : nat) :
    edits s t n -> edits (x :: s) t (S n)
| ed_ins (y : char) (s t : str) (n : nat) :
    edits s t n -> edits s (y :: t) (S n).

(** [d] is the Levenshtein distance from [s] to [t]: the least cost of an
    edit script. *)
Definition is_levenshtein (s t : str) (d : nat) : Prop :=
  edits s t d /\ forall n, edits s t n -> d <= n.

(** The textbook recurrence of the dynamic programme, on whole strings. *)
Fixpoint lev (s : str) : str -> nat :=
  match s with
  | [] => fun t => length t
  | x :: s' =>
      fix lev_s (t : str) : nat :=
        match t with
        | [] => length s
        | y :: t' =>
            if char_eqb x y then lev s' t'
            else Nat.min (Nat.min (lev s' t' + 1) (lev_s t' + 1))
                         (lev s' t + 1)
        end
  end.

(** The test of [findSimilar] on one entry of the table. *)
Definition similar_to (normalized : str) (maxDistance : nat)
    (e : str * SpellInfo) : bool :=
  (levenshteinDistance normalized (fst e) <=? maxDistance)
  && (0 <? levenshteinDistance normalized (fst e)).

(** The distance between the first [i] code units of [b] and the first [j]
    of [a]: what the cell [(i, j)] of the matrix must hold. *)
Definition prefix_distance (a b : str) (i j : nat) : nat :=
  lev (rev (firstn i b)) (rev (firstn j a)).

(** The matrix has its [length b + 1] rows, row [i] is filled on [w i]
    cells, and each filled cell holds the distance of the two prefixes. *)
Definition matrix_filled (a b : str) (mx : list (list nat))
    (w : nat -> nat) : Prop :=
  length mx = S (length b) /\
  forall i, i <= length b ->
    length (nth i mx []) = w i /\
    forall j, j < w i -> cell mx i j = prefix_distance a b i j.

(** Rows before [i] are complete, row [i] is filled on [j] cells, the rows
    after it hold their first cell only. *)
Definition widths (a : str) (i j : nat) : nat -> nat :=
  fun i' => if i' <? i then S (length a) else if i' =? i then j else 1.

(** A name source for the examples: the header row and one row per name. *)
Definition csv_of (rows : list string) : str :=
  join [10%N] (map js ("id,name" :: rows)%string).

Definition frost_table : SpellDatabase :=
  fst (loadFromCsv toLowerCaseAscii
         (Some (csv_of ["1,Frost N"; "2,Frost No"; "3,Frost Nob";
                        "4,Frost Noc"; "5,Frost Nod"; "6,Frost Nova"]%string))
         newDb).

(** A finding of severity error. *)
Definition is_error (d : Diagnostic) : bool :=
  match severity d with Error => true | _ => false end.

(** The least number of code units a match of the regex holds. *)
Fixpoint min_len (r : regex) : nat :=
  match r with
  | Lit l | LitI l => length l
  | Cls _ => 1
  | Rep _ min => min
  | Seq r1 r2 => min_len r1 + min_len r2
  | Alt r1 r2 => Nat.min (min_len r1) (min_len r2)
  | Cap _ r' => min_len r'
  | Bol | Eol | Wb => 0
  end.

(** The regexes the source runs with the [g] flag (in [exec] loops, in
    [replace], in the counting of parentheses) or splits on. *)
Definition global_regexes : list regex :=
  [re_apostrophe; re_non_alnum; re_edge_us; re_us_run; re_newline;
   Lit (js ","); re_config_ref; re_var_ref; re_open_paren; re_close_paren]
  ++ map fst patterns ++ map (fun t => fst (fst t)) typos.

(** *** The tables of the database *)

(** The test of [searchSpells] on one entry of the table. *)
Definition search_hit (toLowerCase : str -> str) (prefix : str)
    (e : str * SpellInfo) : bool :=
  startsWith (fst e) (normalizeName toLowerCase prefix)
  || includes (toLowerCase (name (snd e))) (toLowerCase prefix).

(** A record as [loadFromCsv] builds it. *)
Definition record_ok (toLowerCase : str -> str) (r : SpellInfo) : Prop :=
  normalizedName r = normalizeName toLowerCase (name r).

(** The two tables agree with their records and with each other: a record
    is stored under its own normalized name or id, no key occurs twice, and
    what one table holds is known to the other. *)
Definition consistent (toLowerCase : str -> str) (db : SpellDatabase)
    : Prop :=
  Forall (fun e => fst e = normalizedName (snd e)
                   /\ record_ok toLowerCase (snd e)
                   /\ map_has Z.eqb (id (snd e)) (spellsById db) = true)
         (spells db)
  /\ NoDup (map fst (spells db))
  /\ Forall (fun e => fst e = id (snd e)
                      /\ record_ok toLowerCase (snd e)
                      /\ map_has str_eqb (normalizedName (snd e)) (spells db)
                         = true)
            (spellsById db)
  /\ NoDup (map fst (spellsById db)).

(** The databases the extension can hold: a new one, after any number of
    loads and reloads. *)
Inductive reachable (toLowerCase : str -> str) : SpellDatabase -> Prop :=
| reach_new : reachable toLowerCase newDb
| reach_loadFromCsv (file : option str) (db : SpellDatabase) :
    reachable toLowerCase db ->
    reachable toLowerCase (fst (loadFromCsv toLowerCase file db))
| reach_autoLoad (workspace : option (list (option str)))
    (bundled : list (option str)) (db : SpellDatabase) :
    reachable toLowerCase db ->
    reachable toLowerCase (fst (autoLoad toLowerCase workspace bundled db))
| reach_reload (workspace : option (list (option str)))
    (bundled : list (option str)) (db : SpellDatabase) :
    reachable toLowerCase db ->
    reachable toLowerCase (fst (reload toLowerCase workspace bundled db)).

(** What a data row contributes: the id and the name of an accepted row,
    nothing for a row that [loadFromCsv] skips. *)
Definition row_entry (idIndex nameIndex : nat) (row : str)
    : option (Z * str) :=
  match trim row with
  | [] => None
  | _ :: _ =>
      let columns := parseCsvLine (trim row) in
      if length columns <=? Nat.max idIndex nameIndex then None
      else
        match nth idIndex columns [], nth nameIndex columns [] with
        | [], _ => None
        | _, [] => None
        | idStr, name =>
            match parseInt idStr with
            | None => None
            | Some id => Some (id, name)
            end
        end
  end.

(** The record of an accepted row. *)
Definition spell_of (toLowerCase : str -> str) (e : Z * str) : SpellInfo :=
  mkSpell (fst e) (snd e) (normalizeName toLowerCase (snd e)).

(** The two [set] calls of an accepted row. *)
Definition add_spell (toLowerCase : str -> str) (db : SpellDatabase)
    (e : Z * str) : SpellDatabase :=
  mkDb (map_set str_eqb (normalizeName toLowerCase (snd e))
          (spell_of toLowerCase e) (spells db))
       (map_set Z.eqb (fst e) (spell_of toLowerCase e) (spellsById db))
       (loaded db).

(** The value a key ends with after a run of [set] calls. *)
Definition last_set (K V : Type) (eqb : K -> K -> bool) (k : K)
    (ops : list (K * V)) (before : option V) : option V :=
  fold_left (fun acc o => if eqb (fst o) k then Some (snd o) else acc)
            ops before.

(** The accepted rows of a file, in order. *)
Definition entries (idIndex nameIndex : nat) (rows : list str)
    : list (Z * str) :=
  flat_map (fun row => match row_entry idIndex nameIndex row with
                       | Some e => [e]
                       | None => []
                       end) rows.

(** *** Writing a CSV row

    A field is written as it is when it holds neither a comma nor a double
    quote, or between double quotes with every double quote doubled. *)
Definition plain_field (f : str) : bool :=
  forallb (fun c => negb (c =? 34)%N && negb (c =? 44)%N) f.

Definition csv_escape (f : str) : str :=
  flat_map (fun c => if (c =? 34)%N then [34%N; 34%N] else [c]) f.

Definition csv_quote (f : str) : str := dq ++ csv_escape f ++ dq.

Inductive written_as : str -> str -> Prop :=
| written_plain (f : str) : plain_field f = true -> written_as f f
| written_quoted (f : str) : written_as (csv_quote f) f.

(** *** Positions in a line *)

(** [v] occurs in [t]. *)
Definition occurs_in (v t : str) : Prop := exists a b, t = a ++ v ++ b.

(** [String.prototype.substring] between two indices in order. *)
Definition slice (s : str) (from to : Z) : str :=
  firstn (Z.to_nat (to - from)) (skipn (Z.to_nat from) s).

(** The text under the range of a finding, in its line. *)
Definition range_text (text : str) (d : Diagnostic) : str :=
  slice text (start_character (range d)) (end_character (range d)).

(** The range of a finding lies in the line: its columns are in order and
    within the text. *)
Definition in_text (text : str) (d : Diagnostic) : Prop :=
  (0 <= start_character (range d) <= end_character (range d))%Z
  /\ (end_character (range d) <= len text)%Z.

(** A match of a search: its index is where its text lies in the subject,
    and its groups are parts of its text. *)
Definition lies_at (s : str) (idx : nat) (mt : Match) : Prop :=
  (exists pre post,
     s = pre ++ m_text mt ++ post /\ m_index mt = idx + length pre)
  /\ forall n v, In (n, v) (m_groups mt) -> occurs_in v (m_text mt).

(** The messages of [validateActionLine] that do not depend on the line. *)
Definition fixed_action_messages : list str :=
  map js ["Empty condition after if=";
          "Invalid operator sequence";
          "Condition ends with an operator";
          "Condition starts with an operator (use ! for negation)";
          ".up already returns boolean, no need for =true (use just .up)";
          ".down already returns boolean, no need for =true (use just .down)";
          "Missing spell name before comma";
          "call_action_list/run_action_list requires name= parameter";
          "call= requires a list name"]%string.

(** The number of code units [c] in [s]. *)
Definition count_char (c : char) (s : str) : nat :=
  length (filter (char_eqb c) s).

(** *** Declarations *)

(** A name of one or more word characters. *)
Definition word_name (name : str) : Prop :=
  name <> [] /\ forallb is_word name = true.

(** A line that declares [name]: two white-space characters, the name and
    a colon; for a list or a config variable ([strict]) only white space
    may follow. *)
Definition entry_line (strict : bool) (name line : str) : Prop :=
  exists c1 c2 rest,
    line = c1 :: c2 :: name ++ js ":" ++ rest /\
    is_space c1 = true /\ is_space c2 = true /\
    (strict = true -> forallb is_space rest = true).

(** What a symbol table holds: no name twice, and only names that some
    line of the document declares. *)
Definition declared_names (strict : bool) (document : TextDocument)
    (names : list str) : Prop :=
  NoDup names /\
  forall name, In name names ->
    word_name name /\ exists line, In line document /\ entry_line strict name line.

(** The regex cannot match without reading the code unit [ch]. *)
Fixpoint requires (ch : char) (r : regex) : bool :=
  match r with
  | Lit l => existsb (char_eqb ch) l
  | Seq r1 r2 => requires ch r1 || requires ch r2
  | Alt r1 r2 => requires ch r1 && requires ch r2
  | Cap _ r' => requires ch r'
  | _ => false
  end.

(** The six operator characters. *)
Definition is_operator_char (c : char) : bool :=
  (c =? 38)%N || (c =? 124)%N || (c =? 33)%N || (c =? 60)%N || (c =? 62)%N
  || (c =? 61)%N.

(** Decimal rendering of an integer; it agrees with the rendering of a
    number on the integers that a spell id can be. *)
Definition decimal (z : Z) : str :=
  if (z <? 0)%Z then js "-" ++ nat_to_str (Z.abs_nat z)
  else nat_to_str (Z.abs_nat z).

(* ================================================================= *)
(** * Properties *)

Unset Implicit Arguments.

(** ** The matcher *)

Lemma char_eqb_eq (a b : char) : char_eqb a b = true <-> a = b.
Proof. apply N.eqb_eq. Qed.

Lemma char_eqb_refl (a : char) : char_eqb a a = true.
Proof. apply N.eqb_refl. Qed.

Lemma str_eqb_eq (a b : str) : str_eqb a b = true <-> a = b.
Proof.
  revert b; induction a as [|x a IH]; intros [|y b]; simpl; split;
    try congruence; try reflexivity.
  - intros H. apply andb_true_iff in H as [H1 H2].
    apply char_eqb_eq in H1. apply IH in H2. congruence.
  - intros H. inversion H; subst. rewrite char_eqb_refl. simpl.
    now apply IH.
Qed.

Lemma str_eqb_refl (a : str) : str_eqb a a = true.
Proof. now apply str_eqb_eq. Qed.

Lemma str_mem_In (x : str) (l : list str) : str_mem x l = true <-> In x l.
Proof.
  unfold str_mem. rewrite existsb_exists. split.
  - intros (y & Hy & E). apply str_eqb_eq in E. now subst.
  - intros H. exists x. split; [assumption | apply str_eqb_refl].
Qed.

Lemma last_of_cons (x : char) (l : str) (prev : option char) :
  last_of (x :: l) prev = last_of l (Some x).
Proof.
  unfold last_of. simpl. destruct (rev l) as [|y r] eqn:E; reflexivity.
Qed.

Lemma lit_match_app (l t : str) (prev : option char) :
  lit_match char_eqb l prev (l ++ t) = Some (last_of l prev, t).
Proof.
  revert prev; induction l as [|a l IH]; intros prev; simpl.
  - reflexivity.
  - rewrite char_eqb_refl, IH, last_of_cons. reflexivity.
Qed.

Lemma lit_match_inv (l s : str) (prev : option char) (q : pos) :
  lit_match char_eqb l prev s = Some q ->
  s = l ++ snd q /\ fst q = last_of l prev.
Proof.
  revert prev s; induction l as [|a l IH]; intros prev s H; simpl in H.
  - inversion H; subst. split; reflexivity.
  - destruct s as [|x s]; [discriminate|].
    destruct (char_eqb a x) eqn:E; [|discriminate].
    apply char_eqb_eq in E; subst x.
    apply IH in H as [H1 H2]. rewrite last_of_cons. split; [|assumption].
    simpl. now f_equal.
Qed.

(** A repetition that succeeds has read a run of the class, at least [min]
    long, and then the continuation has succeeded. *)
Lemma rep_inv (p : char -> bool) (k : pos -> caps -> option R) (s : str) :
  forall (min : nat) (prev : option char) (c : caps) (r : R),
    rep p min k prev s c = Some r ->
    exists s1 s2, s = s1 ++ s2 /\ forallb p s1 = true /\ min <= length s1 /\
                  k (last_of s1 prev, s2) c = Some r.
Proof.
  induction s as [|x s IH]; intros min prev c r H; simpl in H.
  - destruct min; simpl in H; [|discriminate].
    exists [], []. repeat split; auto.
  - assert (Hstop: (if Nat.eqb min 0 then k (prev, x :: s) c else None) = Some r ->
              exists s1 s2, x :: s = s1 ++ s2 /\ forallb p s1 = true /\
                            min <= length s1 /\ k (last_of s1 prev, s2) c = Some r).
    { destruct min; simpl; [|discriminate]. intros Hk.
      exists [], (x :: s). repeat split; auto. }
    destruct (p x) eqn:Px; [|auto].
    destruct (rep p (pred min) k (Some x) s c) as [r'|] eqn:Hr; [|auto].
    inversion H; subst r'. apply IH in Hr as (s1 & s2 & E & F & L & K).
    exists (x :: s1), s2. simpl. rewrite Px, F, last_of_cons.
    repeat split; auto; [now rewrite E | lia].
Qed.

(** When the continuation fails wherever the next code unit is in the
    class, the repetition can only stop at the end of the run. *)

Lemma rep_run (p : char -> bool) (k : pos -> caps -> option R) (s1 s2 : str) :
  rejects p k -> not_headed p s2 -> forallb p s1 = true ->
  forall (min : nat) (prev : option char) (c : caps),
    rep p min k prev (s1 ++ s2) c =
    if min <=? length s1 then k (last_of s1 prev, s2) c else None.
Proof.
  intros Hrej Hs2. induction s1 as [|x s1 IH]; intros Hall min prev c.
  - simpl app. destruct s2 as [|y s2]; simpl.
    + destruct min; reflexivity.
    + simpl in Hs2. rewrite Hs2. destruct min; reflexivity.
  - simpl in Hall. apply andb_true_iff in Hall as [Px Hall].
    simpl. rewrite Px, IH by assumption. rewrite last_of_cons.
    destruct min as [|min]; simpl.
    + destruct (k (last_of s1 (Some x), s2) c); [reflexivity|].
      now apply Hrej.
    + destruct (min <=? length s1); [|reflexivity].
      destruct (k (last_of s1 (Some x), s2) c); reflexivity.
Qed.

(** A regex that starts with [^] only matches at index 0. *)
Lemma search_bol (r : regex) (s : str) :
  search (Seq Bol r) None s 0 = match_at (Seq Bol r) None s 0.
Proof.
  assert (H: forall s x idx, search (Seq Bol r) (Some x) s idx = None).
  { clear s. induction s as [|y s IH]; intros x idx; simpl; auto. }
  destruct s as [|x s]; simpl.
  - destruct (match_at (Seq Bol r) None [] 0); reflexivity.
  - destruct (match_at (Seq Bol r) None (x :: s) 0); [reflexivity|apply H].
Qed.

Lemma consumed_app (prev q : option char) (s1 s2 : str) :
  consumed (prev, s1 ++ s2) (q, s2) = s1.
Proof.
  unfold consumed. simpl. rewrite length_app.
  replace (length s1 + length s2 - length s2) with (length s1) by lia.
  rewrite firstn_app, firstn_all, Nat.sub_diag. simpl. apply app_nil_r.
Qed.

Lemma m_lit_inv (l : str) (k : pos -> caps -> option R) (p : pos) (c : caps)
    (r : R) :
  m (Lit l) k p c = Some r ->
  exists t, snd p = l ++ t /\ k (last_of l (fst p), t) c = Some r.
Proof.
  cbn [m]. destruct (lit_match char_eqb l (fst p) (snd p)) as [q|] eqn:L;
    [|discriminate].
  apply lit_match_inv in L as [E1 E2]. intros H. exists (snd q).
  split; [assumption|]. rewrite <- E2. now destruct q.
Qed.

Lemma m_lit_app (l t : str) (k : pos -> caps -> option R) (prev : option char)
    (c : caps) :
  m (Lit l) k (prev, l ++ t) c = k (last_of l prev, t) c.
Proof. cbn [m fst snd]. now rewrite lit_match_app. Qed.

Lemma m_rep_inv (q : char -> bool) (min : nat) (k : pos -> caps -> option R)
    (p : pos) (c : caps) (r : R) :
  m (Rep q min) k p c = Some r ->
  exists s1 s2, snd p = s1 ++ s2 /\ forallb q s1 = true /\ min <= length s1 /\
                k (last_of s1 (fst p), s2) c = Some r.
Proof. cbn [m]. apply rep_inv. Qed.

Lemma m_rep_run (q : char -> bool) (min : nat) (k : pos -> caps -> option R)
    (prev : option char) (s1 s2 : str) (c : caps) :
  rejects q k -> not_headed q s2 -> forallb q s1 = true ->
  m (Rep q min) k (prev, s1 ++ s2) c =
  if min <=? length s1 then k (last_of s1 prev, s2) c else None.
Proof. intros. cbn [m fst snd]. now apply rep_run. Qed.

Lemma m_eol_inv (k : pos -> caps -> option R) (p : pos) (c : caps) (r : R) :
  m Eol k p c = Some r -> snd p = [] /\ k p c = Some r.
Proof. cbn [m]. destruct (snd p); [auto|discriminate]. Qed.

Lemma forallb_length_pos (q : char -> bool) (s : str) :
  1 <= length s -> (1 <=? length s) = true.
Proof. intros. now apply Nat.leb_le. Qed.

Lemma rejects_lit (q : char -> bool) (a : char) (l : str)
    (K : pos -> caps -> option R) (G : pos -> caps -> caps) :
  q a = false -> rejects q (fun p c => m (Lit (a :: l)) K p (G p c)).
Proof.
  intros Qa prev x s c Px. cbn [m fst snd lit_match].
  destruct (char_eqb a x) eqn:E; [|reflexivity].
  apply char_eqb_eq in E; subst x. congruence.
Qed.

Lemma rejects_eol (q : char -> bool) (K : pos -> caps -> option R)
    (G : pos -> caps -> caps) :
  rejects q (fun p c => m Eol K p (G p c)).
Proof. intros prev x s c Px. reflexivity. Qed.

(** ** The aura shapes of [matchTemplate] *)

Lemma dot_not_word : is_word 46%N = false.
Proof. reflexivity. Qed.

Lemma aura_any_inv (prefix word : str) (mt : Match) :
  re_match (re_aura_any prefix) word = Some mt ->
  exists spell prop,
    word = prefix ++ spell ++ js "." ++ prop ++ js ".any" /\
    forallb is_word spell = true /\ 1 <= length spell /\
    forallb is_word prop = true /\ 1 <= length prop /\
    m_groups mt = [(2, prop); (1, spell)].
Proof.
  unfold re_match, re_aura_any. cbn [seqs]. rewrite search_bol.
  unfold match_at.
  destruct (m _ accept (None, word) []) as [[p' c]|] eqn:H; [|discriminate].
  intros E; inversion E; subst mt; clear E. cbn [m_groups].
  cbn [m fst snd] in H. fold (m (Lit prefix)) in H.
  change (m (Lit prefix)
            (fun p1 c1 =>
               m (Rep is_word 1)
                 (fun p2 c2 =>
                    m (Lit (js "."))
                      (fun p3 c3 =>
                         m (Rep is_word 1)
                           (fun p4 c4 =>
                              m (Lit (js ".any")) (m Eol accept) p4
                                (setcap 2 (consumed p3 p4) c4)) p3 c3)
                      p2 (setcap 1 (consumed p1 p2) c2)) p1 c1)
            (None, word) [] = Some (p', c)) in H.
  apply m_lit_inv in H as (w1 & W1 & H). cbn [fst snd] in W1.
  apply m_rep_inv in H as (spell & t1 & E1 & F1 & N1 & H). cbn [fst snd] in E1, H.
  apply m_lit_inv in H as (w2 & W2 & H). cbn [fst snd] in W2, H.
  apply m_rep_inv in H as (prop & t2 & E2 & F2 & N2 & H). cbn [fst snd] in E2, H.
  apply m_lit_inv in H as (w3 & W3 & H). cbn [fst snd] in W3, H.
  apply m_eol_inv in H as (E3 & H). cbn [fst snd] in E3.
  unfold accept in H. inversion H; subst p' c; clear H.
  subst w3 t2 w2 t1 w1 word.
  exists spell, prop. rewrite app_nil_r. repeat split; auto.
  unfold setcap. f_equal; [|f_equal]; f_equal.
  - now rewrite consumed_app.
  - now rewrite consumed_app.
Qed.

Lemma aura_base_match (prefix spell prop : str) :
  forallb is_word spell = true -> 1 <= length spell ->
  forallb is_word prop = true -> 1 <= length prop ->
  re_match (re_aura prefix) (prefix ++ spell ++ js "." ++ prop) =
  Some (mkMatch 0 (prefix ++ spell ++ js "." ++ prop) [(2, prop); (1, spell)]).
Proof.
  intros F1 N1 F2 N2.
  unfold re_match, re_aura. cbn [seqs]. rewrite search_bol.
  unfold match_at. cbn [m fst snd].
  change (match
            m (Lit prefix)
              (fun p1 c1 =>
                 m (Rep is_word 1)
                   (fun p2 c2 =>
                      m (Lit (js "."))
                        (fun p3 c3 =>
                           m (Rep is_word 1)
                             (fun p4 c4 =>
                                m Eol accept p4 (setcap 2 (consumed p3 p4) c4))
                             p3 c3)
                        p2 (setcap 1 (consumed p1 p2) c2)) p1 c1)
              (None, prefix ++ spell ++ js "." ++ prop) []
          with
          | Some (p', c) =>
              Some (mkMatch 0 (consumed (None, prefix ++ spell ++ js "." ++ prop) p') c)
          | None => None
          end = Some (mkMatch 0 (prefix ++ spell ++ js "." ++ prop)
                        [(2, prop); (1, spell)])).
  rewrite m_lit_app.
  rewrite m_rep_run; auto.
  2:{ apply (rejects_lit is_word 46%N []). reflexivity. }
  2:{ reflexivity. }
  rewrite (forallb_length_pos is_word) by assumption.
  rewrite m_lit_app.
  replace prop with (prop ++ []) at 1 by apply app_nil_r.
  rewrite m_rep_run; auto.
  2:{ apply rejects_eol. }
  2:{ exact I. }
  rewrite (forallb_length_pos is_word) by assumption.
  cbn [m fst snd accept]. unfold setcap.
  f_equal. f_equal.
  - unfold consumed. cbn [fst snd length]. rewrite Nat.sub_0_r. apply firstn_all.
  - f_equal; [|f_equal]; f_equal.
    + replace prop with (prop ++ []) at 1 by apply app_nil_r.
      now rewrite consumed_app.
    + now rewrite consumed_app.
Qed.

Lemma strip_any_app (s : str) : strip_any (s ++ js ".any") = s.
Proof.
  unfold strip_any. rewrite length_app. simpl length.
  replace (length s + 4 - 4) with (length s) by lia.
  rewrite firstn_app, firstn_all, Nat.sub_diag. simpl. apply app_nil_r.
Qed.

Lemma aura_any_strips (prefix word : str) (mt : Match) :
  re_match (re_aura_any prefix) word = Some mt ->
  exists mt',
    re_match (re_aura prefix) (strip_any word) = Some mt' /\
    group 1 mt' = group 1 mt /\ group 2 mt' = group 2 mt /\
    (exists spell, group 1 mt = Some spell) /\
    (exists prop, group 2 mt = Some prop) /\
    word = strip_any word ++ js ".any".
Proof.
  intros H. apply aura_any_inv in H as (spell & prop & W & F1 & N1 & F2 & N2 & G).
  assert (E: word = (prefix ++ spell ++ js "." ++ prop) ++ js ".any").
  { rewrite W. now rewrite <- !app_assoc. }
  rewrite E, strip_any_app.
  eexists. split; [now apply aura_base_match|].
  unfold group. rewrite G. cbn. repeat split; eauto.
Qed.

(** C7.  A token that matches one of the [.any] shapes ([buff.X.prop.any],
    [debuff.X.prop.any], [dot.X.prop.any]) matches, once its [.any] suffix
    is removed, the base shape of the same family, with the same captured
    spell name (group 1) and property (group 2). *)
Theorem any_suffix_strips_to_base_shape :
  forall anyShape baseShape word mt,
    In (anyShape, baseShape) aura_shapes ->
    anyShape word = Some mt ->
    exists mt',
      baseShape (strip_any word) = Some mt' /\
      group 1 mt' = group 1 mt /\ group 2 mt' = group 2 mt /\
      (exists spell, group 1 mt = Some spell) /\
      (exists prop, group 2 mt = Some prop) /\
      word = strip_any word ++ js ".any".
Proof.
  intros anyShape baseShape word mt Hin H.
  unfold aura_shapes in Hin. simpl in Hin.
  destruct Hin as [E|[E|[E|[]]]]; inversion E; subst anyShape baseShape;
    eapply aura_any_strips; exact H.
Qed.

Lemma any_suffix_strips_to_base_shape_witness :
  exists mt',
    debuffMatch (strip_any (js "debuff.rake.remains.any")) = Some mt' /\
    group 1 mt' = Some (js "rake") /\ group 2 mt' = Some (js "remains").
Proof.
  destruct (@any_suffix_strips_to_base_shape
              debuffAnyMatch debuffMatch (js "debuff.rake.remains.any")
              (mkMatch 0 (js "debuff.rake.remains.any")
                 [(2, js "remains"); (1, js "rake")]))
    as (mt' & H1 & H2 & H3 & _).
  - simpl. right. left. reflexivity.
  - vm_compute. reflexivity.
  - exists mt'. split; [exact H1|]. split.
    + rewrite H2. reflexivity.
    + rewrite H3. reflexivity.
Defined.

(** ** The symbol-table scan *)

Lemma collect_loop_scan (section entry : regex) (lines : list str) :
  forall inSection found,
    collect_loop section entry lines inSection found =
    snd (scan section entry lines (inSection, found)).
Proof.
  unfold scan.
  induction lines as [|text rest IH]; intros inSection found; simpl.
  - reflexivity.
  - destruct (test section text); [apply IH|].
    destruct (inSection && test re_root_key text
              && negb (startsWith text (js " "))); [apply IH|].
    destruct inSection; [|apply IH].
    destruct (re_match entry text) as [mt|]; [|apply IH].
    destruct (group 1 mt); apply IH.
Qed.

Lemma scan_app (section entry : regex) (l1 l2 : list str)
    (st : bool * list str) :
  scan section entry (l1 ++ l2) st = scan section entry l2 (scan section entry l1 st).
Proof. unfold scan. apply fold_left_app. Qed.

(** Outside the section, lines that are not its header change nothing. *)
Lemma scan_outside (section entry : regex) (lines : list str)
    (found : list str) :
  forallb (fun l => negb (test section l)) lines = true ->
  scan section entry lines (false, found) = (false, found).
Proof.
  unfold scan. induction lines as [|text rest IH]; simpl; intros H.
  - reflexivity.
  - apply andb_true_iff in H as [H1 H2].
    destruct (test section text); [discriminate|]. simpl. now apply IH.
Qed.

Lemma colon_not_lower_us : is_lower_us 58%N = false.
Proof. reflexivity. Qed.

Lemma test_bol (r : regex) (s : str) :
  test (Seq Bol r) s =
  match m r accept (None, s) [] with Some _ => true | None => false end.
Proof.
  unfold test, re_match. rewrite search_bol. unfold match_at.
  cbn [m fst]. destruct (m r accept (None, s) []) as [[? ?]|]; reflexivity.
Qed.

Lemma rep_all (q : char -> bool) (k : pos -> caps -> option R) (s : str)
    (prev : option char) (c : caps) :
  forallb q s = true ->
  rep q 0 k prev s c =
  match k (last_of s prev, []) c with
  | Some r => Some r
  | None => rep q 0 k prev s c
  end.
Proof. destruct (k (last_of s prev, []) c) eqn:E; [|reflexivity].
  revert prev E; induction s as [|x s IH]; intros prev E H.
  - simpl. exact E.
  - simpl in H. apply andb_true_iff in H as [Px H].
    simpl. rewrite Px. rewrite last_of_cons in E. now rewrite (IH _ E H).
Qed.

(** A root-key line passes the test of [/^[a-z_]+:\s*$/]. *)
Lemma root_key_line_test (ident ws : str) :
  ident <> [] -> forallb is_lower_us ident = true ->
  forallb is_space ws = true ->
  test re_root_key (root_key_line ident ws) = true.
Proof.
  intros Hne Hid Hws. unfold re_root_key, root_key_line. cbn [seqs].
  rewrite test_bol.
  change (match
            m (Rep is_lower_us 1)
              (fun p1 c1 =>
                 m (Lit (58%N :: []))
                   (fun p2 c2 => m (Rep is_space 0) (m Eol accept) p2 c2)
                   p1 ((fun _ c => c) p1 c1))
              (None, ident ++ js ":" ++ ws) []
          with Some _ => true | None => false end = true).
  rewrite m_rep_run; auto.
  2:{ apply (rejects_lit is_lower_us 58%N [] _ (fun _ c => c)). reflexivity. }
  2:{ reflexivity. }
  assert (L: (1 <=? length ident) = true).
  { apply Nat.leb_le. destruct ident; [congruence|simpl; lia]. }
  rewrite L. rewrite m_lit_app. cbn [m fst snd].
  rewrite rep_all by assumption. cbn [m snd accept]. reflexivity.
Qed.

Lemma lower_us_not_space (c : char) : is_lower_us c = true -> is_space c = false.
Proof.
  unfold is_lower_us, is_lower, is_underscore, is_space, is_line_terminator,
    in_range. intros H.
  apply orb_true_iff in H as [H|H].
  - apply andb_true_iff in H as [H1 H2].
    apply N.leb_le in H1. apply N.leb_le in H2.
    repeat (apply orb_false_iff; split);
      try (apply N.eqb_neq; lia).
    apply andb_false_iff. left. apply N.leb_gt. lia.
  - apply N.eqb_eq in H. subst c. reflexivity.
Qed.

Lemma root_key_line_not_indented (ident ws : str) :
  ident <> [] -> forallb is_lower_us ident = true ->
  startsWith (root_key_line ident ws) (js " ") = false.
Proof.
  intros Hne Hid. destruct ident as [|x ident]; [congruence|].
  simpl in Hid. apply andb_true_iff in Hid as [Hx _].
  unfold root_key_line. change (js " ") with [32%N].
  cbn [app startsWith].
  destruct (char_eqb 32%N x) eqn:E; [|reflexivity].
  apply char_eqb_eq in E. subst x. discriminate.
Qed.

Lemma header_test_inv (hdr line : str) :
  test (seqs [Bol; Lit hdr; Rep is_space 0; Eol]) line = true ->
  exists t, line = hdr ++ t.
Proof.
  cbn [seqs]. rewrite test_bol.
  destruct (m _ accept (None, line) []) as [r|] eqn:H; [|discriminate].
  intros _. cbn [m] in H. fold (m (Lit hdr)) in H.
  change (m (Lit hdr) (fun p1 c1 => m (Rep is_space 0) (m Eol accept) p1 c1)
            (None, line) [] = Some r) in H.
  apply m_lit_inv in H as (t & E & _). now exists t.
Qed.

Lemma split_at_unique (q : char -> bool) (a : char) (s1 s2 r1 r2 : str) :
  q a = false -> forallb q s1 = true -> forallb q s2 = true ->
  s1 ++ a :: r1 = s2 ++ a :: r2 -> s1 = s2.
Proof.
  intros Qa. revert s2; induction s1 as [|x s1 IH]; intros [|y s2] H1 H2 E;
    simpl in *.
  - reflexivity.
  - inversion E; subst. apply andb_true_iff in H2 as [H2 _]. congruence.
  - inversion E; subst. apply andb_true_iff in H1 as [H1 _]. congruence.
  - inversion E; subst. apply andb_true_iff in H1 as [_ H1].
    apply andb_true_iff in H2 as [_ H2]. f_equal. eapply IH; eauto.
Qed.

(** A root-key line is the header of the section [name] only when its
    identifier is [name]. *)
Lemma root_key_line_not_header (name ident ws : str) :
  forallb is_lower_us name = true -> forallb is_lower_us ident = true ->
  ident <> name ->
  test (seqs [Bol; Lit (name ++ js ":"); Rep is_space 0; Eol])
       (root_key_line ident ws) = false.
Proof.
  intros Hn Hi Hne.
  destruct (test _ (root_key_line ident ws)) eqn:T; [|reflexivity].
  apply header_test_inv in T as (t & E). exfalso. apply Hne.
  unfold root_key_line in E. rewrite <- app_assoc in E.
  change (js ":" ++ ws) with (58%N :: ws) in E.
  change (js ":" ++ t) with (58%N :: t) in E.
  eapply split_at_unique; eauto. reflexivity.
Qed.

Lemma scan_step_root_key (section entry : regex) (ident ws : str)
    (st : bool * list str) :
  test section (root_key_line ident ws) = false ->
  ident <> [] -> forallb is_lower_us ident = true ->
  forallb is_space ws = true ->
  scan_step section entry st (root_key_line ident ws) = (false, snd st).
Proof.
  intros T Hne Hid Hws. destruct st as [b found]. unfold scan_step.
  rewrite T, root_key_line_test, root_key_line_not_indented by assumption.
  destruct b; reflexivity.
Qed.

(** After a root-key line that is not the header of the section, the lines
    up to the next header of the section contribute nothing. *)
Lemma collect_loop_root_key (section entry : regex) (ident ws : str)
    (pre mid post : list str) :
  test section (root_key_line ident ws) = false ->
  ident <> [] -> forallb is_lower_us ident = true ->
  forallb is_space ws = true ->
  forallb (fun l => negb (test section l)) mid = true ->
  collect_loop section entry (pre ++ root_key_line ident ws :: mid ++ post)
               false [] =
  collect_loop section entry (pre ++ root_key_line ident ws :: post) false []
  /\ collect_loop section entry (pre ++ root_key_line ident ws :: mid)
                  false [] =
     collect_loop section entry pre false [].
Proof.
  intros T Hne Hid Hws Hmid. rewrite !collect_loop_scan.
  rewrite !scan_app.
  change (root_key_line ident ws :: mid ++ post)
    with ([root_key_line ident ws] ++ mid ++ post).
  change (root_key_line ident ws :: post)
    with ([root_key_line ident ws] ++ post).
  change (root_key_line ident ws :: mid)
    with ([root_key_line ident ws] ++ mid).
  rewrite !scan_app.
  set (st := scan section entry pre (false, [])).
  assert (K: scan section entry [root_key_line ident ws] st = (false, snd st)).
  { unfold scan. simpl. now apply scan_step_root_key. }
  rewrite K, scan_outside by assumption. split; reflexivity.
Qed.

(** C8 (amended).  In each of the three scans (lists, config, variables;
    the completion provider's [collectVariables] is the variables scan), a
    line that consists of a lowercase-and-underscore identifier, a colon and
    nothing but white space up to its end, other than the header of the
    scanned section, ends the section: the lines that follow it, up to the
    next header of that section, add nothing to the symbol set.  A root
    key with a value after its colon does not match the regex of a root
    key, which is anchored at the end of the line, and is not such a
    line. *)
Theorem root_key_ends_section :
  forall ident ws pre mid post,
    ident <> [] -> forallb is_lower_us ident = true ->
    forallb is_space ws = true ->
    let key := root_key_line ident ws in
    (ident <> js "lists" ->
     forallb (fun l => negb (test re_lists_section l)) mid = true ->
     collectDefinedLists (pre ++ key :: mid ++ post) =
     collectDefinedLists (pre ++ key :: post) /\
     collectDefinedLists (pre ++ key :: mid) = collectDefinedLists pre) /\
    (ident <> js "config" ->
     forallb (fun l => negb (test re_config_section l)) mid = true ->
     collectDefinedConfigVars (pre ++ key :: mid ++ post) =
     collectDefinedConfigVars (pre ++ key :: post) /\
     collectDefinedConfigVars (pre ++ key :: mid) =
     collectDefinedConfigVars pre) /\
    (ident <> js "variables" ->
     forallb (fun l => negb (test re_variables_section l)) mid = true ->
     (collectDefinedVariables (pre ++ key :: mid ++ post) =
      collectDefinedVariables (pre ++ key :: post) /\
      collectDefinedVariables (pre ++ key :: mid) =
      collectDefinedVariables pre) /\
     (collectVariables (pre ++ key :: mid ++ post) =
      collectVariables (pre ++ key :: post) /\
      collectVariables (pre ++ key :: mid) = collectVariables pre)).
Proof.
  intros ident ws pre mid post Hne Hid Hws key. subst key.
  split; [|split].
  - intros Hn Hmid. apply collect_loop_root_key; auto.
    apply (root_key_line_not_header (js "lists")); auto.
  - intros Hn Hmid. apply collect_loop_root_key; auto.
    apply (root_key_line_not_header (js "config")); auto.
  - intros Hn Hmid.
    assert (T: test re_variables_section (root_key_line ident ws) = false)
      by (apply (root_key_line_not_header (js "variables")); auto).
    split; apply collect_loop_root_key; auto.
Qed.

Lemma root_key_ends_section_witness :
  collectDefinedLists
    (map js ["lists:"; "  a:"; "actions:"; "  b:"; "  c:"; "lists:"; "  d:"]%string) =
  collectDefinedLists (map js ["lists:"; "  a:"; "actions:"; "lists:"; "  d:"]%string)
  /\ collectDefinedLists (map js ["lists:"; "  a:"; "actions:"; "  b:"; "  c:"]%string) =
     collectDefinedLists (map js ["lists:"; "  a:"]%string)
  /\ collectDefinedLists (map js ["lists:"; "  a:"]%string) = [js "a"].
Proof.
  destruct (@root_key_ends_section (js "actions") []
              (map js ["lists:"; "  a:"]%string)
              (map js ["  b:"; "  c:"]%string)
              (map js ["lists:"; "  d:"]%string)) as (H & _).
  - discriminate.
  - reflexivity.
  - reflexivity.
  - destruct H as [H1 H2].
    + discriminate.
    + reflexivity.
    + split; [exact H1|]. split; [exact H2|]. vm_compute. reflexivity.
Defined.

(** C8 as stated fails: a root-level key with a value after its colon
    ([entry: main]) is an unindented lowercase-and-underscore identifier
    followed by a colon, yet it does not match the regex of a root key, the
    section stays open and the entry [b] that follows it is collected, in
    each of the scans. *)
Lemma root_key_with_value_keeps_section :
  test re_root_key (js "entry: main") = false /\
  collectDefinedLists
    (map js ["lists:"; "  a:"; "entry: main"; "  b:"]%string)
  = [js "a"; js "b"] /\
  collectDefinedConfigVars
    (map js ["config:"; "  a:"; "entry: main"; "  b:"]%string)
  = [js "a"; js "b"] /\
  collectDefinedVariables
    (map js ["variables:"; "  a: 1"; "entry: main"; "  b: 2"]%string)
  = [js "a"; js "b"] /\
  collectVariables
    (map js ["variables:"; "  a: 1"; "entry: main"; "  b: 2"]%string)
  = [js "a"; js "b"].
Proof. vm_compute. auto. Qed.

Lemma set_add_In (x y : str) (l : list str) :
  In y (set_add x l) <-> y = x \/ In y l.
Proof.
  unfold set_add. destruct (str_mem x l) eqn:E.
  - apply str_mem_In in E. split; [auto|]. intros [->|H]; auto.
  - rewrite in_app_iff. simpl. split; intros H; intuition (subst; auto).
Qed.





(** ** Action lines that call a list *)




(** ** The findings of one pass *)

Lemma catalogued_at (n : nat) (i w : Z) (msg : str) (sev : DiagnosticSeverity) :
  finding_kind msg sev -> catalogued n (diag_at n i w msg sev).
Proof. intros H. repeat split; assumption. Qed.

Lemma catalogued_line (n : nat) (text msg : str) (sev : DiagnosticSeverity) :
  finding_kind msg sev -> catalogued n (diag_line n text msg sev).
Proof. intros H. repeat split; assumption. Qed.

Lemma Forall_when (P : Diagnostic -> Prop) (b : bool) (d : Diagnostic) :
  P d -> Forall P (when b [d]).
Proof. intros H. destruct b; simpl; auto. Qed.

Create HintDb findings.
#[local] Hint Resolve catalogued_at catalogued_line Forall_when : findings.
#[local] Hint Constructors finding_kind Forall : findings.

Lemma list_ref_check_catalogued (text actionContent : str) (n : nat)
    (definedLists : list str) :
  Forall (catalogued n) (list_ref_check text actionContent n definedLists).
Proof.
  unfold list_ref_check.
  repeat match goal with
         | |- context [match ?x with _ => _ end] => destruct x
         end; auto with findings.
Qed.

Lemma validateActionLine_catalogued (text : str) (n : nat)
    (definedLists : list str) :
  Forall (catalogued n) (validateActionLine text n definedLists).
Proof.
  unfold validateActionLine.
  destruct (re_match re_action text) as [am|]; [|constructor].
  repeat (apply Forall_app; split); auto with findings.
  - destruct (re_match re_op_run (group1 am)); auto with findings.
  - destruct (re_match re_call_alias (group1 am)) as [ca|]; [|constructor].
    destruct (group1 ca); auto with findings.
  - apply list_ref_check_catalogued.
Qed.

Lemma validateSpellNames_catalogued (toLowerCase : str -> str)
    (db : SpellDatabase) (text : str) (n : nat) :
  Forall (catalogued n) (validateSpellNames toLowerCase db text n).
Proof.
  unfold validateSpellNames. destruct (negb (isLoaded db)); [constructor|].
  apply Forall_app; split.
  - unfold action_word_check.
    repeat match goal with
           | |- context [match ?x with _ => _ end] => destruct x
           end; auto with findings.
  - unfold expr_names_check. apply Forall_flat_map, Forall_forall.
    intros pattern _. apply Forall_flat_map, Forall_forall. intros mt _.
    unfold expr_name_check.
    repeat match goal with
           | |- context [match ?x with _ => _ end] => destruct x
           end; auto with findings.
Qed.

Lemma validateConfigAndVarReferences_catalogued (text : str) (n : nat)
    (definedConfigVars definedVariables : list str) :
  Forall (catalogued n)
    (validateConfigAndVarReferences text n definedConfigVars definedVariables).
Proof.
  unfold validateConfigAndVarReferences. apply Forall_app; split;
    apply Forall_flat_map, Forall_forall; intros mt _.
  - unfold config_ref_check.
    destruct (_ && _); auto with findings.
  - unfold var_ref_check.
    destruct (negb _); auto with findings.
Qed.

Lemma checkCommonTypos_catalogued (text : str) (n : nat) :
  Forall (catalogued n) (checkCommonTypos text n).
Proof.
  unfold checkCommonTypos. apply Forall_flat_map, Forall_forall.
  intros [[r msg] sev] Hin. apply Forall_map, Forall_forall. intros mt _.
  apply catalogued_at. eapply fk_typo. exact Hin.
Qed.

Lemma line_diagnostics_catalogued (toLowerCase : str -> str)
    (db : SpellDatabase) (L C V : list str) (text : str) (n : nat) :
  Forall (catalogued n) (line_diagnostics toLowerCase db L C V text n).
Proof.
  unfold line_diagnostics.
  destruct (_ || _); [constructor|].
  apply Forall_app; split; [|apply Forall_app; split;
                              [|apply Forall_app; split]].
  - destruct (startsWith (trimStart text) (js "-")); [|constructor].
    apply validateActionLine_catalogued.
  - apply validateSpellNames_catalogued.
  - apply validateConfigAndVarReferences_catalogued.
  - apply checkCommonTypos_catalogued.
Qed.

Lemma diagnostics_from_kinds (toLowerCase : str -> str) (db : SpellDatabase)
    (L C V : list str) (lines : list str) :
  forall n,
    Forall (fun d => finding_kind (message d) (severity d))
           (diagnostics_from toLowerCase db L C V lines n).
Proof.
  induction lines as [|text rest IH]; intros n; simpl.
  - constructor.
  - apply Forall_app; split; [|apply IH].
    eapply Forall_impl; [|apply line_diagnostics_catalogued].
    intros d [_ H]. exact H.
Qed.





Lemma finding_kind_graded (msg : str) (sev : DiagnosticSeverity) :
  finding_kind msg sev ->
  (startsWith msg (js "Unknown spell") || startsWith msg (js "Variable ")
   || startsWith msg (js "Config variable ") = true -> sev = Warning) /\
  (startsWith msg (js "Action list ") = true -> sev = Error).
Proof.
  intros H. destruct H; split; intros E; try reflexivity;
    try (exfalso; vm_compute in E; discriminate).
  - simpl in H.
    repeat (destruct H as [H|H];
            [inversion H; subst; clear H;
             first [reflexivity | exfalso; vm_compute in E; discriminate]|]).
    contradiction.
  - simpl in H.
    repeat (destruct H as [H|H];
            [inversion H; subst; clear H;
             first [reflexivity | exfalso; vm_compute in E; discriminate]|]).
    contradiction.
Qed.

(** C2 (amended).  In every pass, a finding for an unknown spell name, an
    unknown variable or an unknown config key has severity warning; a
    finding for an unknown action-list name has severity error. *)
Theorem unresolved_reference_severities :
  forall toLowerCase spellDatabase document,
    Forall
      (fun d =>
         (about_unknown_spell d || about_unknown_variable d
          || about_unknown_config d = true -> severity d = Warning) /\
         (about_unknown_list d = true -> severity d = Error))
      (updateDiagnostics toLowerCase spellDatabase document).
Proof.
  intros. unfold updateDiagnostics.
  eapply Forall_impl; [|apply diagnostics_from_kinds].
  intros d H. apply finding_kind_graded in H. exact H.
Qed.

(** C2 as stated fails: the finding for the unknown list [nope] is an
    error. *)
Lemma unknown_list_is_an_error :
  exists d,
    updateDiagnostics toLowerCaseAscii newDb
      [js "  - call_action_list,name=nope"] = [d]
    /\ message d = js "Action list " ++ dq ++ js "nope" ++ dq
                   ++ js " is not defined"
    /\ about_unknown_list d = true
    /\ severity d = Error /\ severity d <> Warning.
Proof.
  eexists. split; [vm_compute; reflexivity|].
  repeat split. discriminate.
Qed.

(** ** Exempt names *)

Lemma digits_test_number (s : str) :
  s <> [] -> forallb is_digit s = true -> test re_number s = true.
Proof.
  intros Hne Hd. unfold re_number. cbn [seqs]. rewrite test_bol.
  change (match
            m (Rep is_digit 1)
              (fun p c => m Eol accept p ((fun _ c' => c') p c))
              (None, s) []
          with Some _ => true | None => false end = true).
  replace s with (s ++ []) at 1 by apply app_nil_r.
  rewrite m_rep_run; auto.
  2:{ apply rejects_eol. }
  2:{ exact I. }
  assert (L: (1 <=? length s) = true).
  { apply Nat.leb_le. destruct s; [congruence|simpl; lia]. }
  rewrite L. reflexivity.
Qed.

Lemma exempt_name_skipped (toLowerCase : str -> str) (db : SpellDatabase)
    (lineNum : nat) (type : str) (mt : Match) :
  exempt_name (group1 mt) ->
  expr_name_check toLowerCase db lineNum type mt = [].
Proof.
  intros H. unfold expr_name_check.
  destruct H as [H|[H|[H|[H1 H2]]]].
  - rewrite H. reflexivity.
  - rewrite H. reflexivity.
  - rewrite H. reflexivity.
  - rewrite (digits_test_number _ H1 H2).
    destruct (is_placeholder (group1 mt)); reflexivity.
Qed.

Lemma is_placeholder_false (s : str) :
  is_placeholder s = false ->
  s <> js "SPELL" /\ s <> js "TALENT" /\ s <> js "VARNAME".
Proof.
  unfold is_placeholder. intros H.
  apply orb_false_iff in H as [H H3]. apply orb_false_iff in H as [H1 H2].
  repeat split; intros E; subst s; discriminate.
Qed.

Lemma expr_name_check_inv (toLowerCase : str -> str) (db : SpellDatabase)
    (lineNum : nat) (type : str) (mt : Match) (d : Diagnostic) :
  In d (expr_name_check toLowerCase db lineNum type mt) ->
  is_placeholder (group1 mt) = false /\
  test re_number (group1 mt) = false /\
  isValidSpell toLowerCase db (group1 mt) = false /\
  message d = js "Unknown spell in " ++ type ++ js ": " ++ dq ++ group1 mt
              ++ dq ++ did_you_mean toLowerCase db (group1 mt).
Proof.
  unfold expr_name_check.
  destruct (is_placeholder (group1 mt)); [intros []|].
  destruct (test re_number (group1 mt)); [intros []|].
  destruct (isValidSpell toLowerCase db (group1 mt)); simpl; [intros []|].
  intros [<-|[]]. repeat split.
Qed.

Lemma action_word_check_message (toLowerCase : str -> str)
    (db : SpellDatabase) (text : str) (lineNum : nat) (d : Diagnostic) :
  In d (action_word_check toLowerCase db text lineNum) ->
  startsWith (message d) (js "Unknown spell in ") = false.
Proof.
  unfold action_word_check.
  destruct (re_match re_action_word text) as [am|]; [|intros []].
  destruct (test re_number (group1 am)); [intros []|].
  destruct (_ && _); [|intros []].
  intros [<-|[]]. reflexivity.
Qed.

(** C9.  In the loop over the templated expressions, a captured name that
    is a placeholder ([SPELL], [TALENT], [VARNAME]) or is made of digits
    only is skipped, whatever the dictionary holds; so every unknown-spell
    finding of that loop, and every finding of [validateSpellNames] about a
    templated expression, is about a captured name that is neither. *)
Theorem placeholders_and_numbers_exempt :
  forall toLowerCase spellDatabase text lineNum,
    let from_expression d :=
      exists pattern mt,
        In pattern patterns /\ In mt (matchAll (fst pattern) text) /\
        ~ exempt_name (group1 mt) /\
        isValidSpell toLowerCase spellDatabase (group1 mt) = false /\
        message d =
          js "Unknown spell in " ++ snd pattern ++ js ": " ++ dq
          ++ group1 mt ++ dq
          ++ did_you_mean toLowerCase spellDatabase (group1 mt) in
    (forall type mt name,
        group 1 mt = Some name -> exempt_name name ->
        expr_name_check toLowerCase spellDatabase lineNum type mt = []) /\
    (forall d,
        In d (expr_names_check toLowerCase spellDatabase text lineNum) ->
        from_expression d) /\
    (forall d,
        In d (validateSpellNames toLowerCase spellDatabase text lineNum) ->
        startsWith (message d) (js "Unknown spell in ") = true ->
        from_expression d).
Proof.
  intros toLowerCase db text lineNum from_expression.
  assert (Hb: forall d,
             In d (expr_names_check toLowerCase db text lineNum) ->
             from_expression d).
  { intros d Hd. unfold expr_names_check in Hd.
    apply in_flat_map in Hd as (pattern & Hp & Hd).
    apply in_flat_map in Hd as (mt & Hm & Hd).
    apply expr_name_check_inv in Hd as (P & N & V & M).
    exists pattern, mt. repeat split; auto.
    intros [E|[E|[E|[E1 E2]]]].
    + rewrite E in P. discriminate.
    + rewrite E in P. discriminate.
    + rewrite E in P. discriminate.
    + rewrite (digits_test_number _ E1 E2) in N. discriminate. }
  split; [|split; [exact Hb|]].
  - intros type mt name G E. apply exempt_name_skipped.
    unfold group1. rewrite G. exact E.
  - intros d Hd Hm. unfold validateSpellNames in Hd.
    destruct (negb (isLoaded db)); [destruct Hd|].
    apply in_app_or in Hd as [Hd|Hd]; [|now apply Hb].
    apply action_word_check_message in Hd. congruence.
Qed.

Lemma placeholders_and_numbers_exempt_witness :
  let db := fst (loadFromCsv toLowerCaseAscii
                   (Some (js "id,name" ++ [10%N] ++ js "133,Fireball")) newDb) in
  let text := js "  - fireball,if=buff.SPELL.up&buff.123.up&buff.hast.up" in
  expr_name_check toLowerCaseAscii db 0 (js "buff")
    (mkMatch 27 (js "buff.123.") [(1, js "123")]) = []
  /\ exists pattern mt,
       In pattern patterns /\ In mt (matchAll (fst pattern) text) /\
       ~ exempt_name (group1 mt) /\
       isValidSpell toLowerCaseAscii db (group1 mt) = false /\
       js "Unknown spell in buff: " ++ dq ++ js "hast" ++ dq =
         js "Unknown spell in " ++ snd pattern ++ js ": " ++ dq
         ++ group1 mt ++ dq ++ did_you_mean toLowerCaseAscii db (group1 mt).
Proof.
  intros db text.
  destruct (placeholders_and_numbers_exempt toLowerCaseAscii db text 0)
    as (Ha & Hb & _).
  split.
  - apply (Ha (js "buff") (mkMatch 27 (js "buff.123.") [(1, js "123")])
              (js "123")).
    + reflexivity.
    + right. right. right. split; [discriminate | reflexivity].
  - apply (Hb (mkDiagnostic (mkRange 0 47 0 51)
                 (js "Unknown spell in buff: " ++ dq ++ js "hast" ++ dq)
                 Warning)).
    vm_compute. left. reflexivity.
Defined.

(** ** Fail-open validation *)

Lemma isValidSpell_not_loaded (toLowerCase : str -> str) (db : SpellDatabase)
    (name : str) :
  loaded db = false -> isValidSpell toLowerCase db name = true.
Proof. unfold isValidSpell. intros ->. reflexivity. Qed.

Lemma loadFromCsv_absent (toLowerCase : str -> str) (db : SpellDatabase) :
  loadFromCsv toLowerCase None db = (db, false).
Proof. reflexivity. Qed.

(** C1 fails on the code.  A source that holds the header row [id,name] and
    no data row: [loadFromCsv] returns false, yet it has set the flag
    [loaded], and from then on [isValidSpell] answers false for every
    name. *)
Theorem header_only_source_defeats_fail_open :
  forall toLowerCase name,
    toLowerCase (js "id,name") = js "id,name" ->
    let r := loadFromCsv toLowerCase (Some (js "id,name")) newDb in
    snd r = false /\ loaded (fst r) = true /\ spells (fst r) = [] /\
    isValidSpell toLowerCase (fst r) name = false.
Proof.
  intros toLowerCase name H r. subst r. unfold loadFromCsv.
  change (split re_newline (js "id,name")) with [js "id,name"].
  cbv beta iota. rewrite H. repeat split.
Qed.

Lemma header_only_source_defeats_fail_open_witness :
  let r := loadFromCsv toLowerCaseAscii (Some (js "id,name")) newDb in
  snd r = false /\ isValidSpell toLowerCaseAscii (fst r) (js "fireball") = false.
Proof.
  destruct (header_only_source_defeats_fail_open toLowerCaseAscii
              (js "fireball")) as (H1 & _ & _ & H4).
  - reflexivity.
  - split; [exact H1 | exact H4].
Defined.

(** ** Two action lines *)

(** On a line whose action word is [spell] and that holds no templated
    expression, spell-name validation finds nothing or one unknown-spell
    warning on the action word, as the dictionary has it. *)
Lemma spell_line_names (toLowerCase : str -> str) (db : SpellDatabase)
    (text : str) (lineNum : nat) :
  text = js "  - spell,if=energy>" \/ text = js "  - spell,if=(energy>50" ->
  validateSpellNames toLowerCase db text lineNum = [] \/
  validateSpellNames toLowerCase db text lineNum =
  [mkDiagnostic (mkRange lineNum 4 lineNum 9)
     (js "Unknown spell: " ++ dq ++ js "spell" ++ dq
      ++ did_you_mean toLowerCase db (js "spell"))
     Warning].
Proof.
  intros H. unfold validateSpellNames.
  destruct (negb (isLoaded db)); [now left|].
  assert (E: expr_names_check toLowerCase db text lineNum = [])
    by (destruct H; subst text; vm_compute; reflexivity).
  rewrite E, app_nil_r. unfold action_word_check.
  assert (M: re_match re_action_word text =
             Some (mkMatch 0 (js "  - spell") [(1, js "spell")]))
    by (destruct H; subst text; vm_compute; reflexivity).
  rewrite M.
  change (group1 (mkMatch 0 (js "  - spell") [(1, js "spell")]))
    with (js "spell").
  change (test re_number (js "spell")) with false.
  change (str_mem (js "spell") specialActions) with false.
  cbv iota. cbn [negb andb].
  destruct (isValidSpell toLowerCase db (js "spell")); cbn [negb];
    [now left|right].
  destruct H; subst text; reflexivity.
Qed.

Lemma spell_line_other_checks (text : str) (lineNum : nat)
    (definedConfigVars definedVariables : list str) :
  text = js "  - spell,if=energy>" \/ text = js "  - spell,if=(energy>50" ->
  validateConfigAndVarReferences text lineNum definedConfigVars
    definedVariables ++ checkCommonTypos text lineNum = [].
Proof. intros [H|H]; subst text; vm_compute; reflexivity. Qed.

(** C3 (amended).  On [  - spell,if=energy>] the action-line checks find
    nothing, so the pass gives no trailing-operator warning there (its only
    possible finding is an unknown-spell warning on [spell], and before any
    load it finds nothing): the trailing-operator check is for a trailing
    [&] or [|] only, as on [  - spell,if=energy&], which gets exactly that
    one warning.  On [  - spell,if=(energy>50] the pass gives exactly one
    error, for unbalanced parentheses (1 opening, 0 closing). *)
Theorem action_line_scenarios :
  forall toLowerCase spellDatabase lineNum definedLists definedConfigVars
         definedVariables,
    let pass := line_diagnostics toLowerCase spellDatabase definedLists
                  definedConfigVars definedVariables in
    validateActionLine (js "  - spell,if=energy>") lineNum definedLists = []
    /\ Forall (fun d => startsWith (message d) (js "Unknown spell: ") = true)
              (pass (js "  - spell,if=energy>") lineNum)
    /\ updateDiagnostics toLowerCase newDb [js "  - spell,if=energy>"] = []
    /\ validateActionLine (js "  - spell,if=energy&") lineNum definedLists =
       [mkDiagnostic (mkRange lineNum 0 lineNum 20)
          (js "Condition ends with an operator") Warning]
    /\ validateActionLine (js "  - spell,if=(energy>50") lineNum definedLists =
       [mkDiagnostic (mkRange lineNum 0 lineNum 23)
          (js "Unbalanced parentheses: 1 opening, 0 closing") Error]
    /\ filter is_error (pass (js "  - spell,if=(energy>50") lineNum) =
       [mkDiagnostic (mkRange lineNum 0 lineNum 23)
          (js "Unbalanced parentheses: 1 opening, 0 closing") Error]
    /\ updateDiagnostics toLowerCase newDb [js "  - spell,if=(energy>50"] =
       [mkDiagnostic (mkRange 0 0 0 23)
          (js "Unbalanced parentheses: 1 opening, 0 closing") Error].
Proof.
  intros toLowerCase db lineNum L C V pass.
  split; [vm_compute; reflexivity|]. split.
  { unfold pass, line_diagnostics.
    change (startsWith (trim (js "  - spell,if=energy>")) (js "#")
            || str_eqb (trim (js "  - spell,if=energy>")) []) with false.
    change (startsWith (trimStart (js "  - spell,if=energy>")) (js "-"))
      with true.
    cbv iota.
    change (validateActionLine (js "  - spell,if=energy>") lineNum L)
      with (@nil Diagnostic).
    rewrite spell_line_other_checks by (now left).
    rewrite app_nil_r. cbn [app].
    destruct (spell_line_names toLowerCase db (js "  - spell,if=energy>")
                lineNum) as [E|E]; [now left| |]; rewrite E.
    - constructor.
    - constructor; [reflexivity|constructor]. }
  split; [vm_compute; reflexivity|].
  split; [vm_compute; reflexivity|].
  split; [vm_compute; reflexivity|]. split.
  { unfold pass, line_diagnostics.
    change (startsWith (trim (js "  - spell,if=(energy>50")) (js "#")
            || str_eqb (trim (js "  - spell,if=(energy>50")) []) with false.
    change (startsWith (trimStart (js "  - spell,if=(energy>50")) (js "-"))
      with true.
    cbv iota.
    change (validateActionLine (js "  - spell,if=(energy>50") lineNum L)
      with [mkDiagnostic (mkRange lineNum 0 lineNum 23)
              (js "Unbalanced parentheses: 1 opening, 0 closing") Error].
    rewrite spell_line_other_checks by (now right).
    rewrite app_nil_r.
    destruct (spell_line_names toLowerCase db (js "  - spell,if=(energy>50")
                lineNum) as [E|E]; [now right| |]; rewrite E; reflexivity. }
  vm_compute. reflexivity.
Qed.

(** C3 as stated fails: the pass finds nothing on [  - spell,if=energy>],
    so there is no warning for the trailing [>]. *)
Lemma trailing_comparison_not_flagged :
  updateDiagnostics toLowerCaseAscii newDb [js "  - spell,if=energy>"] = []
  /\ ~ exists d,
         In d (updateDiagnostics toLowerCaseAscii newDb
                 [js "  - spell,if=energy>"])
         /\ severity d = Warning.
Proof.
  split; [vm_compute; reflexivity|].
  intros (d & H & _). vm_compute in H. exact H.
Qed.


(** ** [replace], regex by regex *)

Lemma consumed_cons (prev q : option char) (x : char) (s : str) :
  consumed (prev, x :: s) (q, s) = [x].
Proof. apply (consumed_app prev q [x] s). Qed.

Lemma replace_from_skip (r : regex) (by_ : str) (s1 s2 : str) :
  forall prev,
    replace_from r by_ prev (s1 ++ s2) (length s1) =
    replace_from r by_ (last_of s1 prev) s2 0.
Proof.
  induction s1 as [|x s1 IH]; intros prev.
  - reflexivity.
  - simpl. rewrite IH, last_of_cons. reflexivity.
Qed.

Lemma replace_from_nil (r : regex) (by_ : str) (prev : option char) :
  match_at r prev [] 0 = None -> replace_from r by_ prev [] 0 = [].
Proof. intros H. simpl. now rewrite H. Qed.

Lemma replace_from_none (r : regex) (by_ : str) (prev : option char)
    (x : char) (s : str) :
  match_at r prev (x :: s) 0 = None ->
  replace_from r by_ prev (x :: s) 0 = x :: replace_from r by_ (Some x) s 0.
Proof. intros H. simpl. now rewrite H. Qed.

Lemma replace_from_some (r : regex) (by_ : str) (prev : option char)
    (x : char) (s1 s2 : str) (g : caps) :
  match_at r prev (x :: s1 ++ s2) 0 = Some (mkMatch 0 (x :: s1) g) ->
  replace_from r by_ prev (x :: s1 ++ s2) 0 =
  by_ ++ replace_from r by_ (last_of (x :: s1) prev) s2 0.
Proof.
  intros H. cbn [replace_from]. rewrite H. cbn [m_text length].
  rewrite replace_from_skip, last_of_cons. reflexivity.
Qed.

(** A class: [/[c]/g]. *)
Lemma match_at_cls (q : char -> bool) (prev : option char) (x : char)
    (s : str) (idx : nat) :
  match_at (Cls q) prev (x :: s) idx =
  if q x then Some (mkMatch idx [x] []) else None.
Proof.
  unfold match_at. cbn [m fst snd]. destruct (q x); [|reflexivity].
  unfold accept. now rewrite consumed_cons.
Qed.

Lemma replace_cls_none (q : char -> bool) (by_ : str) (s : str) :
  forallb (fun c => negb (q c)) s = true ->
  forall prev, replace_from (Cls q) by_ prev s 0 = s.
Proof.
  induction s as [|x s IH]; intros H prev.
  - reflexivity.
  - simpl in H. apply andb_true_iff in H as [Hx H].
    apply negb_true_iff in Hx.
    rewrite replace_from_none by (rewrite match_at_cls, Hx; reflexivity).
    now rewrite IH.
Qed.

(** A run of a class: [/[c]+/g]. *)
Lemma rep_accept (q : char -> bool) (s1 s2 : str) :
  not_headed q s2 -> forallb q s1 = true ->
  forall (min : nat) (prev : option char) (c : caps),
    rep q min accept prev (s1 ++ s2) c =
    if min <=? length s1 then Some ((last_of s1 prev, s2), c) else None.
Proof.
  intros Hs2. induction s1 as [|x s1 IH]; intros Hall min prev c.
  - simpl app. destruct s2 as [|y s2]; simpl.
    + destruct min; reflexivity.
    + simpl in Hs2. rewrite Hs2. destruct min; reflexivity.
  - simpl in Hall. apply andb_true_iff in Hall as [Px Hall].
    simpl. rewrite Px, IH by assumption. rewrite last_of_cons.
    destruct min as [|min]; simpl.
    + reflexivity.
    + destruct (min <=? length s1); reflexivity.
Qed.

Lemma match_at_run (q : char -> bool) (prev : option char) (s1 s2 : str)
    (idx : nat) :
  not_headed q s2 -> forallb q s1 = true ->
  match_at (Rep q 1) prev (s1 ++ s2) idx =
  if 1 <=? length s1 then Some (mkMatch idx s1 []) else None.
Proof.
  intros H2 H1. unfold match_at. cbn [m fst snd].
  rewrite rep_accept by assumption.
  destruct (1 <=? length s1); [|reflexivity].
  now rewrite consumed_app.
Qed.

Lemma span_exists (q : char -> bool) (s : str) :
  exists s1 s2, s = s1 ++ s2 /\ forallb q s1 = true /\ not_headed q s2.
Proof.
  induction s as [|x s (s1 & s2 & E & H1 & H2)].
  - exists [], []. repeat split.
  - destruct (q x) eqn:Qx.
    + exists (x :: s1), s2. simpl. rewrite Qx, H1, E. repeat split. exact H2.
    + exists [], (x :: s). repeat split. exact Qx.
Qed.

Lemma replace_run_head (q : char -> bool) (by_ : str) (prev : option char)
    (x : char) (s1 s2 : str) :
  q x = true -> forallb q s1 = true -> not_headed q s2 ->
  replace_from (Rep q 1) by_ prev (x :: s1 ++ s2) 0 =
  by_ ++ replace_from (Rep q 1) by_ (last_of (x :: s1) prev) s2 0.
Proof.
  intros Hx H1 H2. apply replace_from_some with (g := []).
  change (x :: s1 ++ s2) with ((x :: s1) ++ s2).
  rewrite match_at_run; auto. simpl. now rewrite Hx, H1.
Qed.

Lemma replace_run_skip (q : char -> bool) (by_ : str) (prev : option char)
    (x : char) (s : str) :
  q x = false ->
  replace_from (Rep q 1) by_ prev (x :: s) 0 =
  x :: replace_from (Rep q 1) by_ (Some x) s 0.
Proof.
  intros Hx. apply replace_from_none.
  change (x :: s) with ([] ++ x :: s).
  rewrite match_at_run; auto.
Qed.

(** ** [normalizeName] *)

Lemma lower_alnum_not_us (c : char) :
  is_lower_alnum c = true -> is_underscore c = false.
Proof.
  unfold is_lower_alnum, is_lower, is_digit, is_underscore, in_range.
  intros H. apply N.eqb_neq. intros ->. discriminate.
Qed.

Lemma underscore_eq (c : char) : is_underscore c = true -> c = 95%N.
Proof. apply N.eqb_eq. Qed.

(** The result of [/[^a-z0-9]+/g -> "_"] has code units of [a-z0-9_] only
    and no two underscores in a row. *)
Lemma replace_non_alnum_good (n : nat) :
  forall s prev, length s <= n ->
    good false (replace_from re_non_alnum (js "_") prev s 0) = true /\
    (not_headed (fun c => negb (is_lower_alnum c)) s ->
     good true (replace_from re_non_alnum (js "_") prev s 0) = true).
Proof.
  unfold re_non_alnum.
  induction n as [|n IH]; intros s prev L.
  - destruct s; [|simpl in L; lia]. split; reflexivity.
  - destruct s as [|x s]; [split; reflexivity|]. simpl in L.
    destruct (is_lower_alnum x) eqn:Ax.
    + rewrite replace_run_skip by (now rewrite Ax).
      cbn [good]. rewrite (lower_alnum_not_us _ Ax), Ax. cbn [andb].
      destruct (IH s (Some x)) as [H _]; [lia|]. split; auto.
    + destruct (span_exists (fun c => negb (is_lower_alnum c)) s)
        as (s1 & s2 & E & H1 & H2).
      subst s. rewrite replace_run_head; auto; [|now rewrite Ax].
      split.
      * change (js "_") with [95%N]. cbn [app good is_underscore].
        change ((95 =? 95)%N) with true. cbv iota. cbn [negb andb].
        apply IH; [|exact H2]. rewrite length_app in L. lia.
      * intros H. simpl in H. rewrite Ax in H. discriminate.
Qed.

(** On a string of [a-z0-9_] without two underscores in a row, replacing
    each run of the class by one underscore changes nothing, when the class
    holds the underscore and no code unit of [a-z0-9]. *)
Lemma replace_runs_id (q : char -> bool) :
  q 95%N = true -> (forall c, is_lower_alnum c = true -> q c = false) ->
  forall s b prev,
    good b s = true -> replace_from (Rep q 1) (js "_") prev s 0 = s.
Proof.
  intros Qu Qa. induction s as [|x s IH]; intros b prev G.
  - reflexivity.
  - cbn [good] in G. destruct (is_underscore x) eqn:Ux.
    + apply underscore_eq in Ux. subst x.
      apply andb_true_iff in G as [_ G].
      change (95%N :: s) with (95%N :: [] ++ s).
      rewrite replace_run_head; auto.
      * rewrite (IH true _ G). reflexivity.
      * destruct s as [|y s]; [exact I|]. cbn [good] in G. simpl.
        destruct (is_underscore y); [discriminate|].
        apply andb_true_iff in G as [G _]. now apply Qa.
    + apply andb_true_iff in G as [Ax G].
      rewrite replace_run_skip by (now apply Qa).
      now rewrite (IH false _ G).
Qed.

(** [/^_|_$/g -> ""] removes one underscore at each end. *)
Lemma match_at_edge_start (x : char) (s : str) :
  match_at re_edge_us None (x :: s) 0 =
  if is_underscore x then Some (mkMatch 0 [x] []) else None.
Proof.
  unfold match_at, re_edge_us. change (js "_") with [95%N].
  cbn [m fst snd lit_match]. unfold is_underscore, char_eqb.
  rewrite (N.eqb_sym 95 x). destruct (x =? 95)%N; [|reflexivity].
  unfold accept. cbv beta iota. now rewrite consumed_cons.
Qed.

Lemma match_at_edge_inner (p x : char) (s : str) :
  match_at re_edge_us (Some p) (x :: s) 0 =
  match s with
  | [] => if is_underscore x then Some (mkMatch 0 [x] []) else None
  | _ :: _ => None
  end.
Proof.
  unfold match_at, re_edge_us. change (js "_") with [95%N].
  cbn [m fst snd lit_match]. unfold is_underscore, char_eqb.
  rewrite (N.eqb_sym 95 x). destruct (x =? 95)%N.
  - destruct s; [|reflexivity]. unfold accept. cbn [snd].
    now rewrite consumed_cons.
  - destruct s; reflexivity.
Qed.

Lemma replace_edge_inner (s : str) :
  forall p, replace_from re_edge_us [] (Some p) s 0 = strip_trailing_us s.
Proof.
  induction s as [|x s IH]; intros p.
  - reflexivity.
  - destruct s as [|y s].
    + cbn [replace_from]. rewrite match_at_edge_inner.
      destruct (is_underscore x) eqn:Ux; simpl; rewrite Ux; reflexivity.
    + rewrite replace_from_none by (now rewrite match_at_edge_inner).
      rewrite IH. reflexivity.
Qed.

Lemma replace_edge (s : str) : replace re_edge_us [] s = strip_edge_us s.
Proof.
  unfold replace. destruct s as [|x s]; [reflexivity|].
  cbn [replace_from]. rewrite match_at_edge_start.
  unfold strip_edge_us. destruct (is_underscore x) eqn:Ux.
  - cbn [m_text length app]. apply replace_edge_inner.
  - rewrite replace_edge_inner. destruct s; simpl.
    + now rewrite Ux.
    + reflexivity.
Qed.

Lemma strip_trailing_nf (s : str) :
  (good false s = true -> nf true false (strip_trailing_us s) = true) /\
  (good true s = true -> s <> [] ->
   nf false true (strip_trailing_us s) = true).
Proof.
  induction s as [|x s [IH1 IH2]].
  - split; [reflexivity|congruence].
  - assert (A: is_lower_alnum x = true -> good false s = true ->
               forall c l, nf c l (strip_trailing_us (x :: s)) = true).
    { intros Ax G c l. pose proof (lower_alnum_not_us _ Ax) as Ux.
      cbn [strip_trailing_us]. destruct s as [|y s].
      - rewrite Ux. cbn [nf]. rewrite Ux, Ax. reflexivity.
      - cbn [nf]. rewrite Ux, Ax. cbn [andb]. now apply IH1. }
    split.
    + cbn [good]. destruct (is_underscore x) eqn:Ux.
      * cbn [negb andb]. intros G. cbn [strip_trailing_us].
        destruct s as [|y s]; [now rewrite Ux|].
        cbn [nf]. rewrite Ux. cbn [andb]. apply IH2; [exact G|congruence].
      * intros G. apply andb_true_iff in G as [Ax G]. now apply A.
    + cbn [good]. destruct (is_underscore x) eqn:Ux; [discriminate|].
      intros G _. apply andb_true_iff in G as [Ax G]. now apply A.
Qed.

Lemma strip_edge_normalized (s : str) :
  good false s = true -> normalized (strip_edge_us s) = true.
Proof.
  unfold normalized. destruct s as [|x s]; [reflexivity|].
  cbn [good strip_edge_us]. destruct (is_underscore x) eqn:Ux.
  - cbn [negb andb]. intros G. destruct s as [|y s]; [reflexivity|].
    cbn [good] in G. destruct (is_underscore y) eqn:Uy; [discriminate|].
    apply andb_true_iff in G as [Ay G].
    cbn [strip_trailing_us]. destruct s as [|z s].
    + rewrite Uy. cbn [nf]. now rewrite Uy, Ay.
    + cbn [nf]. rewrite Uy, Ay. cbn [andb].
      now apply (proj1 (strip_trailing_nf (z :: s))).
  - intros G. apply andb_true_iff in G as [Ax G].
    cbn [strip_trailing_us]. destruct s as [|y s].
    + rewrite Ux. cbn [nf]. now rewrite Ux, Ax.
    + cbn [nf]. rewrite Ux, Ax. cbn [andb].
      now apply (proj1 (strip_trailing_nf (y :: s))).
Qed.

Lemma nf_good (s : str) :
  forall c l, nf c l s = true -> (l = true -> c = false) ->
              good l s = true.
Proof.
  induction s as [|x s IH]; intros c l H Hl.
  - reflexivity.
  - cbn [nf] in H. cbn [good]. destruct (is_underscore x).
    + apply andb_true_iff in H as [Hc H]. subst c.
      destruct l; [specialize (Hl eq_refl); discriminate|].
      cbn [negb andb]. apply (IH false true); auto.
    + apply andb_true_iff in H as [Ax H]. rewrite Ax. cbn [andb].
      apply (IH true false); auto; discriminate.
Qed.

Lemma nf_key_chars (s : str) :
  forall c l, nf c l s = true -> forallb is_key_char s = true.
Proof.
  induction s as [|x s IH]; intros c l H.
  - reflexivity.
  - cbn [nf] in H. cbn [forallb]. unfold is_key_char at 1.
    destruct (is_underscore x).
    + apply andb_true_iff in H as [_ H]. rewrite orb_true_r.
      now apply IH in H.
    + apply andb_true_iff in H as [Ax H]. rewrite Ax. now apply IH in H.
Qed.

Lemma key_char_not_apostrophe (c : char) :
  is_key_char c = true -> is_apostrophe c = false.
Proof.
  unfold is_key_char, is_lower_alnum, is_lower, is_digit, is_underscore,
    is_apostrophe, in_range.
  intros H. apply N.eqb_neq. intros ->. discriminate.
Qed.

Lemma nf_strip_trailing_id (s : str) :
  forall c l, nf c l s = true -> strip_trailing_us s = s.
Proof.
  induction s as [|x s IH]; intros c l H.
  - reflexivity.
  - cbn [nf] in H. cbn [strip_trailing_us]. destruct s as [|y s].
    + destruct (is_underscore x); [|reflexivity].
      apply andb_true_iff in H as [_ H]. discriminate.
    + f_equal. destruct (is_underscore x);
        apply andb_true_iff in H as [_ H]; now apply IH in H.
Qed.

Lemma normalized_strip_edge_id (s : str) :
  normalized s = true -> strip_edge_us s = s.
Proof.
  unfold normalized. destruct s as [|x s]; [reflexivity|].
  intros H. unfold strip_edge_us.
  pose proof H as H'. cbn [nf] in H'.
  destruct (is_underscore x); [discriminate|].
  now apply nf_strip_trailing_id in H.
Qed.

Section Normalize.

Variable toLowerCase : str -> str.

Lemma normalizeName_normalized (name : str) :
  normalized (normalizeName toLowerCase name) = true /\
  normalizeName toLowerCase name =
  strip_edge_us
    (replace re_non_alnum (js "_")
       (replace re_apostrophe [] (toLowerCase name))).
Proof.
  unfold normalizeName. rewrite replace_edge.
  set (y := replace re_non_alnum (js "_") _).
  assert (G: good false y = true).
  { unfold y, replace. eapply replace_non_alnum_good. apply Nat.le_refl. }
  pose proof (strip_edge_normalized _ G) as Hz.
  assert (E: replace re_us_run (js "_") (strip_edge_us y) = strip_edge_us y).
  { unfold replace, re_us_run.
    apply (replace_runs_id is_underscore) with (b := false).
    - reflexivity.
    - apply lower_alnum_not_us.
    - apply (nf_good _ false false Hz). discriminate. }
  rewrite E. split; [exact Hz|reflexivity].
Qed.

(** What is needed of [toLowerCase]: it leaves alone the strings of
    [a-z0-9_], which have no upper case. *)
Hypothesis toLowerCase_key :
  forall s, forallb is_key_char s = true -> toLowerCase s = s.

Lemma normalizeName_fixes_normalized (s : str) :
  normalized s = true -> normalizeName toLowerCase s = s.
Proof.
  intros H. pose proof (nf_key_chars _ _ _ H) as K.
  destruct (normalizeName_normalized s) as [_ ->].
  rewrite (toLowerCase_key _ K).
  assert (E1: replace re_apostrophe [] s = s).
  { unfold replace, re_apostrophe. apply replace_cls_none.
    rewrite forallb_forall in K |- *. intros c Hc.
    apply negb_true_iff, key_char_not_apostrophe. now apply K. }
  rewrite E1.
  assert (E2: replace re_non_alnum (js "_") s = s).
  { unfold replace, re_non_alnum.
    apply (replace_runs_id (fun c => negb (is_lower_alnum c)))
      with (b := false).
    - reflexivity.
    - intros c Hc. now rewrite Hc.
    - apply (nf_good _ false false H). discriminate. }
  rewrite E2. now apply normalized_strip_edge_id.
Qed.

End Normalize.

Lemma map_set_twice (K V : Type) (eqb : K -> K -> bool) (k : K) (v : V)
    (l : list (K * V)) :
  eqb k k = true ->
  map_set eqb k v (map_set eqb k v l) = map_set eqb k v l.
Proof.
  intros Hk. induction l as [|[k' v'] l IH]; simpl.
  - now rewrite Hk.
  - destruct (eqb k' k) eqn:E; simpl.
    + now rewrite Hk.
    + now rewrite E, IH.
Qed.

Lemma load_row_twice (toLowerCase : str -> str) (idIndex nameIndex : nat)
    (db : SpellDatabase) (row : str) :
  load_row toLowerCase idIndex nameIndex
           (load_row toLowerCase idIndex nameIndex db row) row =
  load_row toLowerCase idIndex nameIndex db row.
Proof.
  unfold load_row. destruct (trim row) as [|c line]; [reflexivity|].
  destruct (length (parseCsvLine (c :: line)) <=? Nat.max idIndex nameIndex);
    [reflexivity|].
  destruct (nth idIndex (parseCsvLine (c :: line)) []) as [|i idStr] eqn:Ei;
    [reflexivity|].
  destruct (nth nameIndex (parseCsvLine (c :: line)) []) as [|a name];
    [reflexivity|].
  destruct (parseInt (i :: idStr)) as [id|]; [|reflexivity].
  cbn [spells spellsById loaded].
  rewrite !map_set_twice; auto using str_eqb_refl, Z.eqb_refl.
Qed.

Lemma toLowerCaseAscii_key (s : str) :
  forallb is_key_char s = true -> toLowerCaseAscii s = s.
Proof.
  unfold toLowerCaseAscii. induction s as [|x s IH]; simpl; intros H.
  - reflexivity.
  - apply andb_true_iff in H as [Hx H]. rewrite (IH H). f_equal.
    unfold ascii_lower. destruct (is_upper x) eqn:U; [|reflexivity].
    exfalso. revert Hx U.
    unfold is_key_char, is_lower_alnum, is_lower, is_digit, is_underscore,
      is_upper, in_range.
    intros Hx U. apply andb_true_iff in U as [U1 U2].
    apply N.leb_le in U1. apply N.leb_le in U2.
    apply orb_true_iff in Hx as [Hx|Hx];
      [apply orb_true_iff in Hx as [Hx|Hx];
       apply andb_true_iff in Hx as [H1 H2];
       apply N.leb_le in H1; apply N.leb_le in H2; lia|].
    apply N.eqb_eq in Hx. lia.
Qed.

(** C6.  [normalizeName] is idempotent, whatever the input; its result is a
    normalized name (code units of [a-z0-9_], no underscore at either end,
    no two in a row).  It is a function of the name alone: the same display
    name gives the same key, and loading the same row a second time leaves
    the tables as they were. *)
Theorem normalizeName_idempotent :
  forall toLowerCase,
    (forall s, forallb is_key_char s = true -> toLowerCase s = s) ->
    forall x,
      normalizeName toLowerCase (normalizeName toLowerCase x) =
      normalizeName toLowerCase x
      /\ normalized (normalizeName toLowerCase x) = true
      /\ (forall y, y = x ->
                    normalizeName toLowerCase y = normalizeName toLowerCase x)
      /\ (forall idIndex nameIndex db row,
             load_row toLowerCase idIndex nameIndex
               (load_row toLowerCase idIndex nameIndex db row) row =
             load_row toLowerCase idIndex nameIndex db row).
Proof.
  intros toLowerCase H x.
  destruct (normalizeName_normalized toLowerCase x) as [N _].
  split; [|split; [exact N|split]].
  - now apply normalizeName_fixes_normalized.
  - intros y ->. reflexivity.
  - intros. apply load_row_twice.
Qed.

Lemma normalizeName_idempotent_witness :
  normalizeName toLowerCaseAscii (js "  Mage's --Armor__ (Rank 2)!_") =
  js "mages_armor_rank_2"
  /\ normalizeName toLowerCaseAscii
       (normalizeName toLowerCaseAscii (js "  Mage's --Armor__ (Rank 2)!_")) =
     normalizeName toLowerCaseAscii (js "  Mage's --Armor__ (Rank 2)!_").
Proof.
  split; [vm_compute; reflexivity|].
  exact (proj1 (normalizeName_idempotent toLowerCaseAscii toLowerCaseAscii_key
                  (js "  Mage's --Armor__ (Rank 2)!_"))).
Defined.

(** ** Edit distance *)

Lemma lev_nil_r (s : str) : lev s [] = length s.
Proof. destruct s; reflexivity. Qed.

Lemma lev_cons (x y : char) (s t : str) :
  lev (x :: s) (y :: t) =
  if char_eqb x y then lev s t
  else Nat.min (Nat.min (lev s t + 1) (lev (x :: s) t + 1))
               (lev s (y :: t) + 1).
Proof. reflexivity. Qed.

Lemma edits_nil_l (t : str) : edits [] t (length t).
Proof. induction t; simpl; constructor; assumption. Qed.

Lemma edits_nil_r (s : str) : edits s [] (length s).
Proof. induction s; simpl; constructor; assumption. Qed.

Lemma lev_sound (s : str) : forall t, edits s t (lev s t).
Proof.
  induction s as [|x s IHs]; intros t.
  - apply edits_nil_l.
  - induction t as [|y t IHt].
    + rewrite lev_nil_r. apply edits_nil_r.
    + rewrite lev_cons. destruct (char_eqb x y) eqn:E.
      * apply char_eqb_eq in E. subst y. constructor. apply IHs.
      * destruct (Nat.min_dec (Nat.min (lev s t + 1) (lev (x :: s) t + 1))
                              (lev s (y :: t) + 1)) as [M|M]; rewrite M.
        -- destruct (Nat.min_dec (lev s t + 1) (lev (x :: s) t + 1))
             as [M'|M']; rewrite M'; rewrite Nat.add_1_r.
           ++ apply ed_subst, IHs.
           ++ apply ed_ins, IHt.
        -- rewrite Nat.add_1_r. apply ed_del, IHs.
Qed.

(** One code unit more or less on either side moves the distance by at
    most one. *)
Lemma lev_lipschitz (n : nat) :
  forall s t, length s + length t <= n ->
    (forall x, lev (x :: s) t <= S (lev s t)) /\
    (forall y, lev s (y :: t) <= S (lev s t)) /\
    (forall x, lev s t <= S (lev (x :: s) t)) /\
    (forall y, lev s t <= S (lev s (y :: t))).
Proof.
  induction n as [|n IH]; intros s t L.
  - destruct s; [|simpl in L; lia]. destruct t; [|simpl in L; lia].
    repeat split; intros; simpl; lia.
  - assert (Q1: forall x, lev (x :: s) t <= S (lev s t)).
    { intros x. destruct t as [|y t].
      - rewrite !lev_nil_r. simpl. lia.
      - rewrite lev_cons. destruct (char_eqb x y) eqn:E; [|lia].
        simpl in L. destruct (IH s t) as (_ & _ & _ & P2); [lia|].
        apply P2. }
    assert (Q2: forall y, lev s (y :: t) <= S (lev s t)).
    { intros y. destruct s as [|x s].
      - simpl. lia.
      - rewrite lev_cons. destruct (char_eqb x y) eqn:E; [|lia].
        simpl in L. destruct (IH s t) as (_ & _ & P1 & _); [lia|].
        apply P1. }
    repeat split; auto.
    + intros x. destruct t as [|y t].
      * rewrite !lev_nil_r. simpl. lia.
      * simpl in L. destruct (IH s t) as (_ & Q2' & P1' & _); [lia|].
        rewrite lev_cons. destruct (char_eqb x y).
        -- apply Q2'.
        -- specialize (Q2' y). specialize (P1' x). lia.
    + intros y. destruct s as [|x s].
      * simpl. lia.
      * simpl in L. destruct (IH s t) as (Q1' & _ & _ & P2'); [lia|].
        rewrite lev_cons. destruct (char_eqb x y).
        -- apply Q1'.
        -- specialize (Q1' x). specialize (P2' y). lia.
Qed.

Lemma lev_min (s t : str) (n : nat) : edits s t n -> lev s t <= n.
Proof.
  induction 1 as [|x s t n H IH|x y s t n H IH|x s t n H IH|y s t n H IH].
  - simpl. lia.
  - rewrite lev_cons, char_eqb_refl. exact IH.
  - rewrite lev_cons. destruct (char_eqb x y); lia.
  - destruct (lev_lipschitz (length s + length t) s t (Nat.le_refl _))
      as (Q1 & _). specialize (Q1 x). lia.
  - destruct (lev_lipschitz (length s + length t) s t (Nat.le_refl _))
      as (_ & Q2 & _). specialize (Q2 y). lia.
Qed.

Lemma edits_sym (s t : str) (n : nat) : edits s t n -> edits t s n.
Proof. induction 1; constructor; assumption. Qed.

Lemma edits_snoc_keep (x : char) (s t : str) (n : nat) :
  edits s t n -> edits (s ++ [x]) (t ++ [x]) n.
Proof. induction 1; simpl; repeat constructor; assumption. Qed.

Lemma edits_snoc_subst (x y : char) (s t : str) (n : nat) :
  edits s t n -> edits (s ++ [x]) (t ++ [y]) (S n).
Proof. induction 1; simpl; repeat constructor; assumption. Qed.

Lemma edits_snoc_del (x : char) (s t : str) (n : nat) :
  edits s t n -> edits (s ++ [x]) t (S n).
Proof. induction 1; simpl; repeat constructor; assumption. Qed.

Lemma edits_snoc_ins (y : char) (s t : str) (n : nat) :
  edits s t n -> edits s (t ++ [y]) (S n).
Proof. induction 1; simpl; repeat constructor; assumption. Qed.

Lemma edits_rev (s t : str) (n : nat) :
  edits s t n -> edits (rev s) (rev t) n.
Proof.
  induction 1; simpl.
  - constructor.
  - now apply edits_snoc_keep.
  - now apply edits_snoc_subst.
  - now apply edits_snoc_del.
  - now apply edits_snoc_ins.
Qed.

(** The recurrence, read on the reversed strings, is the distance. *)
Lemma lev_rev_is_levenshtein (a b : str) :
  is_levenshtein a b (lev (rev b) (rev a)).
Proof.
  split.
  - apply edits_sym. rewrite <- (rev_involutive a) at 1.
    rewrite <- (rev_involutive b) at 1. apply edits_rev, lev_sound.
  - intros n H. apply lev_min, edits_rev, edits_sym, H.
Qed.

Lemma is_levenshtein_unique (s t : str) (d d' : nat) :
  is_levenshtein s t d -> is_levenshtein s t d' -> d = d'.
Proof.
  intros [H1 H2] [H1' H2']. apply H2 in H1'. apply H2' in H1. lia.
Qed.

(** ** The matrix of [levenshteinDistance] *)

Lemma arr_set_length (A : Type) (d v : A) (l : list A) :
  forall i, length (arr_set d i v l) = Nat.max (length l) (S i).
Proof.
  induction l as [|x l IH]; intros i.
  - induction i as [|i IHi]; simpl; [reflexivity|].
    simpl in IHi. rewrite IHi. reflexivity.
  - destruct i; simpl; [|rewrite IH]; lia.
Qed.

Lemma arr_set_nth (A : Type) (d d' v : A) (l : list A) :
  forall i k, i <= length l ->
    nth k (arr_set d i v l) d' = if k =? i then v else nth k l d'.
Proof.
  induction l as [|x l IH]; intros i k L.
  - simpl in L. assert (i = 0) by lia. subst i. simpl.
    destruct k; simpl; [reflexivity|]. destruct k; reflexivity.
  - destruct i; simpl.
    + destruct k; reflexivity.
    + destruct k; simpl; [reflexivity|]. apply IH. simpl in L. lia.
Qed.

Lemma arr_set_end (A : Type) (d v : A) (l : list A) :
  arr_set d (length l) v l = l ++ [v].
Proof. induction l as [|x l IH]; simpl; [reflexivity|now rewrite IH]. Qed.

Lemma rev_firstn_S (l : str) (n : nat) :
  n < length l ->
  rev (firstn (S n) l) = nth n l 0%N :: rev (firstn n l).
Proof.
  revert n; induction l as [|x l IH]; intros n L; simpl in L; [lia|].
  destruct n.
  - simpl. destruct l; reflexivity.
  - change (firstn (S (S n)) (x :: l)) with (x :: firstn (S n) l).
    change (firstn (S n) (x :: l)) with (x :: firstn n l).
    cbn [rev nth]. rewrite IH by lia. reflexivity.
Qed.

Lemma nth_map_seq (A : Type) (f : nat -> A) (d : A) (n i : nat) :
  i < n -> nth i (map f (seq 0 n)) d = f i.
Proof.
  intros L. rewrite (nth_indep _ d (f 0)) by (now rewrite length_map, length_seq).
  rewrite map_nth, seq_nth by assumption. reflexivity.
Qed.

Section Matrix.

Variables a b : str.

Lemma D_row0 (j : nat) : j <= length a -> prefix_distance a b 0 j = j.
Proof.
  intros L. unfold prefix_distance. simpl. rewrite length_rev, length_firstn. lia.
Qed.

Lemma D_col0 (i : nat) : i <= length b -> prefix_distance a b i 0 = i.
Proof.
  intros L. unfold prefix_distance. simpl. rewrite lev_nil_r, length_rev, length_firstn.
  lia.
Qed.

Lemma D_step (i j : nat) :
  i < length b -> j < length a ->
  prefix_distance a b (S i) (S j) =
  if char_eqb (nth i b 0%N) (nth j a 0%N) then prefix_distance a b i j
  else Nat.min (Nat.min (prefix_distance a b i j + 1) (prefix_distance a b (S i) j + 1)) (prefix_distance a b i (S j) + 1).
Proof.
  intros Li Lj. unfold prefix_distance. rewrite !rev_firstn_S by assumption.
  rewrite lev_cons. rewrite <- !rev_firstn_S by assumption. reflexivity.
Qed.

Lemma set_cell_inv (mx : list (list nat)) (w w' : nat -> nat) (i j : nat) :
  matrix_filled a b mx w -> i <= length b -> j <= w i ->
  (forall i', w' i' = if i' =? i then Nat.max (w i) (S j) else w i') ->
  matrix_filled a b (set_cell mx i j (prefix_distance a b i j)) w'.
Proof.
  intros [Hlen Hrows] Li Lj Hw'. unfold set_cell. split.
  - rewrite arr_set_length. lia.
  - intros i' Li'. rewrite Hw'. unfold cell.
    rewrite (arr_set_nth (list nat) [] [] (arr_set 0 j (prefix_distance a b i j) (nth i mx [])) mx i i')
      by lia.
    destruct (Hrows i Li) as [Hwi Hci].
    destruct (i' =? i) eqn:E.
    + apply Nat.eqb_eq in E. subst i'. split.
      * rewrite arr_set_length. lia.
      * intros j' Lj'. rewrite (arr_set_nth nat 0 0) by lia.
        destruct (j' =? j) eqn:Ej.
        -- apply Nat.eqb_eq in Ej. now subst j'.
        -- apply Nat.eqb_neq in Ej. apply Hci. lia.
    + destruct (Hrows i' Li') as [Hwi' Hci']. split; [exact Hwi'|].
      intros j' Lj'. apply Hci'. exact Lj'.
Qed.

Lemma Inv_ext (mx : list (list nat)) (w w' : nat -> nat) :
  (forall i, w' i = w i) -> matrix_filled a b mx w -> matrix_filled a b mx w'.
Proof.
  intros E [H1 H2]. split; [exact H1|]. intros i Li. rewrite E. now apply H2.
Qed.

Lemma row_loop (f : list (list nat) -> nat -> list (list nat)) (i : nat) :
  i <= length b ->
  (forall mx j, matrix_filled a b mx (widths a i j) -> 1 <= j <= length a ->
                f mx j = set_cell mx i j (prefix_distance a b i j)) ->
  forall count j0 mx,
    1 <= j0 -> j0 + count = S (length a) -> matrix_filled a b mx (widths a i j0) ->
    matrix_filled a b (fold_left f (seq j0 count) mx) (widths a i (S (length a))).
Proof.
  intros Li Hf. induction count as [|count IH]; intros j0 mx L1 L2 H.
  - simpl. replace (S (length a)) with j0 by lia. exact H.
  - simpl. apply IH; [lia|lia|].
    rewrite Hf by (auto; lia).
    apply set_cell_inv with (w := widths a i j0); auto.
    + unfold widths. rewrite Nat.ltb_irrefl, Nat.eqb_refl. lia.
    + intros i'. unfold widths. rewrite Nat.ltb_irrefl, Nat.eqb_refl.
      destruct (i' =? i) eqn:E.
      * apply Nat.eqb_eq in E. subst i'. rewrite Nat.ltb_irrefl. lia.
      * reflexivity.
Qed.

Lemma init_rows (n : nat) :
  fold_left (fun mx i => arr_set [] i [i] mx) (seq 0 n) [] =
  map (fun i => [i]) (seq 0 n).
Proof.
  induction n as [|n IH].
  - reflexivity.
  - rewrite seq_S, fold_left_app, IH, map_app. simpl.
    pose proof (arr_set_end (list nat) [] [n]
                  (map (fun i => [i]) (seq 0 n))) as E.
    rewrite length_map, length_seq in E. exact E.
Qed.

Lemma init_inv :
  matrix_filled a b (map (fun i => [i]) (seq 0 (S (length b)))) (widths a 0 1).
Proof.
  split.
  - now rewrite length_map, length_seq.
  - intros i Li.
    assert (E: nth i (map (fun i => [i]) (seq 0 (S (length b)))) [] = [i]).
    { apply nth_map_seq. lia. }
    unfold cell. rewrite E. split.
    + unfold widths. simpl. destruct (i =? 0); reflexivity.
    + intros j Lj. assert (j = 0).
      { unfold widths in Lj. simpl in Lj. destruct (i =? 0); lia. }
      subst j. simpl. now rewrite D_col0.
Qed.

Lemma outer_loop :
  forall count i0 mx,
    1 <= i0 -> i0 + count = S (length b) -> matrix_filled a b mx (widths a i0 1) ->
    matrix_filled a b (fold_left (lev_outer a b) (seq i0 count) mx) (widths a (S (length b)) 1).
Proof.
  induction count as [|count IH]; intros i0 mx L1 L2 H.
  - simpl. replace (S (length b)) with i0 by lia. exact H.
  - simpl. apply IH; [lia|lia|].
    apply Inv_ext with (w := widths a i0 (S (length a))).
    { intros i. unfold widths.
      destruct (Nat.ltb_spec i (S i0)), (Nat.ltb_spec i i0),
               (Nat.eqb_spec i i0), (Nat.eqb_spec i (S i0));
        try reflexivity; lia. }
    unfold lev_outer.
    apply row_loop with (i := i0); [lia| |lia|reflexivity|exact H].
    intros mx' j [Hlen Hrows] Lj. unfold lev_inner.
    destruct (Hrows (i0 - 1)) as [_ Hup]; [lia|].
    destruct (Hrows i0) as [_ Hcur]; [lia|].
    assert (Wup: widths a i0 j (i0 - 1) = S (length a)).
    { unfold widths. replace (i0 - 1 <? i0) with true; [reflexivity|].
      symmetry. apply Nat.ltb_lt. lia. }
    assert (Wcur: widths a i0 j i0 = j).
    { unfold widths. now rewrite Nat.ltb_irrefl, Nat.eqb_refl. }
    rewrite Wup in Hup. rewrite Wcur in Hcur.
    rewrite (Hup (j - 1)), (Hup j), (Hcur (j - 1)) by lia.
    replace (prefix_distance a b i0 j) with (prefix_distance a b (S (i0 - 1)) (S (j - 1)))
      by (f_equal; lia).
    rewrite D_step by lia.
    replace (S (i0 - 1)) with i0 by lia.
    replace (S (j - 1)) with j by lia.
    destruct (char_eqb (nth (i0 - 1) b 0%N) (nth (j - 1) a 0%N)); reflexivity.
Qed.

Lemma lev_matrix_inv : matrix_filled a b (lev_matrix a b) (widths a (S (length b)) 1).
Proof.
  unfold lev_matrix. rewrite init_rows.
  apply outer_loop; [lia|lia|].
  apply Inv_ext with (w := widths a 0 (S (length a))).
  { intros i. unfold widths. simpl.
    destruct (Nat.ltb_spec i 1), (Nat.eqb_spec i 0), (Nat.eqb_spec i 1);
      try reflexivity; lia. }
  change (seq 0 (S (length a))) with (0 :: seq 1 (length a)).
  cbn [fold_left].
  apply row_loop with (i := 0) (f := fun mx j => set_cell mx 0 j j);
    [lia| |lia|lia|].
  - intros mx j _ Lj. now rewrite D_row0 by lia.
  - set (M := map (fun i => [i]) (seq 0 (S (length b)))).
    assert (E: set_cell M 0 0 0 = set_cell M 0 0 (prefix_distance a b 0 0))
      by (now rewrite D_row0 by lia).
    rewrite E.
    apply set_cell_inv with (w := widths a 0 1); [apply init_inv|lia| |].
    + unfold widths. simpl. lia.
    + intros i. unfold widths. simpl. destruct (i =? 0); reflexivity.
Qed.

Lemma levenshteinDistance_lev :
  levenshteinDistance a b = lev (rev b) (rev a).
Proof.
  unfold levenshteinDistance.
  destruct a as [|x a'] eqn:Ea.
  - change (rev []) with (@nil char). now rewrite lev_nil_r, length_rev.
  - destruct b as [|y b'] eqn:Eb.
    + change (rev []) with (@nil char). cbn [lev]. now rewrite length_rev.
    + rewrite <- Ea, <- Eb.
      destruct lev_matrix_inv as [_ H].
      destruct (H (length b)) as [_ Hc]; [lia|].
      rewrite Hc.
      * unfold prefix_distance. now rewrite !firstn_all.
      * unfold widths. replace (length b <? S (length b)) with true; [lia|].
        symmetry. apply Nat.ltb_lt. lia.
Qed.

End Matrix.

(** [levenshteinDistance] computes the Levenshtein distance. *)
Lemma levenshteinDistance_correct (a b : str) :
  is_levenshtein a b (levenshteinDistance a b).
Proof. rewrite levenshteinDistance_lev. apply lev_rev_is_levenshtein. Qed.

(** ** [findSimilar] *)

Lemma similar_fold (test_ : str * SpellInfo -> bool)
    (l : list (str * SpellInfo)) :
  forall acc,
    fold_left (fun results e => if test_ e then results ++ [snd e] else results)
              l acc =
    acc ++ map snd (filter test_ l).
Proof.
  induction l as [|e l IH]; intros acc; simpl.
  - now rewrite app_nil_r.
  - rewrite IH. destruct (test_ e); simpl; [|reflexivity].
    now rewrite <- app_assoc.
Qed.

Lemma findSimilar_filter (toLowerCase : str -> str) (db : SpellDatabase)
    (name : str) (maxDistance : nat) :
  findSimilar toLowerCase db name maxDistance =
  firstn 5 (map snd (filter (similar_to (normalizeName toLowerCase name)
                                        maxDistance) (spells db))).
Proof.
  unfold findSimilar.
  rewrite (similar_fold (similar_to (normalizeName toLowerCase name)
                                    maxDistance)).
  reflexivity.
Qed.

Lemma similar_to_spec (normalized : str) (maxDistance : nat)
    (e : str * SpellInfo) :
  similar_to normalized maxDistance e = true <->
  exists d, is_levenshtein normalized (fst e) d /\ 0 < d <= maxDistance.
Proof.
  unfold similar_to. rewrite andb_true_iff, Nat.leb_le, Nat.ltb_lt. split.
  - intros [H1 H2]. exists (levenshteinDistance normalized (fst e)).
    split; [apply levenshteinDistance_correct|lia].
  - intros (d & Hd & H).
    rewrite (is_levenshtein_unique _ _ _ _
               (levenshteinDistance_correct normalized (fst e)) Hd).
    lia.
Qed.

(** C4 (amended).  [findSimilar] returns, in the order of the table and cut
    to the first 5, the records whose key is at Levenshtein distance [d]
    from the normalized input with [0 < d <= maxDistance].  An entry at
    distance 1 is returned when at most five entries qualify (the cap can
    drop it otherwise), and when no entry is within the distance the result
    is empty. *)
Theorem findSimilar_spec :
  forall toLowerCase db name maxDistance,
    let normalized := normalizeName toLowerCase name in
    let within := filter (similar_to normalized maxDistance) (spells db) in
    findSimilar toLowerCase db name maxDistance = firstn 5 (map snd within)
    /\ (forall e,
           In e within <->
           In e (spells db) /\
           exists d, is_levenshtein normalized (fst e) d
                     /\ 0 < d <= maxDistance)
    /\ (length within <= 5 ->
        forall e, In e (spells db) -> is_levenshtein normalized (fst e) 1 ->
                  1 <= maxDistance ->
                  In (snd e) (findSimilar toLowerCase db name maxDistance))
    /\ ((forall e d, In e (spells db) -> is_levenshtein normalized (fst e) d ->
                     ~ 0 < d <= maxDistance) ->
        findSimilar toLowerCase db name maxDistance = []).
Proof.
  intros toLowerCase db name maxDistance normalized within.
  assert (Hin: forall e,
             In e within <->
             In e (spells db) /\
             exists d, is_levenshtein normalized (fst e) d
                       /\ 0 < d <= maxDistance).
  { intros e. unfold within. rewrite filter_In, similar_to_spec.
    reflexivity. }
  rewrite findSimilar_filter. fold normalized. fold within.
  split; [reflexivity|]. split; [exact Hin|]. split.
  - intros L e He Hd Hm.
    rewrite firstn_all2 by (now rewrite length_map).
    apply in_map, Hin. split; [exact He|]. exists 1. split; [exact Hd|lia].
  - intros Hnone. destruct within as [|e w] eqn:E; [reflexivity|].
    exfalso. assert (He: In e (e :: w)) by now left.
    apply Hin in He as (He & d & Hd & H). exact (Hnone e d He Hd H).
Qed.

Lemma findSimilar_spec_witness :
  let db := fst (loadFromCsv toLowerCaseAscii
                   (Some (csv_of ["12,Fireball"; "13,Frost Nova"]%string))
                   newDb) in
  findSimilar toLowerCaseAscii db (js "frost_nov") 2 =
    [mkSpell 13 (js "Frost Nova") (js "frost_nova")]
  /\ In (mkSpell 13 (js "Frost Nova") (js "frost_nova"))
        (findSimilar toLowerCaseAscii db (js "frost_nov") 2).
Proof.
  intros db.
  destruct (findSimilar_spec toLowerCaseAscii db (js "frost_nov") 2)
    as (H1 & _ & H3 & _).
  split.
  - rewrite H1. vm_compute. reflexivity.
  - apply (H3 ltac:(vm_compute; lia)
              (js "frost_nova", mkSpell 13 (js "Frost Nova") (js "frost_nova"))).
    + vm_compute. right. left. reflexivity.
    + assert (E: levenshteinDistance
                   (normalizeName toLowerCaseAscii (js "frost_nov"))
                   (js "frost_nova") = 1) by (vm_compute; reflexivity).
      rewrite <- E. apply levenshteinDistance_correct.
    + lia.
Defined.

(** C4 as stated fails: in [frost_table] the key [frost_nova] is at distance
    1 from [frost_nov], and it is not returned, because five entries within
    distance 2 stand before it in the table. *)
Lemma near_entry_dropped_by_cap :
  In (js "frost_nova", mkSpell 6 (js "Frost Nova") (js "frost_nova"))
     (spells frost_table)
  /\ is_levenshtein (normalizeName toLowerCaseAscii (js "frost_nov"))
                    (js "frost_nova") 1
  /\ length (findSimilar toLowerCaseAscii frost_table (js "frost_nov") 2) = 5
  /\ ~ In (mkSpell 6 (js "Frost Nova") (js "frost_nova"))
          (findSimilar toLowerCaseAscii frost_table (js "frost_nov") 2).
Proof.
  split; [vm_compute; repeat (try (left; reflexivity); right)|].
  split.
  - assert (E: levenshteinDistance
                 (normalizeName toLowerCaseAscii (js "frost_nov"))
                 (js "frost_nova") = 1) by (vm_compute; reflexivity).
    rewrite <- E. apply levenshteinDistance_correct.
  - split; [vm_compute; reflexivity|].
    vm_compute. intros H.
    repeat (destruct H as [H|H]; [discriminate H|]). exact H.
Qed.

(** ** Matches are never empty where the scan relies on it *)

Lemma lit_match_length (eqc : char -> char -> bool) (l : str) :
  forall prev s q,
    lit_match eqc l prev s = Some q -> length s = length l + length (snd q).
Proof.
  induction l as [|a l IH]; intros prev s q H; simpl in H.
  - inversion H. reflexivity.
  - destruct s as [|x s]; [discriminate|].
    destruct (eqc a x); [|discriminate].
    apply IH in H. simpl. lia.
Qed.

Lemma m_consumes (r : regex) :
  forall k p c res,
    m r k p c = Some res ->
    exists p1 c1, k p1 c1 = Some res /\
                  length (snd p1) + min_len r <= length (snd p).
Proof.
  induction r as [l|l|q|q min|r1 IH1 r2 IH2|r1 IH1 r2 IH2|n r IH| | | ];
    intros k p c res H; cbn [m] in H; cbn [min_len].
  - destruct (lit_match char_eqb l (fst p) (snd p)) as [q|] eqn:L;
      [|discriminate].
    apply lit_match_length in L. exists q, c. split; [exact H|lia].
  - destruct (lit_match char_eqb_i l (fst p) (snd p)) as [q|] eqn:L;
      [|discriminate].
    apply lit_match_length in L. exists q, c. split; [exact H|lia].
  - destruct (snd p) as [|x s]; [discriminate|].
    destruct (q x); [|discriminate].
    exists (Some x, s), c. split; [exact H|simpl; lia].
  - apply rep_inv in H as (s1 & s2 & E & _ & L & H).
    exists (last_of s1 (fst p), s2), c. split; [exact H|].
    cbn [m] in E. rewrite E, length_app. cbn [snd]. lia.
  - apply IH1 in H as (p1 & c1 & H & L1).
    apply IH2 in H as (p2 & c2 & H & L2).
    exists p2, c2. split; [exact H|lia].
  - destruct (m r1 k p c) as [x|] eqn:E.
    + inversion H; subst x. apply IH1 in E as (p1 & c1 & E & L).
      exists p1, c1. split; [exact E|lia].
    + apply IH2 in H as (p1 & c1 & H & L).
      exists p1, c1. split; [exact H|lia].
  - apply IH in H as (p1 & c1 & H & L).
    exists p1, (setcap n (consumed p p1) c1). split; [exact H|exact L].
  - destruct (fst p); [discriminate|]. exists p, c. split; [exact H|lia].
  - destruct (snd p) eqn:E; [|discriminate]. exists p, c.
    split; [exact H|rewrite E; simpl; lia].
  - destruct (xorb (word_before p) (word_after p)); [|discriminate].
    exists p, c. split; [exact H|lia].
Qed.

Lemma match_at_length (r : regex) (prev : option char) (s : str) (idx : nat)
    (mt : Match) :
  match_at r prev s idx = Some mt -> min_len r <= length (m_text mt).
Proof.
  unfold match_at.
  destruct (m r accept (prev, s) []) as [[p' c]|] eqn:H; [|discriminate].
  intros E. inversion E; subst mt; clear E. cbn [m_text].
  apply m_consumes in H as (p1 & c1 & A & L).
  unfold accept in A. inversion A; subst p1 c1.
  unfold consumed. cbn [snd] in *. rewrite length_firstn. lia.
Qed.

(** No regex used in a scanning loop of the source matches the empty
    string. *)
Lemma global_matches_nonempty :
  forall r prev s idx mt,
    In r global_regexes -> match_at r prev s idx = Some mt -> m_text mt <> [].
Proof.
  intros r prev s idx mt Hin H. apply match_at_length in H.
  assert (L: 1 <= min_len r).
  { clear H. revert r Hin. apply Forall_forall. unfold global_regexes.
    repeat (apply Forall_cons; [vm_compute; lia|]). constructor. }
  destruct (m_text mt); [simpl in H; lia|discriminate].
Qed.

(** The four kinds of unresolved-reference findings, in one document. *)
Lemma unresolved_reference_examples :
  let db := fst (loadFromCsv toLowerCaseAscii
                   (Some (csv_of ["133,Fireball"]%string)) newDb) in
  map (fun d => (severity d, message d))
      (updateDiagnostics toLowerCaseAscii db
         (map js ["  - firebal,if=var.x&config.y";
                  "  - run_action_list,name=aoe"]%string)) =
  [ (Warning, js "Unknown spell: " ++ dq ++ js "firebal" ++ dq
              ++ js ". Did you mean: fireball?");
    (Warning, js "Config variable " ++ dq ++ js "y" ++ dq
              ++ js " is not defined");
    (Warning, js "Variable " ++ dq ++ js "x" ++ dq ++ js " is not defined");
    (Error, js "Action list " ++ dq ++ js "aoe" ++ dq
            ++ js " is not defined") ].
Proof. vm_compute. reflexivity. Qed.

(** ** [levenshteinDistance] is a metric *)

Lemma edits_refl (s : str) : edits s s 0.
Proof. induction s; constructor; assumption. Qed.

Lemma edits_zero (s t : str) (n : nat) : edits s t n -> n = 0 -> s = t.
Proof.
  induction 1 as [|x s t n H IH|x y s t n H IH|x s t n H IH|y s t n H IH];
    intros E; try discriminate; try reflexivity.
  f_equal. exact (IH E).
Qed.

Lemma edits_trans (a b : str) (n : nat) :
  edits a b n ->
  forall c m, edits b c m -> exists k, k <= n + m /\ edits a c k.
Proof.
  induction 1 as [|x a b n H IH|x y a b n H IH|x a b n H IH|y a b n H IH].
  - intros c m H2. exists m. split; [lia | exact H2].
  - intros c m H2. remember (x :: b) as b0 eqn:Eb.
    induction H2 as [|z s t m H2 _|z w s t m H2 _|z s t m H2 _|w s t m H2 IH2];
      try discriminate.
    + injection Eb as -> ->.
      destruct (IH _ _ H2) as (k & Hk & Hk'). exists k.
      split; [lia | constructor; exact Hk'].
    + injection Eb as -> ->.
      destruct (IH _ _ H2) as (k & Hk & Hk'). exists (S k).
      split; [lia | constructor; exact Hk'].
    + injection Eb as -> ->.
      destruct (IH _ _ H2) as (k & Hk & Hk'). exists (S k).
      split; [lia | constructor; exact Hk'].
    + destruct (IH2 Eb) as (k & Hk & Hk'). exists (S k).
      split; [lia | constructor; exact Hk'].
  - intros c m H2. remember (y :: b) as b0 eqn:Eb.
    induction H2 as [|z s t m H2 _|z w s t m H2 _|z s t m H2 _|w s t m H2 IH2];
      try discriminate.
    + injection Eb as -> ->.
      destruct (IH _ _ H2) as (k & Hk & Hk'). exists (S k).
      split; [lia | constructor; exact Hk'].
    + injection Eb as -> ->.
      destruct (IH _ _ H2) as (k & Hk & Hk'). exists (S k).
      split; [lia | apply ed_subst; exact Hk'].
    + injection Eb as -> ->.
      destruct (IH _ _ H2) as (k & Hk & Hk'). exists (S k).
      split; [lia | constructor; exact Hk'].
    + destruct (IH2 Eb) as (k & Hk & Hk'). exists (S k).
      split; [lia | constructor; exact Hk'].
  - intros c m H2. destruct (IH _ _ H2) as (k & Hk & Hk'). exists (S k).
    split; [lia | constructor; exact Hk'].
  - intros c m H2. remember (y :: b) as b0 eqn:Eb.
    induction H2 as [|z s t m H2 _|z w s t m H2 _|z s t m H2 _|w s t m H2 IH2];
      try discriminate.
    + injection Eb as -> ->.
      destruct (IH _ _ H2) as (k & Hk & Hk'). exists (S k).
      split; [lia | constructor; exact Hk'].
    + injection Eb as -> ->.
      destruct (IH _ _ H2) as (k & Hk & Hk'). exists (S k).
      split; [lia | apply ed_ins; exact Hk'].
    + injection Eb as -> ->.
      destruct (IH _ _ H2) as (k & Hk & Hk'). exists k.
      split; [lia | exact Hk'].
    + destruct (IH2 Eb) as (k & Hk & Hk'). exists (S k).
      split; [lia | constructor; exact Hk'].
Qed.

Lemma edits_lengths (s t : str) (n : nat) :
  edits s t n -> length s <= length t + n /\ length t <= length s + n.
Proof. induction 1; simpl; lia. Qed.

Lemma edits_max (s : str) : forall t, edits s t (Nat.max (length s) (length t)).
Proof.
  induction s as [|x s IH]; intros t.
  - simpl. induction t as [|y t IHt]; simpl; constructor. exact IHt.
  - destruct t as [|y t].
    + simpl. apply ed_del. specialize (IH []). simpl in IH.
      rewrite Nat.max_0_r in IH. exact IH.
    + simpl. apply ed_subst. apply IH.
Qed.

(** X1. Two strings are at distance 0 exactly when they are equal, so
    [findSimilar], which keeps the distances above 0, leaves out the entry
    that is the normalized name itself. *)
Theorem levenshteinDistance_zero_iff_equal (a b : str) :
  levenshteinDistance a b = 0 <-> a = b.
Proof.
  destruct (levenshteinDistance_correct a b) as [H Hmin]. split.
  - intros E. exact (edits_zero _ _ _ H E).
  - intros ->. specialize (Hmin 0 (edits_refl b)). lia.
Qed.

(** X2. The distance does not depend on the order of its arguments, though
    the matrix is filled with the roles of [a] and [b] exchanged. *)
Theorem levenshteinDistance_symmetric (a b : str) :
  levenshteinDistance a b = levenshteinDistance b a.
Proof.
  destruct (levenshteinDistance_correct a b) as [H Hmin].
  destruct (levenshteinDistance_correct b a) as [H' Hmin'].
  apply edits_sym in H, H'. apply Hmin in H'. apply Hmin' in H. lia.
Qed.

(** X3. Triangle inequality: going through a third string is never
    shorter. *)
Theorem levenshteinDistance_triangle (a b c : str) :
  levenshteinDistance a c <= levenshteinDistance a b + levenshteinDistance b c.
Proof.
  destruct (levenshteinDistance_correct a b) as [Hab _].
  destruct (levenshteinDistance_correct b c) as [Hbc _].
  destruct (levenshteinDistance_correct a c) as [_ Hmin].
  destruct (edits_trans _ _ _ Hab _ _ Hbc) as (k & Hk & Hk').
  apply Hmin in Hk'. lia.
Qed.

(** X4. The distance lies between the difference of the two lengths and the
    larger of them. *)
Theorem levenshteinDistance_bounds (a b : str) :
  length a - length b <= levenshteinDistance a b /\
  length b - length a <= levenshteinDistance a b /\
  levenshteinDistance a b <= Nat.max (length a) (length b).
Proof.
  destruct (levenshteinDistance_correct a b) as [H Hmin].
  apply edits_lengths in H. pose proof (Hmin _ (edits_max a b)). lia.
Qed.

(** ** The tables of the database *)

Section MapFacts.

Variables (K V : Type) (eqb : K -> K -> bool).
Hypothesis eqb_eq : forall a b, eqb a b = true <-> a = b.

Lemma eqb_refl_of (k : K) : eqb k k = true.
Proof. now apply eqb_eq. Qed.

Lemma map_has_In (k : K) (l : list (K * V)) :
  map_has eqb k l = true <-> In k (map fst l).
Proof.
  unfold map_has. rewrite existsb_exists, in_map_iff. split.
  - intros (e & He & E). apply eqb_eq in E. now exists e.
  - intros (e & E & He). exists e. split; [exact He|]. now apply eqb_eq.
Qed.

Lemma map_set_In (k : K) (v : V) (l : list (K * V)) (e : K * V) :
  In e (map_set eqb k v l) -> e = (k, v) \/ In e l.
Proof.
  induction l as [|[k0 v0] l IH]; simpl.
  - intros [<-|[]]. now left.
  - destruct (eqb k0 k); simpl.
    + intros [<-|H]; [now left|now right; right].
    + intros [<-|H]; [now right; left|].
      destruct (IH H) as [->|H']; [now left|now right; right].
Qed.

Lemma map_set_keys (k : K) (v : V) (l : list (K * V)) :
  map fst (map_set eqb k v l) =
  if map_has eqb k l then map fst l else map fst l ++ [k].
Proof.
  induction l as [|[k0 v0] l IH]; simpl; [reflexivity|].
  destruct (eqb k0 k) eqn:E; simpl.
  - apply eqb_eq in E. now subst k0.
  - rewrite IH. unfold map_has. now destruct (existsb _ l).
Qed.

Lemma map_set_NoDup (k : K) (v : V) (l : list (K * V)) :
  NoDup (map fst l) -> NoDup (map fst (map_set eqb k v l)).
Proof.
  intros H. rewrite map_set_keys. destruct (map_has eqb k l) eqn:E; [exact H|].
  apply NoDup_app; [exact H| repeat constructor; intros [] |].
  intros x Hx [<-|[]]. apply map_has_In in Hx. congruence.
Qed.

Lemma map_has_map_set (k k' : K) (v : V) (l : list (K * V)) :
  map_has eqb k' (map_set eqb k v l) = map_has eqb k' l || eqb k k'.
Proof.
  unfold map_has. induction l as [|[k0 v0] l IH]; simpl.
  - now rewrite orb_false_r.
  - destruct (eqb k0 k) eqn:E; simpl.
    + apply eqb_eq in E. subst k0.
      destruct (eqb k k'); simpl; [reflexivity|now rewrite orb_false_r].
    + rewrite IH. now destruct (eqb k0 k').
Qed.

Lemma map_get_map_set (k k' : K) (v : V) (l : list (K * V)) :
  map_get eqb k' (map_set eqb k v l) =
  if eqb k k' then Some v else map_get eqb k' l.
Proof.
  induction l as [|[k0 v0] l IH]; simpl; [reflexivity|].
  destruct (eqb k0 k) eqn:E; simpl.
  - apply eqb_eq in E. subst k0. now destruct (eqb k k').
  - rewrite IH. destruct (eqb k0 k') eqn:E0, (eqb k k') eqn:E1; try reflexivity.
    apply eqb_eq in E0, E1. subst. rewrite eqb_refl_of in E. discriminate.
Qed.

Lemma map_get_In (k : K) (v : V) (l : list (K * V)) :
  NoDup (map fst l) -> In (k, v) l -> map_get eqb k l = Some v.
Proof.
  induction l as [|[k0 v0] l IH]; simpl; [intros _ []|].
  intros N [E|H].
  - injection E as -> ->. now rewrite eqb_refl_of.
  - inversion N as [|? ? N1 N2]; subst.
    destruct (eqb k0 k) eqn:E.
    + apply eqb_eq in E. subst k0. exfalso. apply N1.
      apply in_map_iff. now exists (k, v).
    + now apply IH.
Qed.

Lemma map_get_Some (k : K) (v : V) (l : list (K * V)) :
  map_get eqb k l = Some v -> In (k, v) l.
Proof.
  induction l as [|[k0 v0] l IH]; simpl; [discriminate|].
  destruct (eqb k0 k) eqn:E.
  - apply eqb_eq in E. subst k0. intros [= ->]. now left.
  - intros H. right. now apply IH.
Qed.

Lemma map_has_get (k : K) (l : list (K * V)) :
  map_has eqb k l = true <-> exists v, map_get eqb k l = Some v.
Proof.
  unfold map_has. induction l as [|[k0 v0] l IH]; simpl.
  - split; [discriminate|intros [v H]; discriminate].
  - destruct (eqb k0 k); simpl; [|exact IH].
    split; [intros _; now exists v0|reflexivity].
Qed.

Lemma map_set_length (k : K) (v : V) (l : list (K * V)) :
  length (map_set eqb k v l) =
  if map_has eqb k l then length l else S (length l).
Proof.
  rewrite <- (length_map fst), map_set_keys.
  destruct (map_has eqb k l); rewrite ?length_app, length_map; simpl; lia.
Qed.

(** A run of [set] calls. *)
Lemma sets_get (k : K) (ops : list (K * V)) :
  forall l,
    map_get eqb k (fold_left (fun l o => map_set eqb (fst o) (snd o) l) ops l)
    = last_set eqb k ops (map_get eqb k l).
Proof.
  unfold last_set.
  induction ops as [|[k0 v0] ops IH]; intros l; simpl; [reflexivity|].
  now rewrite IH, map_get_map_set.
Qed.

Lemma last_set_absorbs (k : K) (ops : list (K * V)) (x : option V) :
  last_set eqb k ops (last_set eqb k ops x) = last_set eqb k ops x.
Proof.
  assert (G: forall x, last_set eqb k ops x = x \/
                       forall y, last_set eqb k ops y = last_set eqb k ops x).
  { unfold last_set. clear x.
    induction ops as [|[k0 v0] ops IH]; intros x; simpl; [now left|].
    destruct (eqb k0 k); [right; reflexivity|apply IH]. }
  destruct (G x) as [E|E]; [now rewrite !E|apply E].
Qed.

Lemma sets_keys_grow (ops : list (K * V)) :
  forall l,
    exists more,
      map fst (fold_left (fun l o => map_set eqb (fst o) (snd o) l) ops l)
      = map fst l ++ more.
Proof.
  induction ops as [|[k0 v0] ops IH]; intros l; simpl.
  - exists []. now rewrite app_nil_r.
  - destruct (IH (map_set eqb k0 v0 l)) as [more E]. rewrite E.
    rewrite map_set_keys. destruct (map_has eqb k0 l).
    + now exists more.
    + exists (k0 :: more). now rewrite <- app_assoc.
Qed.

Lemma sets_keys_present (ops : list (K * V)) :
  forall l,
    (forall o, In o ops -> In (fst o) (map fst l)) ->
    map fst (fold_left (fun l o => map_set eqb (fst o) (snd o) l) ops l)
    = map fst l.
Proof.
  induction ops as [|[k0 v0] ops IH]; intros l H; simpl; [reflexivity|].
  assert (E: map fst (map_set eqb k0 v0 l) = map fst l).
  { rewrite map_set_keys.
    assert (Hk: map_has eqb k0 l = true)
      by (apply map_has_In; apply (H (k0, v0)); now left).
    now rewrite Hk. }
  rewrite IH; [exact E|]. intros o Ho. rewrite E. apply H. now right.
Qed.

Lemma sets_keys_all (ops : list (K * V)) :
  forall l o,
    In o ops ->
    In (fst o)
       (map fst (fold_left (fun l o => map_set eqb (fst o) (snd o) l) ops l)).
Proof.
  induction ops as [|[k0 v0] ops IH]; intros l o; simpl; [intros []|].
  intros [<-|H]; [|now apply IH].
  destruct (sets_keys_grow ops (map_set eqb k0 v0 l)) as [more ->].
  apply in_or_app. left. rewrite map_set_keys. simpl.
  destruct (map_has eqb k0 l) eqn:E.
  - now apply map_has_In.
  - apply in_or_app. right. now left.
Qed.

Lemma sets_NoDup (ops : list (K * V)) :
  forall l,
    NoDup (map fst l) ->
    NoDup (map fst (fold_left (fun l o => map_set eqb (fst o) (snd o) l)
                              ops l)).
Proof.
  induction ops as [|[k0 v0] ops IH]; intros l H; simpl; [exact H|].
  apply IH. now apply map_set_NoDup.
Qed.

(** Two maps with the same keys in the same order and the same values. *)
Lemma map_ext (l1 : list (K * V)) :
  forall l2,
    NoDup (map fst l1) ->
    map fst l1 = map fst l2 ->
    (forall k, map_get eqb k l1 = map_get eqb k l2) ->
    l1 = l2.
Proof.
  induction l1 as [|[k1 v1] l1 IH]; intros [|[k2 v2] l2] N E G;
    try discriminate; [reflexivity|].
  simpl in E. injection E as -> E. inversion N as [|? ? N1 N2]; subst.
  pose proof (G k2) as G2. simpl in G2. rewrite eqb_refl_of in G2.
  injection G2 as ->. f_equal. apply IH; [exact N2|exact E|].
  intros k. specialize (G k). simpl in G.
  destruct (eqb k2 k) eqn:Ek; [|exact G].
  apply eqb_eq in Ek. subst k.
  assert (A: forall l : list (K * V),
            ~ In k2 (map fst l) -> map_get eqb k2 l = None).
  { intros l Hl. destruct (map_get eqb k2 l) eqn:Eg; [|reflexivity].
    apply map_get_Some in Eg. exfalso. apply Hl.
    apply in_map_iff. now exists (k2, v). }
  rewrite (A l1 N1). rewrite (A l2); [reflexivity|now rewrite <- E].
Qed.

Lemma sets_twice (ops : list (K * V)) (l : list (K * V)) :
  NoDup (map fst l) ->
  let run := fold_left (fun l o => map_set eqb (fst o) (snd o) l) ops in
  run (run l) = run l.
Proof.
  intros N run. subst run. cbv beta.
  set (l1 := fold_left _ ops l).
  assert (Ek: map fst (fold_left (fun l o => map_set eqb (fst o) (snd o) l)
                                 ops l1) = map fst l1).
  { apply sets_keys_present. intros o Ho. now apply sets_keys_all. }
  apply map_ext.
  - rewrite Ek. now apply sets_NoDup.
  - exact Ek.
  - intros k. rewrite sets_get. unfold l1. rewrite sets_get.
    apply last_set_absorbs.
Qed.

End MapFacts.

Lemma Z_eqb_eq (a b : Z) : Z.eqb a b = true <-> a = b.
Proof. apply Z.eqb_eq. Qed.
(** ** Loading *)

Lemma load_row_entry (toLowerCase : str -> str) (idIndex nameIndex : nat)
    (db : SpellDatabase) (row : str) :
  load_row toLowerCase idIndex nameIndex db row =
  match row_entry idIndex nameIndex row with
  | Some e => add_spell toLowerCase db e
  | None => db
  end.
Proof.
  unfold load_row, row_entry. destruct (trim row) as [|c line]; [reflexivity|].
  destruct (length (parseCsvLine (c :: line)) <=? Nat.max idIndex nameIndex);
    [reflexivity|].
  destruct (nth idIndex (parseCsvLine (c :: line)) []); [reflexivity|].
  destruct (nth nameIndex (parseCsvLine (c :: line)) []); [reflexivity|].
  destruct (parseInt _); reflexivity.
Qed.

Lemma fold_load_rows (toLowerCase : str -> str) (idIndex nameIndex : nat)
    (rows : list str) :
  forall db,
    fold_left (load_row toLowerCase idIndex nameIndex) rows db =
    fold_left (add_spell toLowerCase) (entries idIndex nameIndex rows) db.
Proof.
  induction rows as [|row rows IH]; intros db; simpl; [reflexivity|].
  unfold entries in *. rewrite fold_left_app, IH, load_row_entry.
  now destruct (row_entry idIndex nameIndex row).
Qed.

Lemma fold_add_spells (toLowerCase : str -> str) (es : list (Z * str)) :
  forall db,
    let db' := fold_left (add_spell toLowerCase) es db in
    spells db' =
    fold_left (fun l o => map_set str_eqb (fst o) (snd o) l)
      (map (fun e => (normalizeName toLowerCase (snd e),
                      spell_of toLowerCase e)) es)
      (spells db)
    /\ spellsById db' =
       fold_left (fun l o => map_set Z.eqb (fst o) (snd o) l)
         (map (fun e => (fst e, spell_of toLowerCase e)) es)
         (spellsById db)
    /\ loaded db' = loaded db.
Proof.
  induction es as [|e es IH]; intros db; simpl; [auto|].
  destruct (IH (add_spell toLowerCase db e)) as (E1 & E2 & E3).
  simpl in E1, E2, E3. now rewrite E1, E2, E3.
Qed.

Lemma ltb_sub (a b : nat) : (0 <? a - b) = (b <? a).
Proof.
  destruct (Nat.ltb_spec 0 (a - b)), (Nat.ltb_spec b a); try reflexivity; lia.
Qed.

(** [loadFromCsv] either gives up before the first row, or runs the rows
    and sets the flag. *)
Lemma loadFromCsv_cases (toLowerCase : str -> str) (file : option str)
    (db : SpellDatabase) :
  loadFromCsv toLowerCase file db = (db, false) \/
  exists es,
    let db' := fold_left (add_spell toLowerCase) es db in
    loadFromCsv toLowerCase file db =
    (mkDb (spells db') (spellsById db') true,
     length (spells db) <? length (spells db')).
Proof.
  unfold loadFromCsv. destruct file as [content|]; [|now left].
  destruct (split re_newline content) as [|header_line rows]; [now left|].
  destruct (findIndex _ _) as [idIndex|]; [|now left].
  destruct (findIndex _ _) as [nameIndex|]; [|now left].
  right. exists (entries idIndex nameIndex rows). cbv zeta.
  now rewrite ltb_sub, fold_load_rows.
Qed.

Lemma add_spell_consistent (toLowerCase : str -> str) (db : SpellDatabase)
    (e : Z * str) :
  consistent toLowerCase db -> consistent toLowerCase (add_spell toLowerCase db e).
Proof.
  unfold consistent. intros (H1 & H2 & H3 & H4). simpl.
  rewrite Forall_forall in H1, H3. repeat split.
  - apply Forall_forall. intros x Hx.
    apply (map_set_In _ _ str_eqb) in Hx as [->|Hx]; simpl.
    + repeat split. rewrite (map_has_map_set _ _ Z.eqb Z_eqb_eq).
      rewrite Z.eqb_refl. apply orb_true_r.
    + destruct (H1 x Hx) as (A & B & C). repeat split; try assumption.
      rewrite (map_has_map_set _ _ Z.eqb Z_eqb_eq), C. reflexivity.
  - apply (map_set_NoDup _ _ str_eqb str_eqb_eq). exact H2.
  - apply Forall_forall. intros x Hx.
    apply (map_set_In _ _ Z.eqb) in Hx as [->|Hx]; simpl.
    + repeat split. rewrite (map_has_map_set _ _ str_eqb str_eqb_eq).
      assert (E: forall k, str_eqb k k = true) by (intros k; now apply str_eqb_eq).
      rewrite E. apply orb_true_r.
    + destruct (H3 x Hx) as (A & B & C). repeat split; try assumption.
      rewrite (map_has_map_set _ _ str_eqb str_eqb_eq), C. reflexivity.
  - apply (map_set_NoDup _ _ Z.eqb Z_eqb_eq). exact H4.
Qed.

Lemma add_spells_consistent (toLowerCase : str -> str) (es : list (Z * str)) :
  forall db,
    consistent toLowerCase db ->
    consistent toLowerCase (fold_left (add_spell toLowerCase) es db).
Proof.
  induction es as [|e es IH]; intros db H; simpl; [exact H|].
  apply IH. now apply add_spell_consistent.
Qed.

Lemma loadFromCsv_consistent (toLowerCase : str -> str) (file : option str)
    (db : SpellDatabase) :
  consistent toLowerCase db ->
  consistent toLowerCase (fst (loadFromCsv toLowerCase file db)).
Proof.
  intros H. destruct (loadFromCsv_cases toLowerCase file db) as [->|[es E]];
    [exact H|].
  cbv zeta in E. rewrite E. simpl.
  exact (add_spells_consistent toLowerCase es db H).
Qed.

Lemma load_all_consistent (toLowerCase : str -> str)
    (files : list (option str)) (db : SpellDatabase) :
  consistent toLowerCase db ->
  consistent toLowerCase (fst (load_all toLowerCase files db)).
Proof.
  unfold load_all. generalize false as any. revert db.
  induction files as [|file files IH]; intros db any H; simpl; [exact H|].
  pose proof (loadFromCsv_consistent toLowerCase file db H) as H'.
  destruct (loadFromCsv toLowerCase file db) as [db' result]. apply IH. exact H'.
Qed.

Lemma load_first_consistent (toLowerCase : str -> str)
    (files : list (option str)) :
  forall db,
    consistent toLowerCase db ->
    consistent toLowerCase (fst (load_first toLowerCase files db)).
Proof.
  induction files as [|file files IH]; intros db H; simpl; [exact H|].
  pose proof (loadFromCsv_consistent toLowerCase file db H) as H'.
  destruct (loadFromCsv toLowerCase file db) as [db' result].
  destruct result; [exact H'|apply IH; exact H'].
Qed.

Lemma autoLoad_consistent (toLowerCase : str -> str)
    (workspace : option (list (option str))) (bundled : list (option str))
    (db : SpellDatabase) :
  consistent toLowerCase db ->
  consistent toLowerCase (fst (autoLoad toLowerCase workspace bundled db)).
Proof.
  intros H. unfold autoLoad. destruct workspace as [files|]; [|exact H].
  pose proof (load_all_consistent toLowerCase files db H) as H'.
  destruct (load_all toLowerCase files db) as [db' loadedAny].
  destruct loadedAny; [exact H'|].
  now apply load_first_consistent.
Qed.

Lemma newDb_consistent (toLowerCase : str -> str) :
  consistent toLowerCase (mkDb [] [] false).
Proof. repeat split; constructor. Qed.

Lemma reachable_consistent (toLowerCase : str -> str) (db : SpellDatabase) :
  reachable toLowerCase db -> consistent toLowerCase db.
Proof.
  induction 1.
  - apply newDb_consistent.
  - now apply loadFromCsv_consistent.
  - now apply autoLoad_consistent.
  - unfold reload. apply autoLoad_consistent, newDb_consistent.
Qed.

(** X5. Whatever was loaded, and however often: each record of the name
    table is stored under its own normalized name, which is the normalized
    form of its display name; each record of the id table is stored under
    its own id; no key occurs twice; the name of every record of the id
    table is a key of the name table and the id of every record of the
    name table is a key of the id table; and every name handed out by
    [getAllSpellNames] has the normalized shape. *)
Theorem tables_consistent (toLowerCase : str -> str) (db : SpellDatabase) :
  reachable toLowerCase db ->
  consistent toLowerCase db /\
  NoDup (getAllSpellNames db) /\
  Forall (fun key => normalized key = true) (getAllSpellNames db).
Proof.
  intros H. apply reachable_consistent in H. split; [exact H|].
  destruct H as (H1 & H2 & _). split; [exact H2|].
  unfold getAllSpellNames. apply Forall_map.
  revert H1. apply Forall_impl. intros [k r] (A & B & _). simpl in *.
  rewrite A, B. apply normalizeName_normalized.
Qed.

Lemma tables_consistent_witness :
  consistent toLowerCaseAscii frost_table /\
  NoDup (getAllSpellNames frost_table) /\
  Forall (fun key => normalized key = true) (getAllSpellNames frost_table).
Proof.
  apply (tables_consistent toLowerCaseAscii frost_table).
  unfold frost_table. apply reach_loadFromCsv. apply reach_new.
Defined.

(** ** Queries *)

(** X6. In a database the extension can hold, a record of the name table is
    found again by its display name and its id is known to the id table; a
    record of the id table is found again by its id, and its name is
    accepted by [isValidSpell]. *)
Theorem records_are_found (toLowerCase : str -> str) (db : SpellDatabase) :
  reachable toLowerCase db ->
  (forall key r, In (key, r) (spells db) ->
     getSpell toLowerCase db (name r) = Some r /\
     isValidSpell toLowerCase db (name r) = true /\
     exists r', getSpellById db (id r) = Some r' /\ id r' = id r) /\
  (forall i r, In (i, r) (spellsById db) ->
     getSpellById db i = Some r /\ id r = i /\
     isValidSpell toLowerCase db (name r) = true).
Proof.
  intros H. apply reachable_consistent in H.
  destruct H as (H1 & H2 & H3 & H4). rewrite Forall_forall in H1, H3. split.
  - intros key r Hr. destruct (H1 _ Hr) as (A & B & C). simpl in *.
    assert (G: getSpell toLowerCase db (name r) = Some r).
    { unfold getSpell. rewrite <- B, <- A.
      now apply (map_get_In _ _ str_eqb str_eqb_eq). }
    split; [exact G|]. split.
    + unfold isValidSpell. destruct (negb (loaded db)); [reflexivity|].
      apply (map_has_get _ _ str_eqb). exists r. exact G.
    + apply (map_has_get _ _ Z.eqb) in C as [r' Hr'].
      exists r'. split; [exact Hr'|].
      apply (map_get_Some _ _ Z.eqb Z_eqb_eq) in Hr'.
      destruct (H3 _ Hr') as (A' & _). simpl in A'. now rewrite <- A'.
  - intros i r Hr. destruct (H3 _ Hr) as (A & B & C). simpl in *.
    split; [now apply (map_get_In _ _ Z.eqb Z_eqb_eq)|].
    split; [now rewrite A|].
    unfold isValidSpell. destruct (negb (loaded db)); [reflexivity|].
    now rewrite <- B.
Qed.

Lemma records_are_found_witness :
  (forall key r, In (key, r) (spells frost_table) ->
     getSpell toLowerCaseAscii frost_table (name r) = Some r /\
     isValidSpell toLowerCaseAscii frost_table (name r) = true /\
     exists r', getSpellById frost_table (id r) = Some r' /\ id r' = id r) /\
  (forall i r, In (i, r) (spellsById frost_table) ->
     getSpellById frost_table i = Some r /\ id r = i /\
     isValidSpell toLowerCaseAscii frost_table (name r) = true).
Proof.
  apply (records_are_found toLowerCaseAscii frost_table).
  unfold frost_table. apply reach_loadFromCsv. apply reach_new.
Defined.

Lemma searchSpells_loop_spec (toLowerCase : str -> str) (prefix : str)
    (limit : Z) (l : list (str * SpellInfo)) :
  forall results,
    length results < Z.to_nat (Z.max 1 limit) ->
    searchSpells_loop toLowerCase (normalizeName toLowerCase prefix)
      (toLowerCase prefix) limit l results =
    results ++
    firstn (Z.to_nat (Z.max 1 limit) - length results)
      (map snd (filter (search_hit toLowerCase prefix) l)).
Proof.
  induction l as [|[key spell] l IH]; intros results Hlen; simpl.
  - now rewrite firstn_nil, app_nil_r.
  - unfold search_hit at 1. simpl.
    destruct (startsWith key (normalizeName toLowerCase prefix)
              || includes (toLowerCase (name spell)) (toLowerCase prefix)).
    + rewrite length_app. simpl.
      destruct (Z.leb_spec limit (Z.of_nat (length results + 1))) as [L|L].
      * replace (Z.to_nat (Z.max 1 limit) - length results) with 1 by lia.
        reflexivity.
      * rewrite IH by (rewrite length_app; simpl; lia).
        rewrite length_app. simpl.
        replace (Z.to_nat (Z.max 1 limit) - length results)
          with (S (Z.to_nat (Z.max 1 limit) - (length results + 1))) by lia.
        simpl. now rewrite <- app_assoc.
    + now apply IH.
Qed.

(** X7. [searchSpells] returns, in the order of the table, the first
    [limit] records whose key starts with the normalized prefix or whose
    lower-cased display name contains the lower-cased prefix; because the
    count is compared after the push, a limit of zero or less still gives
    one record. *)
Theorem searchSpells_spec (toLowerCase : str -> str) (db : SpellDatabase)
    (prefix : str) (limit : Z) :
  searchSpells toLowerCase db prefix limit =
  firstn (Z.to_nat (Z.max 1 limit))
    (map snd (filter (search_hit toLowerCase prefix) (spells db))).
Proof.
  unfold searchSpells. rewrite searchSpells_loop_spec by (simpl; lia).
  simpl. now rewrite Nat.sub_0_r.
Qed.

Lemma firstn_In (A : Type) (n : nat) (l : list A) (x : A) :
  In x (firstn n l) -> In x l.
Proof.
  intros H. rewrite <- (firstn_skipn n l). apply in_or_app. now left.
Qed.

Lemma findSimilar_from_table (toLowerCase : str -> str) (db : SpellDatabase)
    (name : str) (maxDistance : nat) (r : SpellInfo) :
  In r (findSimilar toLowerCase db name maxDistance) ->
  exists key, In (key, r) (spells db).
Proof.
  rewrite findSimilar_filter. intros H. apply firstn_In in H.
  apply in_map_iff in H as ([key r'] & <- & H). apply filter_In in H as [H _].
  now exists key.
Qed.

Lemma searchSpells_from_table (toLowerCase : str -> str) (db : SpellDatabase)
    (prefix : str) (limit : Z) (r : SpellInfo) :
  In r (searchSpells toLowerCase db prefix limit) ->
  exists key, In (key, r) (spells db).
Proof.
  unfold searchSpells. rewrite searchSpells_loop_spec by (simpl; lia).
  simpl. intros H. apply firstn_In in H.
  apply in_map_iff in H as ([key r'] & <- & H). apply filter_In in H as [H _].
  now exists key.
Qed.

(** X8. What the database proposes it also accepts: the normalized name of
    every record returned by [findSimilar] (the text of a did-you-mean
    suggestion) or by [searchSpells] (the label of a completion) is a valid
    spell name, and looking it up gives that record. *)
Theorem proposals_are_valid (toLowerCase : str -> str) (db : SpellDatabase)
    (query : str) (maxDistance : nat) (limit : Z) (r : SpellInfo) :
  (forall s, forallb is_key_char s = true -> toLowerCase s = s) ->
  reachable toLowerCase db ->
  In r (findSimilar toLowerCase db query maxDistance)
  \/ In r (searchSpells toLowerCase db query limit) ->
  isValidSpell toLowerCase db (normalizedName r) = true /\
  getSpell toLowerCase db (normalizedName r) = Some r.
Proof.
  intros Hlow Hdb Hr.
  assert (Hk: exists key, In (key, r) (spells db)).
  { destruct Hr as [Hr|Hr];
      [eapply findSimilar_from_table|eapply searchSpells_from_table];
      exact Hr. }
  destruct Hk as [key Hk]. apply reachable_consistent in Hdb.
  destruct Hdb as (H1 & H2 & _). rewrite Forall_forall in H1.
  destruct (H1 _ Hk) as (A & B & _). simpl in *.
  assert (N: normalizeName toLowerCase (normalizedName r) = normalizedName r).
  { apply normalizeName_fixes_normalized; [exact Hlow|].
    rewrite B. apply normalizeName_normalized. }
  assert (G: getSpell toLowerCase db (normalizedName r) = Some r).
  { unfold getSpell. rewrite N, <- A.
    now apply (map_get_In _ _ str_eqb str_eqb_eq). }
  split; [|exact G].
  unfold isValidSpell. destruct (negb (loaded db)); [reflexivity|].
  apply (map_has_get _ _ str_eqb). exists r. exact G.
Qed.

Lemma proposals_are_valid_witness :
  isValidSpell toLowerCaseAscii frost_table (js "frost_n") = true /\
  getSpell toLowerCaseAscii frost_table (js "frost_n") =
    Some (mkSpell 1 (js "Frost N") (js "frost_n")).
Proof.
  apply (proposals_are_valid toLowerCaseAscii frost_table (js "frost_nov") 2 30
           (mkSpell 1 (js "Frost N") (js "frost_n"))).
  - exact toLowerCaseAscii_key.
  - unfold frost_table. apply reach_loadFromCsv. apply reach_new.
  - left. vm_compute. left. reflexivity.
Defined.

(** ** Loading twice, and rows that collide *)

(** The accepted rows depend on the file only. *)
Lemma loadFromCsv_entries (toLowerCase : str -> str) (file : option str) :
  exists oes : option (list (Z * str)),
    forall db,
      loadFromCsv toLowerCase file db =
      match oes with
      | None => (db, false)
      | Some es =>
          let db' := fold_left (add_spell toLowerCase) es db in
          (mkDb (spells db') (spellsById db') true,
           length (spells db) <? length (spells db'))
      end.
Proof.
  unfold loadFromCsv. destruct file as [content|]; [|now exists None].
  destruct (split re_newline content) as [|header_line rows];
    [now exists None|].
  destruct (findIndex _ _) as [idIndex|]; [|now exists None].
  destruct (findIndex _ _) as [nameIndex|]; [|now exists None].
  exists (Some (entries idIndex nameIndex rows)). intros db. cbv zeta.
  now rewrite ltb_sub, fold_load_rows.
Qed.

(** X9. Loading the same file a second time changes neither table, and
    reports false: the return value tells whether the name table grew, not
    whether the file could be read. *)
Theorem second_load_changes_nothing (toLowerCase : str -> str)
    (file : option str) (db : SpellDatabase) :
  reachable toLowerCase db ->
  loadFromCsv toLowerCase file (fst (loadFromCsv toLowerCase file db)) =
  (fst (loadFromCsv toLowerCase file db), false).
Proof.
  intros H. apply reachable_consistent in H. destruct H as (_ & N1 & _ & N2).
  destruct (loadFromCsv_entries toLowerCase file) as [[es|] E];
    [|now rewrite !E].
  rewrite (E db). cbv zeta. simpl fst. rewrite E. cbv zeta.
  set (db1 := fold_left (add_spell toLowerCase) es db).
  set (db2 := fold_left (add_spell toLowerCase) es _).
  destruct (fold_add_spells toLowerCase es db) as (A1 & A2 & _).
  destruct (fold_add_spells toLowerCase es
              (mkDb (spells db1) (spellsById db1) true)) as (B1 & B2 & _).
  fold db1 in A1, A2. fold db2 in B1, B2. simpl in B1, B2.
  assert (S: spells db2 = spells db1).
  { rewrite B1, A1.
    apply (sets_twice _ _ str_eqb str_eqb_eq _ (spells db) N1). }
  assert (S': spellsById db2 = spellsById db1).
  { rewrite B2, A2.
    apply (sets_twice _ _ Z.eqb Z_eqb_eq _ (spellsById db) N2). }
  simpl. rewrite S, S', Nat.ltb_irrefl. reflexivity.
Qed.

Lemma second_load_changes_nothing_witness :
  let file := Some (csv_of ["12,Fireball"; "13,Frost Nova"]%string) in
  loadFromCsv toLowerCaseAscii file
    (fst (loadFromCsv toLowerCaseAscii file newDb)) =
  (fst (loadFromCsv toLowerCaseAscii file newDb), false).
Proof.
  intros file.
  apply (second_load_changes_nothing toLowerCaseAscii file newDb).
  apply reach_new.
Defined.

(** X10. A load never removes a name: the names before the load are the
    first names after it, in the same order; the load returns true exactly
    when names were added; and once the flag is set, a name that was valid
    stays valid. *)
Theorem loadFromCsv_keeps_names (toLowerCase : str -> str)
    (file : option str) (db : SpellDatabase) :
  exists more,
    getAllSpellNames (fst (loadFromCsv toLowerCase file db)) =
      getAllSpellNames db ++ more
    /\ (snd (loadFromCsv toLowerCase file db) = true <-> more <> [])
    /\ (loaded db = true ->
        forall spell,
          isValidSpell toLowerCase db spell = true ->
          isValidSpell toLowerCase (fst (loadFromCsv toLowerCase file db))
            spell = true).
Proof.
  destruct (loadFromCsv_cases toLowerCase file db) as [->|[es E]].
  - exists []. simpl. rewrite app_nil_r. repeat split; congruence.
  - cbv zeta in E. rewrite E. simpl.
    destruct (fold_add_spells toLowerCase es db) as (A1 & _). cbv zeta in A1.
    destruct (sets_keys_grow _ _ str_eqb str_eqb_eq
                (map (fun e => (normalizeName toLowerCase (snd e),
                                spell_of toLowerCase e)) es)
                (spells db)) as [more Hm].
    rewrite <- A1 in Hm. exists more. unfold getAllSpellNames.
    split; [exact Hm|]. split.
    + rewrite <- (length_map fst (spells (fold_left _ es db))), Hm.
      rewrite length_app, length_map. split.
      * intros L. apply Nat.ltb_lt in L. intros ->. simpl in L. lia.
      * intros L. apply Nat.ltb_lt. destruct more; [congruence|simpl; lia].
    + intros Hl spell. unfold isValidSpell. rewrite Hl. simpl.
      rewrite !(map_has_In _ _ str_eqb str_eqb_eq), Hm.
      intros H. apply in_or_app. now left.
Qed.

Lemma rows_keep_other_names (toLowerCase : str -> str)
    (idIndex nameIndex : nat) (spell : str) (rows : list str) :
  (forall row e, In row rows -> row_entry idIndex nameIndex row = Some e ->
                 normalizeName toLowerCase (snd e)
                 <> normalizeName toLowerCase spell) ->
  forall db,
    getSpell toLowerCase
      (fold_left (load_row toLowerCase idIndex nameIndex) rows db) spell =
    getSpell toLowerCase db spell.
Proof.
  induction rows as [|row rows IH]; intros H db; simpl; [reflexivity|].
  rewrite IH by (intros row' e Hr; apply H; now right).
  rewrite load_row_entry.
  destruct (row_entry idIndex nameIndex row) as [e|] eqn:E; [|reflexivity].
  unfold getSpell, add_spell. simpl.
  rewrite (map_get_map_set _ _ str_eqb str_eqb_eq).
  destruct (str_eqb _ _) eqn:Eq; [|reflexivity].
  apply str_eqb_eq in Eq. exfalso. apply (H row e); [now left|exact E|exact Eq].
Qed.

(** X11. The last row wins: when a file has an accepted row for a name and
    no later accepted row with the same normalized name, looking the name
    up after the load gives the record of that row, whatever the table held
    before and whatever earlier rows said. *)
Theorem last_row_wins (toLowerCase : str -> str) (content : str)
    (db : SpellDatabase) (header_line : str) (rows1 rows2 : list str)
    (row : str) (idIndex nameIndex : nat) (i : Z) (spell : str) :
  split re_newline content = header_line :: rows1 ++ row :: rows2 ->
  findIndex (fun h => str_eqb h (js "id"))
    (map trim (split (Lit (js ",")) (toLowerCase header_line)))
    = Some idIndex ->
  findIndex (fun h => str_eqb h (js "name") || str_eqb h (js "name_lang"))
    (map trim (split (Lit (js ",")) (toLowerCase header_line)))
    = Some nameIndex ->
  row_entry idIndex nameIndex row = Some (i, spell) ->
  (forall row' e, In row' rows2 -> row_entry idIndex nameIndex row' = Some e ->
                  normalizeName toLowerCase (snd e)
                  <> normalizeName toLowerCase spell) ->
  getSpell toLowerCase (fst (loadFromCsv toLowerCase (Some content) db)) spell
  = Some (mkSpell i spell (normalizeName toLowerCase spell)).
Proof.
  intros Hs Hi Hn Hrow Hlater. unfold loadFromCsv. rewrite Hs, Hi, Hn.
  cbv zeta. simpl fst.
  change (getSpell toLowerCase
            (mkDb (spells ?d) (spellsById ?d) true) spell)
    with (getSpell toLowerCase d spell).
  rewrite fold_left_app. simpl.
  rewrite (rows_keep_other_names toLowerCase idIndex nameIndex spell rows2 Hlater).
  rewrite load_row_entry, Hrow. unfold getSpell, add_spell. simpl.
  rewrite (map_get_map_set _ _ str_eqb str_eqb_eq), str_eqb_refl. reflexivity.
Qed.

Lemma last_row_wins_witness :
  getSpell toLowerCaseAscii
    (fst (loadFromCsv toLowerCaseAscii
            (Some (csv_of ["12,Frost Nova"; "13,frost-nova"; "14,Fireball"]%string))
            newDb))
    (js "frost-nova")
  = Some (mkSpell 13 (js "frost-nova") (js "frost_nova")).
Proof.
  apply (last_row_wins toLowerCaseAscii
           (csv_of ["12,Frost Nova"; "13,frost-nova"; "14,Fireball"]%string)
           newDb (js "id,name") [js "12,Frost Nova"] [js "14,Fireball"]
           (js "13,frost-nova") 0 1 13 (js "frost-nova")).
  - vm_compute. reflexivity.
  - vm_compute. reflexivity.
  - vm_compute. reflexivity.
  - vm_compute. reflexivity.
  - intros row' e [<-|[]]. vm_compute. intros [= <-]. vm_compute. discriminate.
Defined.

(** ** [parseCsvLine] reads back what a CSV writer wrote *)

Lemma parseCsvLine_plain (f : str) :
  plain_field f = true ->
  forall rest current result,
    parseCsvLine_loop (f ++ rest) current false result =
    parseCsvLine_loop rest (current ++ f) false result.
Proof.
  unfold plain_field.
  induction f as [|c f IH]; simpl; intros H rest current result.
  - now rewrite app_nil_r.
  - apply andb_true_iff in H as [Hc H]. apply andb_true_iff in Hc as [H1 H2].
    apply negb_true_iff in H1, H2. rewrite H1, H2. simpl.
    rewrite (IH H). now rewrite <- app_assoc.
Qed.

Lemma parseCsvLine_in_quotes (f : str) :
  forall rest current result,
    match rest with c :: _ => (c =? 34)%N = false | [] => True end ->
    parseCsvLine_loop (csv_escape f ++ dq ++ rest) current true result =
    parseCsvLine_loop rest (current ++ f) false result.
Proof.
  induction f as [|c f IH]; intros rest current result Hrest.
  - simpl. rewrite app_nil_r. destruct rest as [|c2 rest]; [reflexivity|].
    now rewrite Hrest.
  - simpl. destruct (c =? 34)%N eqn:E.
    + apply N.eqb_eq in E. subst c. simpl.
      rewrite (IH _ _ _ Hrest). now rewrite <- app_assoc.
    + simpl. rewrite E. simpl. rewrite andb_false_r.
      rewrite (IH _ _ _ Hrest). now rewrite <- app_assoc.
Qed.

Lemma parseCsvLine_written (text f : str) :
  written_as text f ->
  forall rest current result,
    match rest with c :: _ => (c =? 34)%N = false | [] => True end ->
    parseCsvLine_loop (text ++ rest) current false result =
    parseCsvLine_loop rest (current ++ f) false result.
Proof.
  intros [g Hg|g] rest current result Hrest.
  - now apply parseCsvLine_plain.
  - unfold csv_quote. rewrite <- !app_assoc.
    change (dq ++ csv_escape g ++ dq ++ rest)
      with (34%N :: (csv_escape g ++ dq ++ rest)).
    cbn [parseCsvLine_loop]. rewrite N.eqb_refl. simpl negb.
    now apply parseCsvLine_in_quotes.
Qed.

Lemma parseCsvLine_row (texts fields : list str) :
  Forall2 written_as texts fields ->
  forall text f current result,
    written_as text f ->
    parseCsvLine_loop (join (js ",") (text :: texts)) current false result =
    result ++ trim (current ++ f) :: map trim fields.
Proof.
  induction 1 as [|text' f' texts fields Hw _ IH];
    intros text f current result Hf.
  - simpl. rewrite <- (app_nil_r text).
    rewrite (parseCsvLine_written _ _ Hf) by exact I. reflexivity.
  - change (join (js ",") (text :: text' :: texts))
      with (text ++ 44%N :: join (js ",") (text' :: texts)).
    rewrite (parseCsvLine_written _ _ Hf) by reflexivity.
    cbn [parseCsvLine_loop]. simpl.
    rewrite (IH _ _ _ _ Hw). simpl. now rewrite <- app_assoc.
Qed.

(** X12. Round trip of a CSV row: when every field is written either as it
    is (no comma, no double quote in it) or between double quotes with its
    double quotes doubled, and the fields are joined by commas,
    [parseCsvLine] gives the fields back, trimmed. *)
Theorem parseCsvLine_round_trip (texts fields : list str) :
  fields <> [] ->
  Forall2 written_as texts fields ->
  parseCsvLine (join (js ",") texts) = map trim fields.
Proof.
  intros Hne H. destruct H as [|text f texts fields Hf H]; [congruence|].
  unfold parseCsvLine. rewrite (parseCsvLine_row _ _ H _ _ _ _ Hf). reflexivity.
Qed.

Lemma parseCsvLine_round_trip_witness :
  parseCsvLine (join (js ",") [js "13"; csv_quote (js "Frost, Nova")]) =
  map trim [js "13"; js "Frost, Nova"].
Proof.
  apply (parseCsvLine_round_trip [js "13"; csv_quote (js "Frost, Nova")]
           [js "13"; js "Frost, Nova"]).
  - discriminate.
  - repeat constructor.
Defined.

(** ** Where a match lies *)

Lemma occurs_in_refl (t : str) : occurs_in t t.
Proof. exists [], []. now rewrite app_nil_r. Qed.

Lemma occurs_in_nil (t : str) : occurs_in [] t.
Proof. now exists [], t. Qed.

Lemma occurs_in_app (v t a b : str) : occurs_in v t -> occurs_in v (a ++ t ++ b).
Proof.
  intros (x & y & ->). exists (a ++ x), (y ++ b). now rewrite <- !app_assoc.
Qed.

Lemma occurs_in_trans (u v t : str) :
  occurs_in u v -> occurs_in v t -> occurs_in u t.
Proof. intros H (a & b & ->). now apply occurs_in_app. Qed.

Lemma occurs_in_length (v t : str) : occurs_in v t -> length v <= length t.
Proof. intros (a & b & ->). rewrite !length_app. lia. Qed.

Lemma lit_match_suffix (eqc : char -> char -> bool) (l : str) :
  forall prev s q,
    lit_match eqc l prev s = Some q -> exists t, s = t ++ snd q.
Proof.
  induction l as [|a l IH]; intros prev s q H; simpl in H.
  - inversion H. now exists [].
  - destruct s as [|x s]; [discriminate|].
    destruct (eqc a x); [|discriminate].
    apply IH in H as [t ->]. now exists (x :: t).
Qed.

(** What the matcher hands to its continuation: a later position of the
    same subject, and captures that are either old or parts of the text read
    in between. *)
Lemma m_sound (r : regex) :
  forall k p c res,
    m r k p c = Some res ->
    exists p1 c1 t,
      k p1 c1 = Some res /\ snd p = t ++ snd p1 /\
      forall n v, In (n, v) c1 -> In (n, v) c \/ occurs_in v t.
Proof.
  induction r as [l|l|q|q min|r1 IH1 r2 IH2|r1 IH1 r2 IH2|n r IH| | | ];
    intros k p c res H; cbn [m] in H.
  - destruct (lit_match char_eqb l (fst p) (snd p)) as [q|] eqn:L;
      [|discriminate].
    apply lit_match_suffix in L as [t L]. exists q, c, t. auto.
  - destruct (lit_match char_eqb_i l (fst p) (snd p)) as [q|] eqn:L;
      [|discriminate].
    apply lit_match_suffix in L as [t L]. exists q, c, t. auto.
  - destruct (snd p) as [|x s]; [discriminate|].
    destruct (q x); [|discriminate].
    exists (Some x, s), c, [x]. auto.
  - apply rep_inv in H as (s1 & s2 & E & _ & _ & H).
    exists (last_of s1 (fst p), s2), c, s1. auto.
  - apply IH1 in H as (p1 & c1 & t1 & H & E1 & C1).
    apply IH2 in H as (p2 & c2 & t2 & H & E2 & C2).
    exists p2, c2, (t1 ++ t2). split; [exact H|].
    split; [now rewrite E1, E2, app_assoc|].
    intros n v Hv. destruct (C2 n v Hv) as [Hv'|Hv'].
    + destruct (C1 n v Hv') as [Hv''|(a & b & ->)]; [now left|right].
      exists a, (b ++ t2). now rewrite <- !app_assoc.
    + right. destruct Hv' as (a & b & ->).
      exists (t1 ++ a), b. now rewrite <- !app_assoc.
  - destruct (m r1 k p c) as [x|] eqn:E.
    + inversion H; subst x. now apply IH1 in E.
    + now apply IH2 in H.
  - apply IH in H as (p1 & c1 & t & H & E & C).
    exists p1, (setcap n (consumed p p1) c1), t. split; [exact H|].
    split; [exact E|]. intros n' v [Hv|Hv]; [|now apply C].
    right. injection Hv as _ <-. unfold consumed. rewrite E, length_app.
    replace (length t + length (snd p1) - length (snd p1)) with (length t + 0)
      by lia.
    rewrite firstn_app_2, firstn_O, app_nil_r. apply occurs_in_refl.
  - destruct (fst p); [discriminate|]. exists p, c, []. auto.
  - destruct (snd p) eqn:E; [|discriminate]. exists p, c, [].
    rewrite E. auto.
  - destruct (xorb (word_before p) (word_after p)); [|discriminate].
    exists p, c, []. auto.
Qed.

Lemma match_at_sound (r : regex) (prev : option char) (s : str) (idx : nat)
    (mt : Match) :
  match_at r prev s idx = Some mt ->
  m_index mt = idx /\
  (exists post, s = m_text mt ++ post) /\
  forall n v, In (n, v) (m_groups mt) -> occurs_in v (m_text mt).
Proof.
  unfold match_at.
  destruct (m r accept (prev, s) []) as [[p' c]|] eqn:H; [|discriminate].
  intros E. inversion E; subst mt; clear E. cbn [m_text m_index m_groups].
  apply m_sound in H as (p1 & c1 & t & A & E & C).
  unfold accept in A. inversion A; subst p1 c1. cbn [snd] in E.
  assert (T: consumed (prev, s) p' = t).
  { unfold consumed. cbn [snd]. rewrite E, length_app.
    replace (length t + length (snd p') - length (snd p')) with (length t + 0)
      by lia.
    now rewrite firstn_app_2, firstn_O, app_nil_r. }
  rewrite T. split; [reflexivity|]. split; [now exists (snd p')|].
  intros n v Hv. destruct (C n v Hv) as [[]|Hv']. exact Hv'.
Qed.

Lemma lies_at_shift (x : char) (s : str) (idx : nat) (mt : Match) :
  lies_at s (S idx) mt -> lies_at (x :: s) idx mt.
Proof.
  intros [(pre & post & -> & E) C]. split; [|exact C].
  exists (x :: pre), post. split; [reflexivity|simpl; lia].
Qed.

Lemma match_at_lies (r : regex) (prev : option char) (s : str) (idx : nat)
    (mt : Match) :
  match_at r prev s idx = Some mt -> lies_at s idx mt.
Proof.
  intros H. apply match_at_sound in H as (E & [post P] & C).
  split; [|exact C]. exists [], post. split; [exact P|simpl; lia].
Qed.

Lemma search_sound (r : regex) (s : str) :
  forall prev idx mt, search r prev s idx = Some mt -> lies_at s idx mt.
Proof.
  induction s as [|x s IH]; intros prev idx mt H; simpl in H.
  - destruct (match_at r prev [] idx) eqn:E; [|discriminate].
    inversion H; subst. now apply match_at_lies in E.
  - destruct (match_at r prev (x :: s) idx) eqn:E.
    + inversion H; subst. now apply match_at_lies in E.
    + apply IH in H. now apply lies_at_shift.
Qed.

Lemma re_match_sound (r : regex) (s : str) (mt : Match) :
  re_match r s = Some mt -> lies_at s 0 mt.
Proof. apply search_sound. Qed.

Lemma matchAll_from_sound (r : regex) (s : str) :
  forall prev idx skip mt,
    In mt (matchAll_from r prev s idx skip) -> lies_at s idx mt.
Proof.
  induction s as [|x s IH]; intros prev idx skip mt H.
  - destruct skip; simpl in H; [|destruct H].
    destruct (match_at r prev [] idx) eqn:E; [|destruct H].
    destruct H as [<-|[]]. now apply match_at_lies in E.
  - destruct skip; simpl in H.
    + destruct (match_at r prev (x :: s) idx) eqn:E.
      * destruct H as [<-|H]; [now apply match_at_lies in E|].
        apply IH in H. now apply lies_at_shift.
      * apply IH in H. now apply lies_at_shift.
    + apply IH in H. now apply lies_at_shift.
Qed.

Lemma matchAll_sound (r : regex) (s : str) (mt : Match) :
  In mt (matchAll r s) -> lies_at s 0 mt.
Proof. apply matchAll_from_sound. Qed.

Lemma getcap_In (n : nat) (c : caps) (v : str) :
  getcap n c = Some v -> In (n, v) c.
Proof.
  induction c as [|[k w] c IH]; simpl; [discriminate|].
  destruct (Nat.eqb_spec k n) as [->|_].
  - intros [= ->]. now left.
  - intros H. right. now apply IH.
Qed.

Lemma group1_occurs (s : str) (idx : nat) (mt : Match) :
  lies_at s idx mt -> occurs_in (group1 mt) (m_text mt).
Proof.
  intros [_ C]. unfold group1, group.
  destruct (getcap 1 (m_groups mt)) as [v|] eqn:E; [|apply occurs_in_nil].
  apply getcap_In in E. now apply C in E.
Qed.

Lemma lies_at_occurs (s : str) (idx : nat) (mt : Match) :
  lies_at s idx mt -> occurs_in (m_text mt) s.
Proof. intros [(pre & post & -> & _) _]. now exists pre, post. Qed.

(** ** [indexOf] and [substring] *)

Lemma startsWith_app (p t : str) : startsWith (p ++ t) p = true.
Proof.
  induction p as [|a p IH]; simpl; [now destruct t|].
  now rewrite char_eqb_refl, IH.
Qed.

Lemma startsWith_inv (s p : str) :
  startsWith s p = true -> exists t, s = p ++ t.
Proof.
  revert s. induction p as [|a p IH]; intros s H.
  - now exists s.
  - destruct s as [|x s]; [discriminate|]. simpl in H.
    apply andb_true_iff in H as [E H]. apply char_eqb_eq in E. subst x.
    apply IH in H as [t ->]. now exists t.
Qed.

Lemma indexOf_from_eq (s p : str) (i : Z) :
  indexOf_from s p i =
  if startsWith s p then i
  else match s with
       | [] => (-1)%Z
       | _ :: s' => indexOf_from s' p (i + 1)
       end.
Proof. destruct s; reflexivity. Qed.

(** [indexOf] finds the first occurrence, when there is one. *)
Lemma indexOf_from_occurs (p : str) (a : str) :
  forall b i,
    exists a' b',
      a ++ p ++ b = a' ++ p ++ b' /\ length a' <= length a /\
      indexOf_from (a ++ p ++ b) p i = (i + Z.of_nat (length a'))%Z.
Proof.
  induction a as [|x a IH]; intros b i.
  - exists [], b. simpl app. rewrite indexOf_from_eq, startsWith_app.
    split; [reflexivity|]. split; [lia|simpl; lia].
  - destruct (startsWith ((x :: a) ++ p ++ b) p) eqn:E.
    + destruct (startsWith_inv _ _ E) as [t Ht].
      exists [], t. rewrite indexOf_from_eq, E.
      split; [exact Ht|]. split; [simpl; lia|simpl; lia].
    + destruct (IH b (i + 1)%Z) as (a' & b' & E1 & L & E2).
      exists (x :: a'), b'. rewrite indexOf_from_eq, E.
      simpl app. split; [now rewrite E1|]. split; [simpl; lia|].
      simpl app in E2. rewrite E2. simpl length. lia.
Qed.

(** ** Steps of the matcher, regex by regex *)

Lemma m_seq (r1 r2 : regex) (k : pos -> caps -> option R) (p : pos) (c : caps) :
  m (Seq r1 r2) k p c = m r1 (fun p' c' => m r2 k p' c') p c.
Proof. reflexivity. Qed.

Lemma m_cap (n : nat) (r : regex) (k : pos -> caps -> option R) (p : pos)
    (c : caps) :
  m (Cap n r) k p c =
  m r (fun p' c' => k p' (setcap n (consumed p p') c')) p c.
Proof. reflexivity. Qed.

Lemma m_wb_inv (k : pos -> caps -> option R) (p : pos) (c : caps) (r : R) :
  m Wb k p c = Some r -> k p c = Some r.
Proof.
  cbn [m]. destruct (xorb (word_before p) (word_after p)); [auto|discriminate].
Qed.

Lemma m_bol_inv (k : pos -> caps -> option R) (p : pos) (c : caps) (r : R) :
  m Bol k p c = Some r -> k p c = Some r.
Proof. cbn [m]. destruct (fst p); [discriminate|auto]. Qed.

Lemma m_alt_inv (r1 r2 : regex) (k : pos -> caps -> option R) (p : pos)
    (c : caps) (r : R) :
  m (Alt r1 r2) k p c = Some r -> m r1 k p c = Some r \/ m r2 k p c = Some r.
Proof. cbn [m]. destruct (m r1 k p c); [now left|now right]. Qed.

Lemma consumed_app3 (prev q : option char) (s1 s2 s3 : str) :
  consumed (prev, s1 ++ s2 ++ s3) (q, s3) = s1 ++ s2.
Proof. rewrite app_assoc. apply consumed_app. Qed.

Lemma match_at_inv (r : regex) (prev : option char) (s : str) (idx : nat)
    (mt : Match) :
  match_at r prev s idx = Some mt ->
  exists p' c,
    m r accept (prev, s) [] = Some (p', c) /\
    mt = mkMatch idx (consumed (prev, s) p') c.
Proof.
  unfold match_at. destruct (m r accept (prev, s) []) as [[p' c]|];
    [|discriminate].
  intros [= <-]. now exists p', c.
Qed.

(** A word boundary, a literal prefix and a captured run of word
    characters: the match is the prefix followed by the group. *)
Lemma prefixed_cap_inv (pfx : str) (min : nat) (prev : option char) (s : str)
    (idx : nat) (mt : Match) :
  match_at (seqs [Wb; Lit pfx; Cap 1 (Rep is_word min)]) prev s idx = Some mt ->
  m_text mt = pfx ++ group1 mt.
Proof.
  intros H. apply match_at_inv in H as (p' & c & H & ->). cbn [seqs] in H.
  rewrite m_seq in H. apply m_wb_inv in H. rewrite m_seq in H.
  apply m_lit_inv in H as (t & E & H). cbn [fst snd] in E, H. subst s.
  rewrite m_cap in H.
  apply m_rep_inv in H as (s1 & s2 & E & _ & _ & H). cbn [fst snd] in E, H.
  subst t. unfold accept in H. injection H as <- <-.
  unfold group1, group. cbn [m_text m_groups]. rewrite consumed_app.
  unfold setcap. cbn [getcap Nat.eqb]. apply consumed_app3.
Qed.

(** A regex that starts with a literal: so does the match. *)
Lemma lit_head_inv (l : str) (r : regex) (prev : option char) (s : str)
    (idx : nat) (mt : Match) :
  match_at (Seq (Lit l) r) prev s idx = Some mt -> exists t, m_text mt = l ++ t.
Proof.
  intros H. apply match_at_inv in H as (p' & c & H & ->).
  rewrite m_seq in H. apply m_lit_inv in H as (t0 & E & H).
  cbn [fst snd] in E, H. subst s.
  apply m_sound in H as (p1 & c1 & t & A & E & _). cbn [snd] in E.
  unfold accept in A. injection A as <- <-. subst t0.
  exists t. cbn [m_text]. destruct p1 as [q rest]. cbn [snd].
  apply consumed_app3.
Qed.

(** The regex of a list call: the match ends with [name=] and the
    group. *)
Lemma list_ref_inv (prev : option char) (s : str) (idx : nat) (mt : Match) :
  match_at re_list_ref prev s idx = Some mt ->
  exists a, m_text mt = a ++ js "name=" ++ group1 mt.
Proof.
  intros H. apply match_at_inv in H as (p' & c & H & ->).
  unfold re_list_ref in H. cbn [seqs] in H. rewrite m_seq in H.
  assert (G: exists l0 t0,
             s = l0 ++ t0 /\
             m (Seq (Lit (js "_action_list"))
                  (Seq (Rep is_any 0)
                     (Seq (Lit (js "name=")) (Cap 1 (Rep is_word 1)))))
               accept (last_of l0 prev, t0) [] = Some (p', c)).
  { apply m_alt_inv in H as [H|H]; apply m_lit_inv in H as (t0 & E & H);
      cbn [fst snd] in E, H; eauto. }
  clear H. destruct G as (l0 & t0 & -> & H).
  rewrite m_seq in H. apply m_lit_inv in H as (t1 & E & H).
  cbn [fst snd] in E, H. subst t0. rewrite m_seq in H.
  apply m_rep_inv in H as (s1 & t2 & E & _ & _ & H). cbn [fst snd] in E, H.
  subst t1. rewrite m_seq in H.
  apply m_lit_inv in H as (t3 & E & H). cbn [fst snd] in E, H. subst t2.
  rewrite m_cap in H.
  apply m_rep_inv in H as (w & rest & E & _ & _ & H). cbn [fst snd] in E, H.
  subst t3. unfold accept in H. injection H as <- <-.
  exists (l0 ++ js "_action_list" ++ s1).
  unfold group1, group. cbn [m_text m_groups]. rewrite consumed_app.
  unfold setcap. cbn [getcap Nat.eqb].
  replace (l0 ++ js "_action_list" ++ s1 ++ js "name=" ++ w ++ rest)
    with ((l0 ++ js "_action_list" ++ s1 ++ js "name=") ++ w ++ rest)
    by (now rewrite <- !app_assoc).
  rewrite consumed_app3. now rewrite <- !app_assoc.
Qed.

(** The regex of an action line: the group is the end of the line, after
    the dash. *)
Lemma action_inv (text : str) (am : Match) :
  re_match re_action text = Some am ->
  exists pre, text = pre ++ group1 am /\ 1 <= length pre.
Proof.
  unfold re_match, re_action. cbn [seqs]. rewrite search_bol.
  intros H. apply match_at_inv in H as (p' & c & H & ->).
  rewrite m_seq in H. apply m_bol_inv in H. rewrite m_seq in H.
  apply m_rep_inv in H as (s1 & t1 & E & _ & _ & H). cbn [fst snd] in E, H.
  subst text. rewrite m_seq in H.
  apply m_lit_inv in H as (t2 & E & H). cbn [fst snd] in E, H. subst t1.
  rewrite m_seq in H.
  apply m_rep_inv in H as (s2 & t3 & E & _ & _ & H). cbn [fst snd] in E, H.
  subst t2. rewrite m_seq, m_cap in H.
  apply m_rep_inv in H as (w & rest & E & _ & _ & H). cbn [fst snd] in E, H.
  subst t3. apply m_eol_inv in H as (E & H). cbn [snd] in E. subst rest.
  unfold accept in H. injection H as <- <-.
  exists (s1 ++ js "-" ++ s2).
  unfold group1, group. cbn [m_groups]. unfold setcap. cbn [getcap Nat.eqb].
  rewrite consumed_app. rewrite app_nil_r. split.
  - now rewrite <- !app_assoc.
  - rewrite !length_app. simpl. lia.
Qed.

Lemma search_found (r : regex) (s : str) :
  forall prev idx mt,
    search r prev s idx = Some mt ->
    exists pre post prev',
      s = pre ++ post /\ match_at r prev' post (m_index mt) = Some mt.
Proof.
  induction s as [|x s IH]; intros prev idx mt H; simpl in H.
  - destruct (match_at r prev [] idx) eqn:E; [|discriminate].
    inversion H; subst. exists [], [], prev. split; [reflexivity|].
    destruct (match_at_sound _ _ _ _ _ E) as (-> & _). exact E.
  - destruct (match_at r prev (x :: s) idx) eqn:E.
    + inversion H; subst. exists [], (x :: s), prev. split; [reflexivity|].
      destruct (match_at_sound _ _ _ _ _ E) as (-> & _). exact E.
    + apply IH in H as (pre & post & prev' & -> & H).
      now exists (x :: pre), post, prev'.
Qed.

Lemma matchAll_from_found (r : regex) (s : str) :
  forall prev idx skip mt,
    In mt (matchAll_from r prev s idx skip) ->
    exists pre post prev',
      s = pre ++ post /\ m_index mt = idx + length pre /\
      match_at r prev' post (m_index mt) = Some mt.
Proof.
  assert (Here: forall prev s idx mt,
             match_at r prev s idx = Some mt ->
             exists pre post prev',
               s = pre ++ post /\ m_index mt = idx + length pre /\
               match_at r prev' post (m_index mt) = Some mt).
  { intros prev s0 idx mt E. exists [], s0, prev.
    destruct (match_at_sound _ _ _ _ _ E) as (-> & _).
    split; [reflexivity|]. split; [simpl; lia|exact E]. }
  assert (Shift: forall x s idx mt,
             (exists pre post prev',
                s = pre ++ post /\ m_index mt = S idx + length pre /\
                match_at r prev' post (m_index mt) = Some mt) ->
             exists pre post prev',
               x :: s = pre ++ post /\ m_index mt = idx + length pre /\
               match_at r prev' post (m_index mt) = Some mt).
  { intros x s0 idx mt (pre & post & prev' & -> & E & H).
    exists (x :: pre), post, prev'. split; [reflexivity|].
    split; [simpl; lia|exact H]. }
  induction s as [|x s IH]; intros prev idx skip mt H.
  - destruct skip; simpl in H; [|destruct H].
    destruct (match_at r prev [] idx) eqn:E; [|destruct H].
    destruct H as [<-|[]]. now apply Here in E.
  - destruct skip; simpl in H.
    + destruct (match_at r prev (x :: s) idx) eqn:E.
      * destruct H as [<-|H]; [now apply Here in E|].
        apply IH in H. now apply Shift.
      * apply IH in H. now apply Shift.
    + apply IH in H. now apply Shift.
Qed.

(** ** Ranges *)

Lemma indexOf_occurs (s p : str) :
  occurs_in p s ->
  exists a b, s = a ++ p ++ b /\ indexOf s p = Z.of_nat (length a).
Proof.
  intros (a & b & ->).
  destruct (indexOf_from_occurs p a b 0) as (a' & b' & E & _ & I).
  exists a', b'. split; [exact E|]. unfold indexOf. rewrite I. lia.
Qed.

Lemma indexOf_cases (s p : str) :
  indexOf s p = (-1)%Z \/
  exists a b, s = a ++ p ++ b /\ indexOf s p = Z.of_nat (length a).
Proof.
  unfold indexOf.
  assert (G: forall i,
             indexOf_from s p i = (-1)%Z \/
             exists a b, s = a ++ p ++ b /\
                         indexOf_from s p i = (i + Z.of_nat (length a))%Z).
  { induction s as [|x s IH]; intros i; rewrite indexOf_from_eq.
    - destruct (startsWith [] p) eqn:E; [|now left].
      apply startsWith_inv in E as [t E]. right. exists [], t.
      split; [exact E|simpl; lia].
    - destruct (startsWith (x :: s) p) eqn:E.
      + apply startsWith_inv in E as [t E]. right. exists [], t.
        split; [exact E|simpl; lia].
      + destruct (IH (i + 1)%Z) as [L|(a & b & -> & L)]; [now left|].
        right. exists (x :: a), b. split; [reflexivity|].
        rewrite L. simpl length. lia. }
  destruct (G 0%Z) as [L|(a & b & E & L)]; [now left|].
  right. exists a, b. split; [exact E|]. rewrite L. lia.
Qed.

Lemma slice_app (a v b : str) (i : Z) :
  i = Z.of_nat (length a) ->
  slice (a ++ v ++ b) i (i + len v) = v.
Proof.
  intros ->. unfold slice, len.
  replace (Z.to_nat (Z.of_nat (length a) + Z.of_nat (length v)
                     - Z.of_nat (length a))) with (length v) by lia.
  rewrite Nat2Z.id, skipn_app, skipn_all, Nat.sub_diag. simpl.
  rewrite firstn_app, firstn_all, Nat.sub_diag. simpl. apply app_nil_r.
Qed.

(** A finding placed on an occurrence of [v]. *)
Lemma underlines (a v b : str) (n : nat) (i : Z) (msg : str)
    (sev : DiagnosticSeverity) :
  i = Z.of_nat (length a) ->
  in_text (a ++ v ++ b) (diag_at n i (len v) msg sev) /\
  range_text (a ++ v ++ b) (diag_at n i (len v) msg sev) = v.
Proof.
  intros E. split.
  - subst i. unfold in_text, diag_at, len. simpl. rewrite !length_app. lia.
  - unfold range_text, diag_at. simpl. now apply slice_app.
Qed.

Lemma in_text_at (text : str) (n : nat) (i w : Z) (msg : str)
    (sev : DiagnosticSeverity) :
  (0 <= i)%Z -> (0 <= w)%Z -> (i + w <= len text)%Z ->
  in_text text (diag_at n i w msg sev).
Proof. intros. unfold in_text, diag_at. simpl. lia. Qed.

Lemma in_text_line (text : str) (n : nat) (msg : str)
    (sev : DiagnosticSeverity) :
  in_text text (diag_line n text msg sev).
Proof. unfold in_text, diag_line, len. simpl. lia. Qed.

Lemma in_text_occurs (text v : str) (n : nat) (msg : str)
    (sev : DiagnosticSeverity) :
  occurs_in v text ->
  in_text text (diag_at n (indexOf text v) (len v) msg sev) /\
  range_text text (diag_at n (indexOf text v) (len v) msg sev) = v.
Proof.
  intros H. apply indexOf_occurs in H as (a & b & -> & I).
  now apply underlines.
Qed.

(** ** Every range lies in its line *)

Lemma test_match (r : regex) (s : str) :
  test r s = true -> exists mt, re_match r s = Some mt.
Proof.
  unfold test. destruct (re_match r s) as [mt|]; [|discriminate].
  intros _. now exists mt.
Qed.

Lemma re_match_found (r : regex) (s : str) (mt : Match) :
  re_match r s = Some mt ->
  occurs_in (m_text mt) s /\
  exists prev post, match_at r prev post (m_index mt) = Some mt.
Proof.
  intros H. split.
  - apply re_match_sound in H. eapply lies_at_occurs. exact H.
  - apply search_found in H as (pre & post & prev' & _ & H).
    now exists prev', post.
Qed.

Lemma re_match_group1 (r : regex) (s : str) (mt : Match) :
  re_match r s = Some mt -> occurs_in (group1 mt) s.
Proof.
  intros H. apply re_match_sound in H.
  eapply occurs_in_trans; [eapply group1_occurs|eapply lies_at_occurs];
    exact H.
Qed.

Lemma occurs_in_head (l t s : str) : occurs_in (l ++ t) s -> occurs_in l s.
Proof.
  intros (a & b & ->). exists a, (t ++ b). now rewrite <- !app_assoc.
Qed.

Lemma occurs_in_tail (a l s : str) : occurs_in (a ++ l) s -> occurs_in l s.
Proof.
  intros (x & y & ->). exists (x ++ a), y. now rewrite <- !app_assoc.
Qed.

Lemma config_ref_underlined (text : str) (n : nat) (C : list str)
    (d : Diagnostic) :
  In d (flat_map (config_ref_check n C) (matchAll re_config_ref text)) ->
  exists varName,
    in_text text d /\ range_text text d = varName /\
    str_mem varName C = false /\ str_mem varName sharedConfigVars = false /\
    message d = js "Config variable " ++ dq ++ varName ++ dq
                ++ js " is not defined" ++ available_hint C.
Proof.
  intros H. apply in_flat_map in H as (mt & Hmt & H).
  unfold config_ref_check in H.
  destruct (str_mem (group1 mt) C) eqn:E1; [destruct H|].
  destruct (str_mem (group1 mt) sharedConfigVars) eqn:E2; [destruct H|].
  destruct H as [<-|[]]. exists (group1 mt).
  apply matchAll_from_found in Hmt as (pre & post & prev' & -> & I & Hm).
  pose proof (prefixed_cap_inv _ _ _ _ _ _ Hm) as T.
  apply match_at_sound in Hm as (_ & [post' ->] & _). rewrite T.
  replace (pre ++ (js "config." ++ group1 mt) ++ post')
    with ((pre ++ js "config.") ++ group1 mt ++ post')
    by (now rewrite <- !app_assoc).
  destruct (underlines (pre ++ js "config.") (group1 mt) post' n
              (Z.of_nat (m_index mt) + 7)
              (js "Config variable " ++ dq ++ group1 mt ++ dq
               ++ js " is not defined" ++ available_hint C) Warning)
    as [A B].
  { rewrite length_app, I. simpl. lia. }
  split; [exact A|]. split; [exact B|]. repeat split; auto.
Qed.

Lemma var_ref_underlined (text : str) (n : nat) (V : list str)
    (d : Diagnostic) :
  In d (flat_map (var_ref_check n V) (matchAll re_var_ref text)) ->
  exists varName,
    in_text text d /\ range_text text d = varName /\
    str_mem varName V = false /\
    message d = js "Variable " ++ dq ++ varName ++ dq
                ++ js " is not defined" ++ available_hint V.
Proof.
  intros H. apply in_flat_map in H as (mt & Hmt & H).
  unfold var_ref_check in H.
  destruct (str_mem (group1 mt) V) eqn:E1; [destruct H|].
  destruct H as [<-|[]]. exists (group1 mt).
  apply matchAll_from_found in Hmt as (pre & post & prev' & -> & I & Hm).
  pose proof (prefixed_cap_inv _ _ _ _ _ _ Hm) as T.
  apply match_at_sound in Hm as (_ & [post' ->] & _). rewrite T.
  replace (pre ++ (js "var." ++ group1 mt) ++ post')
    with ((pre ++ js "var.") ++ group1 mt ++ post')
    by (now rewrite <- !app_assoc).
  destruct (underlines (pre ++ js "var.") (group1 mt) post' n
              (Z.of_nat (m_index mt) + 4)
              (js "Variable " ++ dq ++ group1 mt ++ dq
               ++ js " is not defined" ++ available_hint V) Warning)
    as [A B].
  { rewrite length_app, I. simpl. lia. }
  split; [exact A|]. split; [exact B|]. repeat split; auto.
Qed.

Lemma checkCommonTypos_underlined (text : str) (n : nat) (d : Diagnostic) :
  In d (checkCommonTypos text n) ->
  exists r msg sev mt,
    In (r, msg, sev) typos /\ In mt (matchAll r text) /\
    message d = msg /\ severity d = sev /\
    in_text text d /\ range_text text d = m_text mt /\ m_text mt <> [].
Proof.
  unfold checkCommonTypos. intros H.
  apply in_flat_map in H as ([[r msg] sev] & Ht & H). cbn [fst snd] in H.
  apply in_map_iff in H as (mt & <- & Hmt).
  exists r, msg, sev, mt.
  split; [exact Ht|]. split; [exact Hmt|]. split; [reflexivity|].
  split; [reflexivity|]. split; [|split].
  - destruct (matchAll_sound _ _ _ Hmt) as [(pre & post & -> & I) _].
    apply underlines. simpl in I. now rewrite I.
  - destruct (matchAll_sound _ _ _ Hmt) as [(pre & post & -> & I) _].
    apply underlines. simpl in I. now rewrite I.
  - pose proof Hmt as Hf.
    apply matchAll_from_found in Hf as (pre & post & prev' & _ & _ & Hm).
    apply (global_matches_nonempty r prev' post (m_index mt)); [|exact Hm].
    unfold global_regexes. apply in_or_app. right. apply in_or_app. right.
    apply in_map_iff. now exists (r, msg, sev).
Qed.

Lemma expr_name_check_underlined (toLowerCase : str -> str)
    (db : SpellDatabase) (text : str) (n : nat) (type : str) (mt : Match)
    (d : Diagnostic) :
  lies_at text 0 mt ->
  In d (expr_name_check toLowerCase db n type mt) ->
  exists spellName,
    in_text text d /\ range_text text d = spellName /\
    isValidSpell toLowerCase db spellName = false /\
    message d = js "Unknown spell in " ++ type ++ js ": " ++ dq ++ spellName
                ++ dq ++ did_you_mean toLowerCase db spellName.
Proof.
  intros L H. unfold expr_name_check in H.
  destruct (is_placeholder (group1 mt)); [destruct H|].
  destruct (test re_number (group1 mt)); [destruct H|].
  destruct (isValidSpell toLowerCase db (group1 mt)) eqn:E; [destruct H|].
  destruct H as [<-|[]]. exists (group1 mt).
  pose proof (group1_occurs _ _ _ L) as G.
  apply indexOf_occurs in G as (a & b & T & I).
  destruct L as [(pre & post & -> & J) _]. rewrite I, T.
  replace (pre ++ (a ++ group1 mt ++ b) ++ post)
    with ((pre ++ a) ++ group1 mt ++ (b ++ post))
    by (now rewrite <- !app_assoc).
  destruct (underlines (pre ++ a) (group1 mt) (b ++ post) n
              (Z.of_nat (m_index mt) + Z.of_nat (length a))
              (js "Unknown spell in " ++ type ++ js ": " ++ dq ++ group1 mt
               ++ dq ++ did_you_mean toLowerCase db (group1 mt)) Warning)
    as [A B].
  { rewrite length_app, J. simpl. lia. }
  split; [exact A|]. split; [exact B|]. repeat split; auto.
Qed.

Lemma action_word_check_underlined (toLowerCase : str -> str)
    (db : SpellDatabase) (text : str) (n : nat) (d : Diagnostic) :
  In d (action_word_check toLowerCase db text n) ->
  exists spellName,
    in_text text d /\ range_text text d = spellName /\
    isValidSpell toLowerCase db spellName = false /\
    message d = js "Unknown spell: " ++ dq ++ spellName ++ dq
                ++ did_you_mean toLowerCase db spellName.
Proof.
  unfold action_word_check. intros H.
  destruct (re_match re_action_word text) as [am|] eqn:E; [|destruct H].
  destruct (test re_number (group1 am)); [destruct H|].
  destruct (str_mem (group1 am) specialActions); [destruct H|].
  destruct (isValidSpell toLowerCase db (group1 am)) eqn:V; [destruct H|].
  destruct H as [<-|[]]. exists (group1 am).
  apply re_match_group1 in E.
  destruct (in_text_occurs text (group1 am) n
              (js "Unknown spell: " ++ dq ++ group1 am ++ dq
               ++ did_you_mean toLowerCase db (group1 am)) Warning E)
    as [A B].
  split; [exact A|]. split; [exact B|]. repeat split; auto.
Qed.

Lemma validateSpellNames_underlined (toLowerCase : str -> str)
    (db : SpellDatabase) (text : str) (n : nat) (d : Diagnostic) :
  In d (validateSpellNames toLowerCase db text n) ->
  exists spellName,
    in_text text d /\ range_text text d = spellName /\
    isValidSpell toLowerCase db spellName = false /\
    (message d = js "Unknown spell: " ++ dq ++ spellName ++ dq
                 ++ did_you_mean toLowerCase db spellName
     \/ exists type,
          message d = js "Unknown spell in " ++ type ++ js ": " ++ dq
                      ++ spellName ++ dq
                      ++ did_you_mean toLowerCase db spellName).
Proof.
  unfold validateSpellNames. destruct (negb (isLoaded db)); [intros []|].
  intros H. apply in_app_or in H as [H|H].
  - apply action_word_check_underlined in H as (s & A & B & C & D).
    exists s. split; [exact A|]. split; [exact B|]. split; [exact C|].
    now left.
  - unfold expr_names_check in H.
    apply in_flat_map in H as ([r type] & _ & H). cbn [fst snd] in H.
    apply in_flat_map in H as (mt & Hmt & H).
    apply matchAll_sound in Hmt.
    apply (expr_name_check_underlined _ _ _ _ _ _ _ Hmt) in H
      as (s & A & B & C & D).
    exists s. split; [exact A|]. split; [exact B|]. split; [exact C|].
    right. now exists type.
Qed.

Lemma list_ref_check_underlined (text actionContent : str) (n : nat)
    (L : list str) (d : Diagnostic) :
  (exists pre, text = pre ++ actionContent /\ 1 <= length pre) ->
  In d (list_ref_check text actionContent n L) ->
  exists listName,
    in_text text d /\
    str_mem listName L = false /\ str_mem listName sharedLists = false /\
    message d = js "Action list " ++ dq ++ listName ++ dq
                ++ js " is not defined"
                ++ (if 0 <? length L
                    then js ". Available lists: " ++ join (js ", ") L
                    else []) /\
    (occurs_in (js "name=" ++ listName) text -> range_text text d = listName).
Proof.
  intros (pre & -> & Hpre) H. unfold list_ref_check in H.
  set (listMatch := match re_match re_list_ref actionContent with
                    | Some mt => Some mt
                    | None => _
                    end) in H.
  destruct listMatch as [mt|] eqn:LM; [|destruct H].
  destruct (str_mem (group1 mt) L) eqn:E1; [destruct H|].
  destruct (str_mem (group1 mt) sharedLists) eqn:E2; [destruct H|].
  destruct H as [<-|[]]. exists (group1 mt).
  set (msg := js "Action list " ++ _).
  assert (Occ: occurs_in (js "name=" ++ group1 mt) (pre ++ actionContent) ->
               in_text (pre ++ actionContent)
                 (diag_at n (indexOf (pre ++ actionContent)
                               (js "name=" ++ group1 mt) + 5)
                    (len (group1 mt)) msg Error) /\
               range_text (pre ++ actionContent)
                 (diag_at n (indexOf (pre ++ actionContent)
                               (js "name=" ++ group1 mt) + 5)
                    (len (group1 mt)) msg Error) = group1 mt).
  { intros O. apply indexOf_occurs in O as (a & b & T & I).
    rewrite I, T.
    replace (a ++ (js "name=" ++ group1 mt) ++ b)
      with ((a ++ js "name=") ++ group1 mt ++ b)
      by (now rewrite <- !app_assoc).
    apply underlines. rewrite length_app. simpl. lia. }
  split; [|split; [exact E1|]; split; [exact E2|]; split; [reflexivity|];
           intros O; now apply Occ].
  subst listMatch.
  destruct (re_match re_list_ref actionContent) as [lm|] eqn:R.
  - injection LM as ->. apply Occ.
    apply re_match_found in R as (O & prev & post & Hm).
    apply list_ref_inv in Hm as [a T]. rewrite T in O.
    apply occurs_in_tail in O. rewrite <- (app_nil_r actionContent).
    now apply occurs_in_app.
  - destruct (re_match re_call_alias actionContent) as [ca|] eqn:R2;
      [|discriminate].
    destruct (group1 ca) as [|g0 g] eqn:G; [discriminate|].
    injection LM as <-.
    destruct (indexOf_cases (pre ++ actionContent)
                (js "name=" ++ group1 ca)) as [I|(a & b & T & I)].
    + rewrite I. apply re_match_found in R2 as (O & prev & post & Hm).
      unfold re_call_alias in Hm. apply prefixed_cap_inv in Hm.
      rewrite Hm in O. apply occurs_in_length in O.
      rewrite length_app in O. simpl in O.
      apply in_text_at; unfold len; rewrite ?length_app; lia.
    + apply Occ. exists a, b. exact T.
Qed.

Lemma Forall_when_in_text (text : str) (b : bool) (d : Diagnostic) :
  (b = true -> in_text text d) -> Forall (in_text text) (when b [d]).
Proof. intros H. destruct b; simpl; auto. Qed.

Lemma validateActionLine_in_text (text : str) (n : nat) (L : list str) :
  Forall (in_text text) (validateActionLine text n L).
Proof.
  unfold validateActionLine.
  destruct (re_match re_action text) as [am|] eqn:A; [|constructor].
  pose proof (re_match_group1 _ _ _ A) as Hin.
  pose proof (action_inv _ _ A) as Hpre.
  set (ac := group1 am) in *.
  assert (Sub: forall v, occurs_in v ac -> occurs_in v text).
  { intros v Hv. eapply occurs_in_trans; eassumption. }
  assert (If4: forall mt prev post r,
             match_at (Seq (Lit (js ",if=")) r) prev post (m_index mt)
               = Some mt ->
             occurs_in (m_text mt) ac ->
             forall w msg sev,
               (w <= Z.of_nat (length (m_text mt)))%Z -> (0 <= w)%Z ->
               in_text text (diag_at n (indexOf text (js ",if=")) w msg sev)).
  { intros mt prev post r Hm O w msg sev Hw Hw0.
    apply lit_head_inv in Hm as [t T]. apply Sub in O.
    destruct O as (a & b & E). rewrite T in E.
    destruct (indexOf_from_occurs (js ",if=") a (t ++ b) 0)
      as (a' & b' & E' & La & I).
    assert (Et: text = a ++ js ",if=" ++ t ++ b)
      by (rewrite E; now rewrite <- !app_assoc).
    unfold indexOf. rewrite Et, I. apply in_text_at; try lia.
    rewrite T in Hw. unfold len. rewrite !length_app in *. simpl in *. lia. }
  repeat (apply Forall_app; split).
  - apply Forall_when_in_text. intros _. apply in_text_line.
  - apply Forall_when_in_text. intros T.
    apply test_match in T as [mt T].
    apply re_match_found in T as (O & prev & post & Hm).
    unfold re_empty_if in Hm. cbn [seqs] in Hm.
    apply (If4 _ _ _ _ Hm O); [|lia].
    apply lit_head_inv in Hm as [t ->]. rewrite length_app. simpl. lia.
  - destruct (re_match re_op_run ac) as [om|] eqn:O; [|constructor].
    constructor; [|constructor].
    apply re_match_found in O as (O & _). apply Sub in O.
    now apply in_text_occurs.
  - apply Forall_when_in_text. intros _. apply in_text_line.
  - apply Forall_when_in_text. intros T.
    apply test_match in T as [mt T].
    apply re_match_found in T as (O & prev & post & Hm).
    unfold re_leading_op in Hm. cbn [seqs] in Hm.
    apply (If4 _ _ _ _ Hm O); [|lia].
    apply match_at_length in Hm. simpl in Hm. lia.
  - apply Forall_when_in_text. intros _. apply in_text_line.
  - apply Forall_when_in_text. intros _. apply in_text_line.
  - apply Forall_when_in_text. intros _. apply in_text_line.
  - apply Forall_when_in_text. intros _. apply in_text_line.
  - destruct (re_match re_call_alias ac) as [ca|]; [|constructor].
    destruct (group1 ca); [|constructor].
    constructor; [apply in_text_line|constructor].
  - apply Forall_forall. intros d Hd.
    apply (list_ref_check_underlined text ac n L d Hpre) in Hd
      as (l & Hd & _). exact Hd.
Qed.

Lemma line_diagnostics_in_text (toLowerCase : str -> str)
    (db : SpellDatabase) (L C V : list str) (text : str) (n : nat) :
  Forall (in_text text) (line_diagnostics toLowerCase db L C V text n).
Proof.
  unfold line_diagnostics.
  destruct (_ || _); [constructor|].
  apply Forall_app; split; [|apply Forall_app; split;
                              [|apply Forall_app; split]].
  - destruct (startsWith (trimStart text) (js "-")); [|constructor].
    apply validateActionLine_in_text.
  - apply Forall_forall. intros d Hd.
    now apply validateSpellNames_underlined in Hd as (s & Hd & _).
  - unfold validateConfigAndVarReferences. apply Forall_app; split;
      apply Forall_forall; intros d Hd.
    + now apply config_ref_underlined in Hd as (s & Hd & _).
    + now apply var_ref_underlined in Hd as (s & Hd & _).
  - apply Forall_forall. intros d Hd.
    now apply checkCommonTypos_underlined in Hd
      as (r & msg & sev & mt & _ & _ & _ & _ & Hd & _).
Qed.

(** ** The findings of a document, located *)

Lemma diagnostics_from_located (toLowerCase : str -> str) (db : SpellDatabase)
    (L C V : list str) (lines : list str) :
  forall n0 d,
    In d (diagnostics_from toLowerCase db L C V lines n0) ->
    exists i text,
      nth_error lines i = Some text /\
      start_line (range d) = n0 + i /\ end_line (range d) = n0 + i /\
      in_text text d /\
      startsWith (trim text) (js "#") = false /\ trim text <> [].
Proof.
  induction lines as [|text rest IH]; intros n0 d H; simpl in H;
    [destruct H|].
  apply in_app_or in H as [H|H].
  - exists 0, text. split; [reflexivity|].
    pose proof (line_diagnostics_catalogued toLowerCase db L C V text n0) as K.
    pose proof (line_diagnostics_in_text toLowerCase db L C V text n0) as T.
    rewrite Forall_forall in K, T.
    destruct (K d H) as [[K1 K2] _]. rewrite K1, K2, Nat.add_0_r.
    split; [reflexivity|]. split; [reflexivity|]. split; [now apply T|].
    unfold line_diagnostics in H.
    destruct (startsWith (trim text) (js "#")) eqn:E1; [destruct H|].
    destruct (str_eqb (trim text) []) eqn:E2; [destruct H|].
    split; [reflexivity|]. intros E. rewrite E in E2. discriminate.
  - apply IH in H as (i & t & A & B1 & B2 & R).
    exists (S i), t. split; [exact A|].
    split; [lia|]. split; [lia|exact R].
Qed.

(** X13. Every finding of a validation pass lies inside one line of the
    document: its range starts and ends on the same line, that line exists
    and is neither blank nor a comment, and the two columns are in order and
    within the text of the line. *)
Theorem findings_lie_in_their_lines (toLowerCase : str -> str)
    (db : SpellDatabase) (document : TextDocument) (d : Diagnostic) :
  In d (updateDiagnostics toLowerCase db document) ->
  exists text,
    nth_error document (start_line (range d)) = Some text /\
    end_line (range d) = start_line (range d) /\
    in_text text d /\
    startsWith (trim text) (js "#") = false /\ trim text <> [].
Proof.
  unfold updateDiagnostics. intros H.
  apply diagnostics_from_located in H as (i & text & A & B1 & B2 & R).
  exists text. simpl in B1, B2. rewrite B1, B2. auto.
Qed.

Lemma findings_lie_in_their_lines_witness :
  let document := map js ["actions:"; "  - fireball,if=&buf.x.up"]%string in
  let d := diag_at 1 12 5
             (js "Condition starts with an operator (use ! for negation)")
             Warning in
  exists text,
    nth_error document (start_line (range d)) = Some text /\
    end_line (range d) = start_line (range d) /\
    in_text text d /\
    startsWith (trim text) (js "#") = false /\ trim text <> [].
Proof.
  intros document d.
  apply (findings_lie_in_their_lines toLowerCaseAscii newDb document d).
  vm_compute. left. reflexivity.
Defined.

(** X14. A finding about an unresolved name underlines that name: for an
    unknown spell, an undefined config variable and an undefined variable,
    the text of the line between the two columns of the range is the name
    quoted in the message; the spell is one that [isValidSpell] rejects,
    and the variable is in neither the declared nor the shared set. *)
Theorem unresolved_names_are_underlined (toLowerCase : str -> str)
    (db : SpellDatabase) (text : str) (n : nat) (C V : list str)
    (d : Diagnostic) :
  In d (validateSpellNames toLowerCase db text n
        ++ validateConfigAndVarReferences text n C V) ->
  exists name,
    range_text text d = name /\ in_text text d /\
    ((exists opening,
        message d = opening ++ dq ++ name ++ dq
                    ++ did_you_mean toLowerCase db name /\
        startsWith opening (js "Unknown spell") = true /\
        isValidSpell toLowerCase db name = false)
     \/ (message d = js "Config variable " ++ dq ++ name ++ dq
                     ++ js " is not defined" ++ available_hint C /\
         str_mem name C = false /\ str_mem name sharedConfigVars = false)
     \/ (message d = js "Variable " ++ dq ++ name ++ dq
                     ++ js " is not defined" ++ available_hint V /\
         str_mem name V = false)).
Proof.
  intros H. apply in_app_or in H as [H|H].
  - apply validateSpellNames_underlined in H as (s & A & B & E & D).
    exists s. split; [exact B|]. split; [exact A|]. left.
    destruct D as [D|[type D]].
    + exists (js "Unknown spell: "). now rewrite D.
    + exists (js "Unknown spell in " ++ type ++ js ": ").
      rewrite D, <- !app_assoc. auto.
  - unfold validateConfigAndVarReferences in H.
    apply in_app_or in H as [H|H].
    + apply config_ref_underlined in H as (s & A & B & E1 & E2 & D).
      exists s. split; [exact B|]. split; [exact A|]. right. left. auto.
    + apply var_ref_underlined in H as (s & A & B & E1 & D).
      exists s. split; [exact B|]. split; [exact A|]. right. right. auto.
Qed.

Lemma unresolved_names_are_underlined_witness :
  let text := js "  - fireball,if=buff.config.up&config.burst" in
  let d := diag_at 0 38 5
             (js "Config variable " ++ dq ++ js "burst" ++ dq
              ++ js " is not defined") Warning in
  exists name,
    range_text text d = name /\ in_text text d /\
    ((exists opening,
        message d = opening ++ dq ++ name ++ dq
                    ++ did_you_mean toLowerCaseAscii newDb name /\
        startsWith opening (js "Unknown spell") = true /\
        isValidSpell toLowerCaseAscii newDb name = false)
     \/ (message d = js "Config variable " ++ dq ++ name ++ dq
                     ++ js " is not defined" ++ available_hint [] /\
         str_mem name [] = false /\ str_mem name sharedConfigVars = false)
     \/ (message d = js "Variable " ++ dq ++ name ++ dq
                     ++ js " is not defined" ++ available_hint [] /\
         str_mem name [] = false)).
Proof.
  intros text d.
  apply (unresolved_names_are_underlined toLowerCaseAscii newDb text 0 [] [] d).
  vm_compute. right. left. reflexivity.
Defined.

(** X15. A typo finding underlines the mistyped text: it comes from one row
    of the table of typos and one match of its regex in the line, it has
    the message and the severity of the row, and the text between its two
    columns is the text of the match, which is never empty. *)
Theorem typo_findings_underline_the_typo (text : str) (n : nat)
    (d : Diagnostic) :
  In d (checkCommonTypos text n) ->
  exists r msg sev mt,
    In (r, msg, sev) typos /\ In mt (matchAll r text) /\
    message d = msg /\ severity d = sev /\
    in_text text d /\ range_text text d = m_text mt /\ m_text mt <> [].
Proof. apply checkCommonTypos_underlined. Qed.

Lemma typo_findings_underline_the_typo_witness :
  let text := js "  - frostbolt,if=talant.x and buf.y.up" in
  let d := diag_at 0 17 7
             (js "Did you mean " ++ dq ++ js "talent." ++ dq ++ js "?")
             Warning in
  exists r msg sev mt,
    In (r, msg, sev) typos /\ In mt (matchAll r text) /\
    message d = msg /\ severity d = sev /\
    in_text text d /\ range_text text d = m_text mt /\ m_text mt <> [].
Proof.
  intros text d. apply (typo_findings_underline_the_typo text 0 d).
  vm_compute. right. left. reflexivity.
Defined.

(** ** The findings of an action line, one by one *)

Lemma matchAll_char_count (c : char) (s : str) :
  forall prev idx,
    length (matchAll_from (Lit [c]) prev s idx 0) = count_char c s.
Proof.
  unfold count_char.
  induction s as [|x s IH]; intros prev idx; [reflexivity|].
  cbn [matchAll_from]. unfold match_at. cbn [m fst snd lit_match filter].
  destruct (char_eqb c x).
  - unfold accept. cbv beta iota. rewrite consumed_cons. cbn [m_text length].
    simpl. now rewrite IH.
  - now rewrite IH.
Qed.

Lemma In_when (b : bool) (x d : Diagnostic) :
  In d (when b [x]) -> b = true /\ d = x.
Proof. destruct b; simpl; [intros [<-|[]]; auto|intros []]. Qed.

Lemma validateActionLine_parts (text : str) (n : nat) (L : list str)
    (d : Diagnostic) :
  In d (validateActionLine text n L) ->
  exists am,
    re_match re_action text = Some am /\
    ((d = diag_line n text
            (js "Unbalanced parentheses: "
             ++ nat_to_str (count_char 40%N (group1 am))
             ++ js " opening, "
             ++ nat_to_str (count_char 41%N (group1 am)) ++ js " closing")
            Error
      /\ count_char 40%N (group1 am) <> count_char 41%N (group1 am))
     \/ In (message d) fixed_action_messages
     \/ In d (list_ref_check text (group1 am) n L)).
Proof.
  unfold validateActionLine.
  destruct (re_match re_action text) as [am|] eqn:A; [|intros []].
  intros H. exists am. split; [reflexivity|].
  unfold re_open_paren, re_close_paren, matchAll in H.
  change (js "(") with [40%N] in H. change (js ")") with [41%N] in H.
  rewrite !matchAll_char_count in H.
  repeat (apply in_app_or in H as [H|H]);
    try (apply In_when in H as [_ ->]; right; left; cbn [message diag_line diag_at];
         unfold fixed_action_messages; simpl; tauto).
  - apply In_when in H as [B ->]. left. split; [reflexivity|].
    apply negb_true_iff, Nat.eqb_neq in B. exact B.
  - destruct (re_match re_op_run (group1 am)); [|destruct H].
    destruct H as [<-|[]]. right. left. cbn [message diag_at].
    unfold fixed_action_messages. simpl. tauto.
  - destruct (re_match re_call_alias (group1 am)) as [ca|]; [|destruct H].
    destruct (group1 ca); [|destruct H].
    destruct H as [<-|[]]. right. left. cbn [message diag_line].
    unfold fixed_action_messages. simpl. tauto.
  - right. right. exact H.
Qed.

(** X16. A finding about an undefined action list names a list that is
    neither declared in the document nor one of the shared lists, so a
    declared or shared list is never reported; and when the line spells
    [name=] followed by that list, the range underlines the list name. *)
Theorem undefined_list_findings (text : str) (n : nat) (L : list str)
    (d : Diagnostic) :
  In d (validateActionLine text n L) ->
  about_unknown_list d = true ->
  exists listName,
    message d = js "Action list " ++ dq ++ listName ++ dq
                ++ js " is not defined"
                ++ (if 0 <? length L
                    then js ". Available lists: " ++ join (js ", ") L
                    else []) /\
    str_mem listName L = false /\ str_mem listName sharedLists = false /\
    in_text text d /\
    (occurs_in (js "name=" ++ listName) text -> range_text text d = listName).
Proof.
  intros H Hl. apply validateActionLine_parts in H as (am & A & [H|[H|H]]).
  - destruct H as [-> _]. vm_compute in Hl. discriminate.
  - unfold about_unknown_list in Hl. unfold fixed_action_messages in H.
    simpl in H.
    repeat (destruct H as [H|H];
            [rewrite <- H in Hl; vm_compute in Hl; discriminate|]).
    destruct H.
  - apply (list_ref_check_underlined text (group1 am) n L d (action_inv _ _ A))
      in H as (l & T & E1 & E2 & M & R).
    exists l. auto.
Qed.

Lemma undefined_list_findings_witness :
  let text := js "  - run_action_list,name=aoe,if=x" in
  let d := diag_at 0 25 3
             (js "Action list " ++ dq ++ js "aoe" ++ dq
              ++ js " is not defined. Available lists: st")
             Error in
  exists listName,
    message d = js "Action list " ++ dq ++ listName ++ dq
                ++ js " is not defined"
                ++ (if 0 <? length [js "st"]
                    then js ". Available lists: " ++ join (js ", ") [js "st"]
                    else []) /\
    str_mem listName [js "st"] = false /\
    str_mem listName sharedLists = false /\
    in_text text d /\
    (occurs_in (js "name=" ++ listName) text -> range_text text d = listName).
Proof.
  intros text d. apply (undefined_list_findings text 0 [js "st"] d).
  - vm_compute. left. reflexivity.
  - vm_compute. reflexivity.
Defined.

(** X17. An action line gets the unbalanced-parentheses error exactly when
    the text after the dash holds different numbers of opening and closing
    parentheses; the nesting and the order of the parentheses play no
    part. *)
Theorem unbalanced_parentheses_iff (text : str) (n : nat) (L : list str)
    (am : Match) :
  re_match re_action text = Some am ->
  (exists d, In d (validateActionLine text n L) /\
             startsWith (message d) (js "Unbalanced parentheses") = true)
  <-> count_char 40%N (group1 am) <> count_char 41%N (group1 am).
Proof.
  intros A. split.
  - intros (d & H & S).
    apply validateActionLine_parts in H as (am' & A' & [H|[H|H]]).
    + rewrite A in A'. injection A' as <-. apply H.
    + unfold fixed_action_messages in H. simpl in H.
      repeat (destruct H as [H|H];
              [rewrite <- H in S; vm_compute in S; discriminate|]).
      destruct H.
    + apply (list_ref_check_underlined text (group1 am') n L d
               (action_inv _ _ A')) in H as (l & _ & _ & _ & M & _).
      rewrite M in S. vm_compute in S. discriminate.
  - intros Hne.
    exists (diag_line n text
              (js "Unbalanced parentheses: "
               ++ nat_to_str (count_char 40%N (group1 am))
               ++ js " opening, "
               ++ nat_to_str (count_char 41%N (group1 am)) ++ js " closing")
              Error).
    split; [|reflexivity].
    unfold validateActionLine. rewrite A.
    unfold re_open_paren, re_close_paren, matchAll.
    change (js "(") with [40%N]. change (js ")") with [41%N].
    rewrite !matchAll_char_count.
    apply in_or_app. left.
    apply Nat.eqb_neq in Hne. rewrite Hne. simpl. now left.
Qed.

Lemma unbalanced_parentheses_iff_witness :
  let text := js "  - cast,if=)x(" in
  let am := mkMatch 0 text [(1, js "cast,if=)x(")] in
  (exists d, In d (validateActionLine text 0 []) /\
             startsWith (message d) (js "Unbalanced parentheses") = true)
  <-> count_char 40%N (group1 am) <> count_char 41%N (group1 am).
Proof.
  intros text am. apply (unbalanced_parentheses_iff text 0 [] am).
  vm_compute. reflexivity.
Defined.

(** ** What the symbol tables hold *)

Lemma m_cls_inv (q : char -> bool) (k : pos -> caps -> option R) (p : pos)
    (c : caps) (r : R) :
  m (Cls q) k p c = Some r ->
  exists x s', snd p = x :: s' /\ q x = true /\ k (Some x, s') c = Some r.
Proof.
  cbn [m]. destruct (snd p) as [|x s']; [discriminate|].
  destruct (q x) eqn:E; [|discriminate]. intros H. now exists x, s'.
Qed.

Lemma length_pos_ne (s : str) : 1 <= length s -> s <> [].
Proof. destruct s; simpl; [lia|discriminate]. Qed.

Lemma entry_inv (text : str) (mt : Match) (name : str) :
  re_match re_entry text = Some mt -> group 1 mt = Some name ->
  word_name name /\ entry_line true name text.
Proof.
  unfold re_match, re_entry. cbn [seqs]. rewrite search_bol.
  intros H G. apply match_at_inv in H as (p' & c & H & ->).
  rewrite m_seq in H. apply m_bol_inv in H. rewrite m_seq in H.
  apply m_cls_inv in H as (c1 & t1 & E & S1 & H). cbn [snd] in E. subst text.
  rewrite m_seq in H.
  apply m_cls_inv in H as (c2 & t2 & E & S2 & H). cbn [snd] in E. subst t1.
  rewrite m_seq, m_cap in H.
  apply m_rep_inv in H as (w & t3 & E & W & N & H). cbn [fst snd] in E, H.
  subst t2. rewrite m_seq in H.
  apply m_lit_inv in H as (t4 & E & H). cbn [fst snd] in E, H. subst t3.
  rewrite m_seq in H.
  apply m_rep_inv in H as (ws & t5 & E & Ws & _ & H). cbn [fst snd] in E, H.
  subst t4. apply m_eol_inv in H as (E & H). cbn [snd] in E. subst t5.
  unfold accept in H. injection H as <- <-.
  unfold group in G. cbn [m_groups] in G. unfold setcap in G.
  cbn [getcap Nat.eqb] in G. rewrite consumed_app in G. injection G as <-.
  split; [split; [now apply length_pos_ne|exact W]|].
  exists c1, c2, ws. rewrite app_nil_r. repeat split; auto.
Qed.

Lemma variable_entry_inv (text : str) (mt : Match) (name : str) :
  re_match re_variable_entry text = Some mt -> group 1 mt = Some name ->
  word_name name /\ entry_line false name text.
Proof.
  unfold re_match, re_variable_entry. cbn [seqs]. rewrite search_bol.
  intros H G. apply match_at_inv in H as (p' & c & H & ->).
  rewrite m_seq in H. apply m_bol_inv in H. rewrite m_seq in H.
  apply m_cls_inv in H as (c1 & t1 & E & S1 & H). cbn [snd] in E. subst text.
  rewrite m_seq in H.
  apply m_cls_inv in H as (c2 & t2 & E & S2 & H). cbn [snd] in E. subst t1.
  rewrite m_seq, m_cap in H.
  apply m_rep_inv in H as (w & t3 & E & W & N & H). cbn [fst snd] in E, H.
  subst t2.
  apply m_lit_inv in H as (t4 & E & H). cbn [fst snd] in E, H. subst t3.
  unfold accept in H. injection H as <- <-.
  unfold group in G. cbn [m_groups] in G. unfold setcap in G.
  cbn [getcap Nat.eqb] in G. rewrite consumed_app in G. injection G as <-.
  split; [split; [now apply length_pos_ne|exact W]|].
  exists c1, c2, t4. repeat split; auto. discriminate.
Qed.

Lemma set_add_NoDup (x : str) (l : list str) : NoDup l -> NoDup (set_add x l).
Proof.
  intros H. unfold set_add. destruct (str_mem x l) eqn:E; [exact H|].
  apply NoDup_app; [exact H|repeat constructor; intros []|].
  intros y Hy [<-|[]]. apply str_mem_In in Hy. congruence.
Qed.

Lemma collect_loop_declared (section entry : regex) (strict : bool)
    (document : TextDocument) :
  (forall text mt name,
     re_match entry text = Some mt -> group 1 mt = Some name ->
     word_name name /\ entry_line strict name text) ->
  forall lines inSection found,
    (forall line, In line lines -> In line document) ->
    declared_names strict document found ->
    declared_names strict document
      (collect_loop section entry lines inSection found).
Proof.
  intros Inv. induction lines as [|text rest IH];
    intros inSection found Sub D; simpl; [exact D|].
  assert (Sub': forall line, In line rest -> In line document)
    by (intros line Hl; apply Sub; now right).
  destruct (test section text); [now apply IH|].
  destruct (inSection && test re_root_key text
            && negb (startsWith text (js " "))); [now apply IH|].
  destruct inSection; [|now apply IH].
  destruct (re_match entry text) as [mt|] eqn:E; [|now apply IH].
  destruct (group 1 mt) as [name|] eqn:G; [|now apply IH].
  apply IH; [exact Sub'|]. destruct D as [N D]. split.
  - now apply set_add_NoDup.
  - intros y Hy. apply set_add_In in Hy as [->|Hy]; [|now apply D].
    destruct (Inv _ _ _ E G) as [W L]. split; [exact W|].
    exists text. split; [apply Sub; now left|exact L].
Qed.

Lemma collect_loop_no_header (section entry : regex) (hdr : str)
    (document : TextDocument) :
  (forall line, test section line = true -> startsWith line hdr = true) ->
  (forall line, In line document -> startsWith line hdr = false) ->
  collect_loop section entry document false [] = [].
Proof.
  intros Hh Hn. rewrite collect_loop_scan, scan_outside; [reflexivity|].
  apply forallb_forall. intros line Hl. apply negb_true_iff.
  destruct (test section line) eqn:T; [|reflexivity].
  apply Hh in T. rewrite (Hn _ Hl) in T. discriminate.
Qed.

Lemma header_starts (hdr line : str) :
  test (seqs [Bol; Lit hdr; Rep is_space 0; Eol]) line = true ->
  startsWith line hdr = true.
Proof.
  intros H. apply header_test_inv in H as [t ->]. apply startsWith_app.
Qed.

(** X18. The three symbol tables hold no name twice, and hold only names
    that the document declares: a name of word characters that some line
    carries after exactly two white-space characters and before a colon,
    with nothing but white space after the colon for a list or a config
    variable.  A document with no line starting with the section header
    gives an empty table. *)
Theorem symbol_tables_hold_declarations (document : TextDocument) :
  (declared_names true document (collectDefinedLists document) /\
   declared_names true document (collectDefinedConfigVars document) /\
   declared_names false document (collectDefinedVariables document)) /\
  ((forall line, In line document -> startsWith line (js "lists:") = false) ->
   collectDefinedLists document = []) /\
  ((forall line, In line document -> startsWith line (js "config:") = false) ->
   collectDefinedConfigVars document = []) /\
  ((forall line, In line document ->
                 startsWith line (js "variables:") = false) ->
   collectDefinedVariables document = []).
Proof.
  assert (D0: forall strict, declared_names strict document []).
  { intros strict. split; [constructor|intros name []]. }
  split; [split; [|split]|split; [|split]].
  - apply collect_loop_declared; auto. apply entry_inv.
  - apply collect_loop_declared; auto. apply entry_inv.
  - apply collect_loop_declared; auto. apply variable_entry_inv.
  - apply collect_loop_no_header. apply header_starts.
  - apply collect_loop_no_header. apply header_starts.
  - apply collect_loop_no_header. apply header_starts.
Qed.

(** ** Hover: which shape a word can have *)

Lemma aura_base_inv (prefix word : str) (mt : Match) :
  re_match (re_aura prefix) word = Some mt ->
  exists spell prop,
    word = prefix ++ spell ++ js "." ++ prop /\
    forallb is_word spell = true /\ forallb is_word prop = true.
Proof.
  unfold re_match, re_aura. cbn [seqs]. rewrite search_bol.
  intros H. apply match_at_inv in H as (p' & c & H & ->).
  rewrite m_seq in H. apply m_bol_inv in H. rewrite m_seq in H.
  apply m_lit_inv in H as (t1 & E & H). cbn [fst snd] in E, H. subst word.
  rewrite m_seq, m_cap in H.
  apply m_rep_inv in H as (spell & t2 & E & W1 & _ & H). cbn [fst snd] in E, H.
  subst t1. rewrite m_seq in H.
  apply m_lit_inv in H as (t3 & E & H). cbn [fst snd] in E, H. subst t2.
  rewrite m_seq, m_cap in H.
  apply m_rep_inv in H as (prop & t4 & E & W2 & _ & H). cbn [fst snd] in E, H.
  subst t3. apply m_eol_inv in H as (E & _). cbn [snd] in E. subst t4.
  exists spell, prop. rewrite app_nil_r. auto.
Qed.

Lemma aura_shapes_exclusive (prefix word : str) :
  re_match (re_aura_any prefix) word <> None ->
  re_match (re_aura prefix) word = None.
Proof.
  intros H. destruct (re_match (re_aura_any prefix) word) as [ma|] eqn:A;
    [clear H|congruence].
  destruct (re_match (re_aura prefix) word) as [mb|] eqn:B; [|reflexivity].
  exfalso.
  apply aura_any_inv in A as (spell & prop & E & W1 & _ & W2 & _).
  apply aura_base_inv in B as (s' & p' & E' & W1' & W2').
  rewrite E in E'. apply app_inv_head in E'.
  change (spell ++ 46%N :: (prop ++ js ".any") = s' ++ 46%N :: p') in E'.
  pose proof (split_at_unique is_word 46%N _ _ _ _ dot_not_word W1 W1' E')
    as ->.
  apply app_inv_head in E'. injection E' as <-.
  rewrite forallb_app in W2'. apply andb_true_iff in W2' as [_ W].
  vm_compute in W. discriminate.
Qed.

(** X19. No word has both the [.any] shape and the base shape of the same
    family (buff, debuff, dot): the last segment of the base shape is made
    of word characters, so it cannot hold the dot of [.any].  The order in
    which [matchTemplate] tries the two shapes of a family therefore does
    not change which one is taken. *)
Theorem any_and_base_shapes_are_exclusive (word : str) :
  Forall (fun shapes => fst shapes word <> None -> snd shapes word = None)
         aura_shapes.
Proof.
  unfold aura_shapes. repeat constructor; cbn [fst snd];
    apply aura_shapes_exclusive.
Qed.

Lemma m_requires (ch : char) (r : regex) :
  forall k p c res,
    m r k p c = Some res ->
    exists p1 c1 t,
      k p1 c1 = Some res /\ snd p = t ++ snd p1 /\
      (requires ch r = true -> In ch t).
Proof.
  induction r as [l|l|q|q min|r1 IH1 r2 IH2|r1 IH1 r2 IH2|n r IH| | | ];
    intros k p c res H; cbn [requires].
  - apply m_lit_inv in H as (t & E & H).
    exists (last_of l (fst p), t), c, l. split; [exact H|].
    split; [exact E|]. intros Hl. apply existsb_exists in Hl as (x & Hx & Ex).
    apply char_eqb_eq in Ex. now subst x.
  - apply m_sound in H as (p1 & c1 & t & H & E & _).
    exists p1, c1, t. split; [exact H|]. split; [exact E|discriminate].
  - apply m_sound in H as (p1 & c1 & t & H & E & _).
    exists p1, c1, t. split; [exact H|]. split; [exact E|discriminate].
  - apply m_sound in H as (p1 & c1 & t & H & E & _).
    exists p1, c1, t. split; [exact H|]. split; [exact E|discriminate].
  - rewrite m_seq in H.
    apply IH1 in H as (p1 & c1 & t1 & H & E1 & C1).
    apply IH2 in H as (p2 & c2 & t2 & H & E2 & C2).
    exists p2, c2, (t1 ++ t2). split; [exact H|].
    split; [now rewrite E1, E2, app_assoc|].
    intros Hr. apply orb_true_iff in Hr as [Hr|Hr]; apply in_or_app; auto.
  - apply m_alt_inv in H as [H|H].
    + apply IH1 in H as (p1 & c1 & t & H & E & C).
      exists p1, c1, t. split; [exact H|]. split; [exact E|].
      intros Hr. apply andb_true_iff in Hr as [Hr _]. auto.
    + apply IH2 in H as (p1 & c1 & t & H & E & C).
      exists p1, c1, t. split; [exact H|]. split; [exact E|].
      intros Hr. apply andb_true_iff in Hr as [_ Hr]. auto.
  - rewrite m_cap in H. apply IH in H as (p1 & c1 & t & H & E & C).
    exists p1, (setcap n (consumed p p1) c1), t. auto.
  - apply m_sound in H as (p1 & c1 & t & H & E & _).
    exists p1, c1, t. split; [exact H|]. split; [exact E|discriminate].
  - apply m_sound in H as (p1 & c1 & t & H & E & _).
    exists p1, c1, t. split; [exact H|]. split; [exact E|discriminate].
  - apply m_sound in H as (p1 & c1 & t & H & E & _).
    exists p1, c1, t. split; [exact H|]. split; [exact E|discriminate].
Qed.

Lemma re_match_requires (ch : char) (r : regex) (s : str) (mt : Match) :
  requires ch r = true -> re_match r s = Some mt -> In ch s.
Proof.
  intros Hr H. apply search_found in H as (pre & post & prev & -> & H).
  apply match_at_inv in H as (p' & c & H & _).
  apply (m_requires ch) in H as (p1 & c1 & t & _ & E & C). cbn [snd] in E.
  rewrite E. apply in_or_app. right. apply in_or_app. left. auto.
Qed.

(** X20. The shapes in function-call syntax are out of reach of the hover:
    a word taken by [provideHover] holds word characters and dots only, and
    each of these shapes needs an opening parenthesis, so none of them
    matches such a word. *)
Theorem function_call_shapes_never_match (word : str) :
  hover_word word ->
  Forall (fun r => re_match r word = None) function_call_shapes.
Proof.
  intros [_ W]. apply Forall_forall. intros r Hr.
  destruct (re_match r word) as [mt|] eqn:E; [exfalso|reflexivity].
  assert (Q: requires 40%N r = true).
  { clear E. revert r Hr. apply Forall_forall. unfold function_call_shapes.
    repeat constructor. }
  apply (re_match_requires 40%N) in E; [|exact Q].
  rewrite forallb_forall in W. apply W in E. vm_compute in E. discriminate.
Qed.

Lemma function_call_shapes_never_match_witness :
  Forall (fun r => re_match r (js "player.talent") = None)
         function_call_shapes.
Proof.
  apply (function_call_shapes_never_match (js "player.talent")).
  split; [discriminate|vm_compute; reflexivity].
Defined.

Lemma firstn2_head (line : str) (pos : nat) (two : str) (a b : char) :
  str_eqb (firstn 2 (skipn pos line)) two = true -> two = [a; b] ->
  nth_error line pos = Some a.
Proof.
  intros H ->. apply str_eqb_eq in H.
  revert pos H. induction line as [|x line IH]; intros pos H.
  - now destruct pos.
  - destruct pos as [|pos]; simpl in *; [now injection H as ->|now apply IH].
Qed.

(** X21. The hover of an operator is given exactly at the positions that
    hold one of the six operator characters: the tables of two-character
    operators only change the text shown, never whether there is one. *)
Theorem operator_hover_iff_operator_char (line : str) (pos : nat) :
  getOperatorHover (nth_error line pos) line pos <> None <->
  exists c, nth_error line pos = Some c /\ is_operator_char c = true.
Proof.
  unfold getOperatorHover. split.
  - intros H.
    destruct (str_eqb (firstn 2 (skipn pos line)) (js "<=")) eqn:E1.
    { exists 60%N. split; [|reflexivity].
      now apply (firstn2_head _ _ (js "<=") 60%N 61%N). }
    destruct (str_eqb (firstn 2 (skipn pos line)) (js ">=")) eqn:E2.
    { exists 62%N. split; [|reflexivity].
      now apply (firstn2_head _ _ (js ">=") 62%N 61%N). }
    destruct (str_eqb (firstn 2 (skipn pos line)) (js "!=")) eqn:E3.
    { exists 33%N. split; [|reflexivity].
      now apply (firstn2_head _ _ (js "!=") 33%N 61%N). }
    destruct (str_eqb (firstn 2 (skipn pos line)) (js "==")) eqn:E4.
    { exists 61%N. split; [|reflexivity].
      now apply (firstn2_head _ _ (js "==") 61%N 61%N). }
    destruct (str_eqb (firstn 2 (skipn pos line)) (js ">?")) eqn:E5.
    { exists 62%N. split; [|reflexivity].
      now apply (firstn2_head _ _ (js ">?") 62%N 63%N). }
    destruct (str_eqb (firstn 2 (skipn pos line)) (js "<?")) eqn:E6.
    { exists 60%N. split; [|reflexivity].
      now apply (firstn2_head _ _ (js "<?") 60%N 63%N). }
    cbn [orb] in H.
    destruct (nth_error line pos) as [c|]; [|congruence].
    exists c. split; [reflexivity|].
    unfold operators in H. unfold is_operator_char.
    destruct (c =? 38)%N; [reflexivity|].
    destruct (c =? 124)%N; [reflexivity|].
    destruct (c =? 33)%N; [reflexivity|].
    destruct (c =? 60)%N; [reflexivity|].
    destruct (c =? 62)%N; [reflexivity|].
    destruct (c =? 61)%N; [reflexivity|congruence].
  - intros (c & -> & Hc).
    destruct (_ || _); [discriminate|].
    destruct (_ || _); [discriminate|].
    unfold operators. unfold is_operator_char in Hc.
    destruct (c =? 38)%N; [discriminate|].
    destruct (c =? 124)%N; [discriminate|].
    destruct (c =? 33)%N; [discriminate|].
    destruct (c =? 60)%N; [discriminate|].
    destruct (c =? 62)%N; [discriminate|].
    destruct (c =? 61)%N; [discriminate|discriminate].
Qed.

(** ** Completion and validation agree *)

Lemma startsWith_nil (s : str) : startsWith s [] = true.
Proof. now destruct s. Qed.

Lemma prefix_test (v partial : str) :
  startsWith v partial || str_eqb partial [] = startsWith v partial.
Proof.
  destruct (startsWith v partial) eqn:E; [reflexivity|].
  destruct partial; [now rewrite startsWith_nil in E|reflexivity].
Qed.

Lemma completion_labels (A : Type) (f : str -> A) (partial : str)
    (names : list str) :
  map f (filter (fun v => startsWith v partial) names) =
  flat_map (fun v => if startsWith v partial || str_eqb partial []
                     then [f v] else []) names.
Proof.
  induction names as [|v names IH]; simpl; [reflexivity|].
  rewrite prefix_test. destruct (startsWith v partial); simpl; now rewrite IH.
Qed.

Lemma collect_loop_NoDup (section entry : regex) (lines : list str) :
  forall inSection found,
    NoDup found -> NoDup (collect_loop section entry lines inSection found).
Proof.
  induction lines as [|text rest IH]; intros inSection found N; simpl;
    [exact N|].
  destruct (test section text); [now apply IH|].
  destruct (inSection && test re_root_key text
            && negb (startsWith text (js " "))); [now apply IH|].
  destruct inSection; [|now apply IH].
  destruct (re_match entry text) as [mt|]; [|now apply IH].
  destruct (group 1 mt) as [name|]; [|now apply IH].
  apply IH. now apply set_add_NoDup.
Qed.

Lemma NoDup_filter (A : Type) (f : A -> bool) (l : list A) :
  NoDup l -> NoDup (filter f l).
Proof.
  induction 1 as [|x l Hx N IH]; simpl; [constructor|].
  destruct (f x); [|exact IH]. constructor; [|exact IH].
  intros H. apply filter_In in H as [H _]. contradiction.
Qed.

(** X22. The completion offers, for a variable or a config variable,
    exactly the names that the validator takes as declared and that start
    with what was typed, in the order of their declaration and each once. *)
Theorem completion_offers_declared_names (document : TextDocument)
    (partial prefix : str) :
  map label (getVariableCompletions document partial) =
    filter (fun v => startsWith v partial)
           (collectDefinedVariables document)
  /\ map label (getConfigVarCompletions document partial prefix) =
       filter (fun v => startsWith v partial)
              (collectDefinedConfigVars document)
  /\ NoDup (map label (getVariableCompletions document partial))
  /\ NoDup (map label (getConfigVarCompletions document partial prefix)).
Proof.
  assert (E1: map label (getVariableCompletions document partial) =
              filter (fun v => startsWith v partial)
                     (collectDefinedVariables document)).
  { unfold getVariableCompletions, collectVariables, collectDefinedVariables.
    rewrite <- (map_id (filter _ _)).
    rewrite (completion_labels _ (fun v => v)).
    rewrite flat_map_concat_map, concat_map, map_map, <- flat_map_concat_map.
    apply flat_map_ext. intros v.
    now destruct (startsWith v partial || str_eqb partial []). }
  assert (E2: map label (getConfigVarCompletions document partial prefix) =
              filter (fun v => startsWith v partial)
                     (collectDefinedConfigVars document)).
  { unfold getConfigVarCompletions, collectConfigVars,
      collectDefinedConfigVars.
    rewrite <- (map_id (filter _ _)).
    rewrite (completion_labels _ (fun v => v)).
    rewrite flat_map_concat_map, concat_map, map_map, <- flat_map_concat_map.
    apply flat_map_ext. intros v.
    now destruct (startsWith v partial || str_eqb partial []). }
  split; [exact E1|]. split; [exact E2|]. rewrite E1, E2.
  split; apply NoDup_filter, collect_loop_NoDup; constructor.
Qed.

Lemma offered_variable_declared (document : TextDocument) (partial : str)
    (item : CompletionItem) :
  In item (getVariableCompletions document partial) ->
  str_mem (label item) (collectDefinedVariables document) = true.
Proof.
  unfold getVariableCompletions. intros H.
  apply in_flat_map in H as (v & Hv & H).
  destruct (startsWith v partial || str_eqb partial []); [|destruct H].
  destruct H as [<-|[]]. apply str_mem_In. exact Hv.
Qed.

Lemma offered_config_declared (document : TextDocument)
    (partial prefix : str) (item : CompletionItem) :
  In item (getConfigVarCompletions document partial prefix) ->
  str_mem (label item) (collectDefinedConfigVars document) = true.
Proof.
  unfold getConfigVarCompletions. intros H.
  apply in_flat_map in H as (v & Hv & H).
  destruct (startsWith v partial || str_eqb partial []); [|destruct H].
  destruct H as [<-|[]]. apply str_mem_In. exact Hv.
Qed.

(** X23. What the completion offers the validator accepts: no finding of
    [validateConfigAndVarReferences], run with the tables of a document,
    is the undefined-variable finding for a name that
    [getVariableCompletions] offers in that document, nor the
    undefined-config-variable finding for a name that
    [getConfigVarCompletions] offers. *)
Theorem offered_names_are_accepted (document : TextDocument)
    (partial prefix text : str) (n : nat) (d : Diagnostic) :
  In d (validateConfigAndVarReferences text n
          (collectDefinedConfigVars document)
          (collectDefinedVariables document)) ->
  (forall item,
     In item (getVariableCompletions document partial) ->
     message d <> js "Variable " ++ dq ++ label item ++ dq
                  ++ js " is not defined"
                  ++ available_hint (collectDefinedVariables document))
  /\ (forall item,
        In item (getConfigVarCompletions document partial prefix) ->
        message d <> js "Config variable " ++ dq ++ label item ++ dq
                     ++ js " is not defined"
                     ++ available_hint (collectDefinedConfigVars document)).
Proof.
  intros H. unfold validateConfigAndVarReferences in H.
  apply in_app_or in H as [H|H].
  - apply config_ref_underlined in H as (s & _ & _ & E1 & _ & M). split.
    + intros item _ E. rewrite M in E. vm_compute in E. discriminate.
    + intros item Hi E. apply offered_config_declared in Hi.
      rewrite M in E. apply app_inv_head in E. apply app_inv_head in E.
      apply app_inv_tail in E. subst s. congruence.
  - apply var_ref_underlined in H as (s & _ & _ & E1 & M). split.
    + intros item Hi E. apply offered_variable_declared in Hi.
      rewrite M in E. apply app_inv_head in E. apply app_inv_head in E.
      apply app_inv_tail in E. subst s. congruence.
    + intros item _ E. rewrite M in E. vm_compute in E. discriminate.
Qed.

Lemma offered_names_are_accepted_witness :
  let document := map js ["variables:"; "  pooling: energy<50";
                          "actions:"; "  - slice,if=var.pooling&var.burst"]%string in
  let d := diag_at 3 29 5
             (js "Variable " ++ dq ++ js "burst" ++ dq
              ++ js " is not defined. Available: pooling") Warning in
  (forall item,
     In item (getVariableCompletions document (js "po")) ->
     message d <> js "Variable " ++ dq ++ label item ++ dq
                  ++ js " is not defined"
                  ++ available_hint (collectDefinedVariables document))
  /\ (forall item,
        In item (getConfigVarCompletions document (js "po") (js "config")) ->
        message d <> js "Config variable " ++ dq ++ label item ++ dq
                     ++ js " is not defined"
                     ++ available_hint (collectDefinedConfigVars document)).
Proof.
  intros document d.
  apply (offered_names_are_accepted document (js "po") (js "config")
           (js "  - slice,if=var.pooling&var.burst") 3 d).
  vm_compute. left. reflexivity.
Defined.

(** ** [isInSection] and the scan of the validator *)

Lemma root_key_inv (t : str) :
  test re_root_key t = true ->
  exists ident ws,
    t = ident ++ js ":" ++ ws /\ ident <> [] /\
    forallb is_lower_us ident = true /\ forallb is_space ws = true.
Proof.
  unfold re_root_key. cbn [seqs]. rewrite test_bol.
  destruct (m _ accept (None, t) []) as [r|] eqn:H; [|discriminate].
  intros _. rewrite m_seq in H.
  apply m_rep_inv in H as (ident & t1 & E & W & N & H). cbn [fst snd] in E, H.
  subst t. rewrite m_seq in H.
  apply m_lit_inv in H as (t2 & E & H). cbn [fst snd] in E, H. subst t1.
  rewrite m_seq in H.
  apply m_rep_inv in H as (ws & t3 & E & Ws & _ & H). cbn [fst snd] in E, H.
  subst t2. apply m_eol_inv in H as (E & _). cbn [snd] in E. subst t3.
  exists ident, ws. rewrite app_nil_r.
  split; [reflexivity|]. split; [now apply length_pos_ne|auto].
Qed.

Lemma root_prefix_inv (t : str) :
  test re_root_prefix t = true ->
  exists ident rest,
    t = ident ++ js ":" ++ rest /\ ident <> [] /\
    forallb is_lower_us ident = true.
Proof.
  unfold re_root_prefix. cbn [seqs]. rewrite test_bol.
  destruct (m _ accept (None, t) []) as [r|] eqn:H; [|discriminate].
  intros _. rewrite m_seq in H.
  apply m_rep_inv in H as (ident & t1 & E & W & N & H). cbn [fst snd] in E, H.
  subst t.
  apply m_lit_inv in H as (t2 & E & H). cbn [fst snd] in E, H. subst t1.
  exists ident, t2. split; [reflexivity|]. split; [now apply length_pos_ne|auto].
Qed.

Lemma root_prefix_test (ident rest : str) :
  ident <> [] -> forallb is_lower_us ident = true ->
  test re_root_prefix (ident ++ js ":" ++ rest) = true.
Proof.
  intros N W. unfold re_root_prefix. cbn [seqs]. rewrite test_bol, m_seq.
  rewrite m_rep_run;
    [|apply (rejects_lit is_lower_us 58%N []); reflexivity|reflexivity
     |exact W].
  assert (L: (1 <=? length ident) = true)
    by (destruct ident; [congruence|reflexivity]).
  rewrite L, m_lit_app. reflexivity.
Qed.

Lemma header_test (hdr ws : str) :
  forallb is_space ws = true ->
  test (seqs [Bol; Lit hdr; Rep is_space 0; Eol]) (hdr ++ ws) = true.
Proof.
  intros W. cbn [seqs]. rewrite test_bol, m_seq, m_lit_app, m_seq.
  replace ws with (ws ++ []) by apply app_nil_r.
  rewrite m_rep_run; [|apply rejects_eol|exact I|exact W].
  reflexivity.
Qed.

Lemma fst_scan_step (section entry : regex) (st : bool * list str)
    (text : str) :
  fst (scan_step section entry st text) =
  if test section text then true
  else if fst st && test re_root_key text && negb (startsWith text (js " "))
       then false else fst st.
Proof.
  unfold scan_step. destruct st as [b found]. cbn [fst].
  destruct (test section text); [reflexivity|].
  destruct (b && test re_root_key text && negb (startsWith text (js " ")));
    [reflexivity|].
  destruct b; [|reflexivity].
  destruct (re_match entry text) as [mt|]; [|reflexivity].
  now destruct (group 1 mt).
Qed.

Lemma scan_single (section entry : regex) (text : str)
    (st : bool * list str) :
  scan section entry [text] st = scan_step section entry st text.
Proof. reflexivity. Qed.

Lemma firstn_S_nth (A : Type) (d : A) (l : list A) :
  forall n, n < length l -> firstn (S n) l = firstn n l ++ [nth n l d].
Proof.
  induction l as [|x l IH]; intros n H; simpl in H; [lia|].
  destruct n as [|n]; [reflexivity|].
  change (firstn (S (S n)) (x :: l)) with (x :: firstn (S n) l).
  rewrite (IH n) by lia. reflexivity.
Qed.

Lemma isInSection_scan (ident : str) (entry : regex)
    (document : TextDocument) :
  ident <> [] -> forallb is_lower_us ident = true ->
  forall line,
    line < length document ->
    (forall text, In text (firstn (S line) document) ->
                  test re_root_prefix text = true ->
                  test re_root_key text = true) ->
    isInSection document line (ident ++ js ":") =
    fst (scan (seqs [Bol; Lit (ident ++ js ":"); Rep is_space 0; Eol]) entry
              (firstn (S line) document) (false, [])).
Proof.
  intros Ni Wi. set (hdr := ident ++ js ":").
  set (section := seqs [Bol; Lit hdr; Rep is_space 0; Eol]).
  assert (Hdr: forall text, test section text = true ->
                            startsWith text hdr = true).
  { intros text. apply header_starts. }
  induction line as [|i IH]; intros Hlen WF.
  - pose proof (firstn_S_nth str [] document 0 Hlen) as F.
    assert (Here: In (nth 0 document []) (firstn 1 document))
      by (rewrite F; apply in_or_app; right; now left).
    rewrite F.
    rewrite scan_app, scan_single, fst_scan_step.
    cbn [firstn scan fold_left fst andb].
    cbn [isInSection].
    set (text := nth 0 document []) in *.
    destruct (startsWith text hdr) eqn:Sw.
    + apply startsWith_inv in Sw as [rest Sw]. unfold hdr in Sw.
      rewrite <- app_assoc in Sw.
      assert (P: test re_root_prefix text = true)
        by (rewrite Sw; now apply root_prefix_test).
      apply WF in P; [|exact Here].
      apply root_key_inv in P as (ident' & ws & E & _ & W' & Ws).
      rewrite Sw in E.
      change (ident ++ 58%N :: rest = ident' ++ 58%N :: ws) in E.
      pose proof (split_at_unique is_lower_us 58%N _ _ _ _
                    colon_not_lower_us Wi W' E) as <-.
      apply app_inv_head in E. injection E as ->.
      assert (T: test section text = true).
      { rewrite Sw. unfold section, hdr.
        replace (ident ++ js ":" ++ ws) with ((ident ++ js ":") ++ ws)
          by (now rewrite <- app_assoc).
        now apply header_test. }
      now rewrite T.
    + destruct (test section text) eqn:T;
        [apply Hdr in T; congruence|].
      destruct (test re_root_prefix text && negb (startsWith text (js " ")));
        reflexivity.
  - pose proof (firstn_S_nth str [] document (S i) Hlen) as F.
    assert (Here: In (nth (S i) document []) (firstn (S (S i)) document))
      by (rewrite F; apply in_or_app; right; now left).
    assert (Sub: forall t, In t (firstn (S i) document) ->
                           In t (firstn (S (S i)) document))
      by (intros t Ht; rewrite F; apply in_or_app; now left).
    rewrite F.
    rewrite scan_app, scan_single, fst_scan_step.
    cbn [isInSection].
    set (text := nth (S i) document []) in *.
    assert (IH': isInSection document i hdr =
                 fst (scan section entry (firstn (S i) document) (false, []))).
    { apply IH; [lia|]. intros t Ht. apply WF. now apply Sub. }
    destruct (startsWith text hdr) eqn:Sw.
    + apply startsWith_inv in Sw as [rest Sw]. unfold hdr in Sw.
      rewrite <- app_assoc in Sw.
      assert (P: test re_root_prefix text = true)
        by (rewrite Sw; now apply root_prefix_test).
      apply WF in P; [|exact Here].
      apply root_key_inv in P as (ident' & ws & E & _ & W' & Ws).
      rewrite Sw in E.
      change (ident ++ 58%N :: rest = ident' ++ 58%N :: ws) in E.
      pose proof (split_at_unique is_lower_us 58%N _ _ _ _
                    colon_not_lower_us Wi W' E) as <-.
      apply app_inv_head in E. injection E as ->.
      assert (T: test section text = true).
      { rewrite Sw. unfold section, hdr.
        replace (ident ++ js ":" ++ ws) with ((ident ++ js ":") ++ ws)
          by (now rewrite <- app_assoc).
        now apply header_test. }
      now rewrite T.
    + destruct (test section text) eqn:T;
        [apply Hdr in T; congruence|].
      destruct (test re_root_prefix text) eqn:P.
      * pose proof P as K. apply WF in K; [|exact Here].
        apply root_prefix_inv in P as (ident' & rest & E & N' & W').
        assert (I: startsWith text (js " ") = false).
        { rewrite E. now apply (root_key_line_not_indented ident' rest). }
        rewrite K, I. cbn [negb andb].
        now destruct (fst (scan section entry (firstn (S i) document)
                             (false, []))).
      * cbn [andb].
        destruct (test re_root_key text) eqn:K.
        { apply root_key_inv in K as (ident' & ws & E & N' & W' & _).
          rewrite E, root_prefix_test in P by assumption. discriminate. }
        rewrite andb_false_r. cbn [andb]. exact IH'.
Qed.

(** X24. [isInSection] of the completion agrees with the section flag of
    the validator's scans, at every line of a document in which each line
    up to the cursor that starts with a key and a colon has nothing but
    white space after the colon: the cursor is in [lists:], [config:] or
    [variables:] for the completion exactly when the scan of the matching
    symbol table is inside the section after reading that line. *)
Theorem isInSection_agrees_with_validator (document : TextDocument)
    (line : nat) :
  line < length document ->
  (forall text, In text (firstn (S line) document) ->
                test re_root_prefix text = true ->
                test re_root_key text = true) ->
  isInSection document line (js "lists:") =
    fst (scan re_lists_section re_entry (firstn (S line) document)
              (false, []))
  /\ isInSection document line (js "config:") =
       fst (scan re_config_section re_entry (firstn (S line) document)
                 (false, []))
  /\ isInSection document line (js "variables:") =
       fst (scan re_variables_section re_variable_entry
                 (firstn (S line) document) (false, [])).
Proof.
  intros Hlen WF. split; [|split].
  - apply (isInSection_scan (js "lists") re_entry document); auto.
    discriminate.
  - apply (isInSection_scan (js "config") re_entry document); auto.
    discriminate.
  - apply (isInSection_scan (js "variables") re_variable_entry document);
      auto.
    discriminate.
Qed.

Lemma isInSection_agrees_with_validator_witness :
  let document := map js ["lists:"; "  st:"; "  - x"; "actions:";
                          "  - y"]%string in
  isInSection document 2 (js "lists:") =
    fst (scan re_lists_section re_entry (firstn 3 document) (false, []))
  /\ isInSection document 2 (js "config:") =
       fst (scan re_config_section re_entry (firstn 3 document) (false, []))
  /\ isInSection document 2 (js "variables:") =
       fst (scan re_variables_section re_variable_entry
                 (firstn 3 document) (false, [])).
Proof.
  intros document.
  apply (isInSection_agrees_with_validator document 2).
  - vm_compute. lia.
  - intros text H P. vm_compute in H.
    destruct H as [<-|[<-|[<-|[]]]]; vm_compute in P |- *;
      try reflexivity; discriminate.
Defined.

(** Without that condition the two differ: a root-level line with a value
    after its colon ends the section for the completion and not for the
    validator. *)
Lemma isInSection_differs_on_inline_value :
  let document := map js ["lists:"; "name: x"; "  st:"]%string in
  isInSection document 2 (js "lists:") = false /\
  fst (scan re_lists_section re_entry (firstn 3 document) (false, [])) = true /\
  collectDefinedLists document = [js "st"].
Proof. vm_compute. auto. Qed.

(** ** Spell names offered by the completion *)

Lemma table_record_valid (toLowerCase : str -> str) (db : SpellDatabase)
    (key : str) (r : SpellInfo) :
  (forall s, forallb is_key_char s = true -> toLowerCase s = s) ->
  reachable toLowerCase db ->
  In (key, r) (spells db) ->
  normalized (normalizedName r) = true /\
  isValidSpell toLowerCase db (normalizedName r) = true.
Proof.
  intros Hlow Hdb Hk. apply reachable_consistent in Hdb.
  destruct Hdb as (H1 & H2 & _). rewrite Forall_forall in H1.
  destruct (H1 _ Hk) as (A & B & _). simpl in *.
  assert (N: normalized (normalizedName r) = true)
    by (rewrite B; apply normalizeName_normalized).
  split; [exact N|].
  unfold isValidSpell. destruct (negb (loaded db)); [reflexivity|].
  rewrite (normalizeName_fixes_normalized toLowerCase Hlow _ N), <- A.
  apply (map_has_In _ _ str_eqb str_eqb_eq).
  apply in_map_iff. now exists (key, r).
Qed.

(** X25. The spell names offered by the completion: none while no name
    source is loaded, never more than thirty, and each one is a name in
    normalized shape that [isValidSpell] accepts, inserted as it is
    shown. *)
Theorem spell_completions_are_valid (toLowerCase : str -> str)
    (db : SpellDatabase) (numberToString : Z -> str)
    (contextType partial : str) :
  (forall s, forallb is_key_char s = true -> toLowerCase s = s) ->
  reachable toLowerCase db ->
  let items := getSpellNameCompletions toLowerCase db numberToString
                 contextType partial in
  (isLoaded db = false -> items = []) /\
  length items <= 30 /\
  forall item, In item items ->
    normalized (label item) = true /\
    isValidSpell toLowerCase db (label item) = true /\
    insertText item = Some (label item).
Proof.
  intros Hlow Hdb items. subst items. unfold getSpellNameCompletions.
  split; [now intros ->|].
  destruct (negb (isLoaded db)); [split; [simpl; lia|intros item []]|].
  split.
  - rewrite length_map. unfold searchSpells.
    rewrite searchSpells_loop_spec by (simpl; lia).
    rewrite length_app, length_firstn.
    change (Z.to_nat (Z.max 1 30)) with 30. cbn [length]. lia.
  - intros item H. apply in_map_iff in H as (r & <- & H). cbn [label insertText].
    apply searchSpells_from_table in H as [key H].
    destruct (table_record_valid toLowerCase db key r Hlow Hdb H) as [A B].
    auto.
Qed.

Lemma spell_completions_are_valid_witness :
  let items := getSpellNameCompletions toLowerCaseAscii frost_table
                 decimal (js "buff") (js "frost") in
  (isLoaded frost_table = false -> items = []) /\
  length items <= 30 /\
  forall item, In item items ->
    normalized (label item) = true /\
    isValidSpell toLowerCaseAscii frost_table (label item) = true /\
    insertText item = Some (label item).
Proof.
  apply (spell_completions_are_valid toLowerCaseAscii frost_table
           decimal (js "buff") (js "frost")).
  - exact toLowerCaseAscii_key.
  - unfold frost_table. apply reach_loadFromCsv. apply reach_new.
Defined.

(** ** [autoLoad] and [reload] *)

Lemma loadFromCsv_count (toLowerCase : str -> str) (file : option str)
    (db : SpellDatabase) :
  getSpellCount db <= getSpellCount (fst (loadFromCsv toLowerCase file db)) /\
  snd (loadFromCsv toLowerCase file db) =
  (getSpellCount db <? getSpellCount (fst (loadFromCsv toLowerCase file db))).
Proof.
  unfold getSpellCount.
  destruct (loadFromCsv_cases toLowerCase file db) as [->|[es E]].
  - simpl. rewrite Nat.ltb_irrefl. auto.
  - cbv zeta in E. rewrite E. simpl. split; [|reflexivity].
    destruct (fold_add_spells toLowerCase es db) as (A1 & _). cbv zeta in A1.
    destruct (sets_keys_grow _ _ str_eqb str_eqb_eq
                (map (fun e => (normalizeName toLowerCase (snd e),
                                spell_of toLowerCase e)) es)
                (spells db)) as [more Hm].
    rewrite <- A1 in Hm.
    rewrite <- (length_map fst (spells (fold_left _ es db))), Hm.
    rewrite length_app, length_map. lia.
Qed.

Lemma load_all_count (toLowerCase : str -> str) (files : list (option str)) :
  forall db0 db any,
    getSpellCount db0 <= getSpellCount db ->
    any = (getSpellCount db0 <? getSpellCount db) ->
    let res := fold_left
                 (fun st file =>
                    let '(db', result) := loadFromCsv toLowerCase file (fst st) in
                    (db', if result then true else snd st))
                 files (db, any) in
    getSpellCount db <= getSpellCount (fst res) /\
    snd res = (getSpellCount db0 <? getSpellCount (fst res)).
Proof.
  induction files as [|file files IH]; intros db0 db any L E; simpl.
  - split; [lia|exact E].
  - destruct (loadFromCsv_count toLowerCase file db) as [L1 E1].
    destruct (loadFromCsv toLowerCase file db) as [db' result].
    cbn [fst snd] in *.
    destruct (IH db0 db' (if result then true else any)) as [L2 E2].
    + lia.
    + subst result any.
      destruct (Nat.ltb_spec (getSpellCount db) (getSpellCount db')),
               (Nat.ltb_spec (getSpellCount db0) (getSpellCount db)),
               (Nat.ltb_spec (getSpellCount db0) (getSpellCount db'));
        try reflexivity; lia.
    + cbv zeta in L2, E2. split; [lia|exact E2].
Qed.

Lemma load_first_count (toLowerCase : str -> str)
    (files : list (option str)) :
  forall db,
    getSpellCount db
    <= getSpellCount (fst (load_first toLowerCase files db)) /\
    snd (load_first toLowerCase files db) =
    (getSpellCount db
     <? getSpellCount (fst (load_first toLowerCase files db))).
Proof.
  induction files as [|file files IH]; intros db; simpl.
  - rewrite Nat.ltb_irrefl. auto.
  - destruct (loadFromCsv_count toLowerCase file db) as [L1 E1].
    destruct (loadFromCsv toLowerCase file db) as [db' result].
    cbn [fst snd] in *. destruct result.
    + cbn [fst snd]. split; [exact L1|exact E1].
    + destruct (IH db') as [L2 E2]. split; [lia|].
      rewrite E2. symmetry in E1. apply Nat.ltb_ge in E1.
      assert (getSpellCount db' = getSpellCount db) as -> by lia.
      reflexivity.
Qed.

(** X26. [autoLoad] never removes a name, and it returns true exactly when
    the name table grew: reading files that bring no new name, or no file
    at all, is reported as a failure, whatever the table holds.  So
    [reload], which starts from empty tables, returns true exactly when
    the table is not empty afterwards. *)
Theorem autoLoad_reports_growth (toLowerCase : str -> str)
    (workspace : option (list (option str))) (bundled : list (option str))
    (db : SpellDatabase) :
  (getSpellCount db
   <= getSpellCount (fst (autoLoad toLowerCase workspace bundled db)) /\
   snd (autoLoad toLowerCase workspace bundled db) =
   (getSpellCount db
    <? getSpellCount (fst (autoLoad toLowerCase workspace bundled db)))) /\
  snd (reload toLowerCase workspace bundled db) =
  (0 <? getSpellCount (fst (reload toLowerCase workspace bundled db))).
Proof.
  assert (G: forall db0,
             getSpellCount db0
             <= getSpellCount (fst (autoLoad toLowerCase workspace bundled db0))
             /\ snd (autoLoad toLowerCase workspace bundled db0) =
                (getSpellCount db0
                 <? getSpellCount
                      (fst (autoLoad toLowerCase workspace bundled db0)))).
  { intros db0. unfold autoLoad. destruct workspace as [files|].
    - unfold load_all.
      destruct (load_all_count toLowerCase files db0 db0 false
                  (Nat.le_refl _) (eq_sym (Nat.ltb_irrefl _))) as [L E].
      cbv zeta in L, E.
      destruct (fold_left _ files (db0, false)) as [db' loadedAny].
      cbn [fst snd] in *. destruct loadedAny.
      + cbn [fst snd]. split; [exact L|exact E].
      + destruct (load_first_count toLowerCase bundled db') as [L2 E2].
        split; [lia|]. rewrite E2. symmetry in E. apply Nat.ltb_ge in E.
        assert (getSpellCount db' = getSpellCount db0) as -> by lia.
        reflexivity.
    - cbn [fst snd]. rewrite Nat.ltb_irrefl. auto. }
  split; [apply G|]. unfold reload. apply (G (mkDb [] [] false)).
Qed.

(** X27. A did-you-mean suggestion is never the name that was typed: in a
    database the extension can hold, no record returned by [findSimilar]
    has the normalized form of the query as its normalized name, and with a
    largest distance of zero nothing is returned. *)
Theorem suggestions_differ_from_the_query (toLowerCase : str -> str)
    (db : SpellDatabase) (query : str) (maxDistance : nat) (r : SpellInfo) :
  reachable toLowerCase db ->
  In r (findSimilar toLowerCase db query maxDistance) ->
  normalizedName r <> normalizeName toLowerCase query /\ 0 < maxDistance.
Proof.
  intros Hdb H. apply reachable_consistent in Hdb.
  destruct Hdb as (H1 & _). rewrite Forall_forall in H1.
  rewrite findSimilar_filter in H. apply firstn_In in H.
  apply in_map_iff in H as ([key r'] & E & H). simpl in E. subst r'.
  apply filter_In in H as [Hin Hs].
  destruct (H1 _ Hin) as (A & _). simpl in A. subst key.
  unfold similar_to in Hs. simpl in Hs.
  apply andb_true_iff in Hs as [Hle Hpos].
  apply Nat.leb_le in Hle. apply Nat.ltb_lt in Hpos.
  split; [|lia]. intros E. rewrite E in Hpos.
  destruct (levenshteinDistance_correct (normalizeName toLowerCase query)
              (normalizeName toLowerCase query)) as [_ Hmin].
  specialize (Hmin 0 (edits_refl _)). lia.
Qed.

Lemma suggestions_differ_from_the_query_witness :
  normalizedName (mkSpell 1 (js "Frost N") (js "frost_n"))
  <> normalizeName toLowerCaseAscii (js "frost_nov") /\ 0 < 2.
Proof.
  apply (suggestions_differ_from_the_query toLowerCaseAscii frost_table
           (js "frost_nov") 2 (mkSpell 1 (js "Frost N") (js "frost_n"))).
  - unfold frost_table. apply reach_loadFromCsv. apply reach_new.
  - vm_compute. left. reflexivity.
Defined.

(** ** The keyword [any]: completion and hover *)

Lemma rejects_seq_lit (q : char -> bool) (a : char) (l : str) (r : regex)
    (K : pos -> caps -> option R) (G : pos -> caps -> caps) :
  q a = false -> rejects q (fun p c => m (Seq (Lit (a :: l)) r) K p (G p c)).
Proof.
  intros Ha prev x s c Hx. cbn [m fst snd lit_match].
  destruct (char_eqb a x) eqn:E; [|reflexivity].
  apply char_eqb_eq in E. subst x. congruence.
Qed.

Lemma m_bol_start (k : pos -> caps -> option R) (s : str) (c : caps) :
  m Bol k (None, s) c = k (None, s) c.
Proof. reflexivity. Qed.

(** A word of the [.any] shape is matched by the [.any] regex of its
    family. *)
Lemma aura_any_match (prefix spell prop : str) :
  forallb is_word spell = true -> 1 <= length spell ->
  forallb is_word prop = true -> 1 <= length prop ->
  re_match (re_aura_any prefix)
    (prefix ++ spell ++ js "." ++ prop ++ js ".any") <> None.
Proof.
  intros F1 N1 F2 N2.
  unfold re_match, re_aura_any. cbn [seqs]. rewrite search_bol.
  unfold match_at. rewrite m_seq, m_bol_start, m_seq, m_lit_app.
  rewrite m_seq, m_cap.
  rewrite m_rep_run;
    [|apply (rejects_seq_lit is_word 46%N []); reflexivity|reflexivity
     |exact F1].
  rewrite (forallb_length_pos is_word) by assumption.
  rewrite m_seq, m_lit_app, m_seq, m_cap.
  rewrite m_rep_run;
    [|apply (rejects_seq_lit is_word 46%N (js "any")); reflexivity
     |reflexivity|exact F2].
  rewrite (forallb_length_pos is_word) by assumption.
  rewrite m_seq.
  change (js ".any") with (js ".any" ++ []).
  rewrite m_lit_app. cbn [m snd accept]. discriminate.
Qed.

Lemma aura_any_suffix_inv (expr : str) (mt : Match) :
  re_match re_aura_any_suffix expr = Some mt ->
  exists family spell prop,
    In family [js "buff"; js "debuff"; js "dot"] /\
    expr = family ++ js "." ++ spell ++ js "." ++ prop ++ js "."
           ++ groupN 2 mt /\
    forallb is_word spell = true /\ 1 <= length spell /\
    forallb is_word prop = true /\ 1 <= length prop /\
    groupN 1 mt = family.
Proof.
  unfold re_match, re_aura_any_suffix. cbn [seqs alts]. rewrite search_bol.
  intros H. apply match_at_inv in H as (p' & c & H & ->).
  rewrite m_seq in H. apply m_bol_inv in H. rewrite m_seq, m_cap in H.
  assert (G: exists family t,
             In family [js "buff"; js "debuff"; js "dot"] /\
             expr = family ++ t /\
             m (Seq (Lit (js "."))
                  (Seq (Rep is_word 1)
                     (Seq (Lit (js "."))
                        (Seq (Rep is_word 1)
                           (Seq (Lit (js "."))
                              (Seq (Cap 2 (Rep is_word 0)) Eol))))))
               accept (last_of family None, t) [(1, family)]
             = Some (p', c)).
  { apply m_alt_inv in H as [H|H]; [|apply m_alt_inv in H as [H|H]];
      apply m_lit_inv in H as (t & E & H); cbn [fst snd] in E, H;
      subst expr; rewrite consumed_app in H.
    - exists (js "buff"), t. simpl. auto.
    - exists (js "debuff"), t. simpl. auto.
    - exists (js "dot"), t. simpl. auto 6. }
  clear H. destruct G as (family & t0 & Hf & -> & H).
  rewrite m_seq in H. apply m_lit_inv in H as (t1 & E & H).
  cbn [fst snd] in E, H. subst t0. rewrite m_seq in H.
  apply m_rep_inv in H as (spell & t2 & E & W1 & N1 & H).
  cbn [fst snd] in E, H. subst t1. rewrite m_seq in H.
  apply m_lit_inv in H as (t3 & E & H). cbn [fst snd] in E, H. subst t2.
  rewrite m_seq in H.
  apply m_rep_inv in H as (prop & t4 & E & W2 & N2 & H).
  cbn [fst snd] in E, H. subst t3. rewrite m_seq in H.
  apply m_lit_inv in H as (t5 & E & H). cbn [fst snd] in E, H. subst t4.
  rewrite m_seq, m_cap in H.
  apply m_rep_inv in H as (partial & t6 & E & W3 & _ & H).
  cbn [fst snd] in E, H. subst t5.
  apply m_eol_inv in H as (E & H). cbn [snd] in E. subst t6.
  unfold accept in H. injection H as <- <-.
  exists family, spell, prop.
  unfold groupN, group. cbn [m_groups]. unfold setcap.
  cbn [getcap Nat.eqb]. rewrite consumed_app, app_nil_r.
  repeat split; auto.
Qed.

(** X28. When the completion offers [any] after the last dot of a buff,
    debuff or dot expression, the expression with [any] in place of what
    was typed after that dot has the [.any] shape that the hover
    recognises; what was typed is a beginning of [any]; and every item
    that [getAnySuffixCompletions] offers is the keyword [any]. *)
Theorem any_completion_has_hover_shape (expr : str) (item : CompletionItem) :
  In item (getAnySuffixCompletions expr) ->
  label item = js "any" /\ kind item = KindKeyword /\
  (In (detail item)
      [js "buff.SPELL.property.any"; js "debuff.SPELL.property.any";
       js "dot.SPELL.property.any"] ->
   exists stem partial,
     expr = stem ++ partial /\ startsWith (js "any") partial = true /\
     Exists (fun shapes => fst shapes (stem ++ js "any") <> None)
            aura_shapes).
Proof.
  unfold getAnySuffixCompletions. intros H.
  apply in_app_or in H as [H|H]; [|apply in_app_or in H as [H|H]].
  - destruct (re_match re_aura_any_suffix expr) as [mt|] eqn:E;
      [|destruct H].
    destruct (startsWith (js "any") (groupN 2 mt)) eqn:P; [|destruct H].
    destruct H as [<-|[]]. cbn [label kind detail].
    split; [reflexivity|]. split; [reflexivity|]. intros _.
    apply aura_any_suffix_inv in E
      as (family & spell & prop & Hf & E & W1 & N1 & W2 & N2 & _).
    exists (family ++ js "." ++ spell ++ js "." ++ prop ++ js "."),
      (groupN 2 mt).
    split; [now rewrite <- !app_assoc|]. split; [exact P|].
    assert (S: forall prefix,
               (prefix ++ spell ++ js "." ++ prop ++ js ".any") =
               (prefix ++ spell ++ js "." ++ prop ++ js ".") ++ js "any")
      by (intros prefix; now rewrite <- !app_assoc).
    unfold aura_shapes.
    destruct Hf as [<-|[<-|[<-|[]]]].
    + apply Exists_cons_hd. cbn [fst]. unfold buffAnyMatch.
      replace ((js "buff" ++ js "." ++ spell ++ js "." ++ prop ++ js ".")
               ++ js "any")
        with (js "buff." ++ spell ++ js "." ++ prop ++ js ".any")
        by (rewrite S; reflexivity).
      now apply aura_any_match.
    + apply Exists_cons_tl, Exists_cons_hd. cbn [fst]. unfold debuffAnyMatch.
      replace ((js "debuff" ++ js "." ++ spell ++ js "." ++ prop ++ js ".")
               ++ js "any")
        with (js "debuff." ++ spell ++ js "." ++ prop ++ js ".any")
        by (rewrite S; reflexivity).
      now apply aura_any_match.
    + apply Exists_cons_tl, Exists_cons_tl, Exists_cons_hd. cbn [fst].
      unfold dotAnyMatch.
      replace ((js "dot" ++ js "." ++ spell ++ js "." ++ prop ++ js ".")
               ++ js "any")
        with (js "dot." ++ spell ++ js "." ++ prop ++ js ".any")
        by (rewrite S; reflexivity).
      now apply aura_any_match.
  - destruct (re_match re_active_dot_any_suffix expr) as [mt|];
      [|destruct H].
    destruct (startsWith (js "any") (groupN 1 mt)); [|destruct H].
    destruct H as [<-|[]]. cbn [label kind detail].
    split; [reflexivity|]. split; [reflexivity|].
    intros D. vm_compute in D.
    destruct D as [D|[D|[D|[]]]]; discriminate.
  - destruct (re_match re_nameplate_any_suffix expr) as [mt|];
      [|destruct H].
    destruct (startsWith (js "any") (groupN 3 mt)); [|destruct H].
    destruct H as [<-|[]]. cbn [label kind detail].
    split; [reflexivity|]. split; [reflexivity|].
    intros D. simpl in D.
    destruct D as [D|[D|[D|[]]]]; vm_compute in D; discriminate.
Qed.

Lemma any_completion_has_hover_shape_witness :
  let expr := js "debuff.rupture.remains.a" in
  let item := mkItem (js "any") KindKeyword (js "debuff.SPELL.property.any")
                (js "Check auras from any source (not just player-applied)")
                None in
  label item = js "any" /\ kind item = KindKeyword /\
  (In (detail item)
      [js "buff.SPELL.property.any"; js "debuff.SPELL.property.any";
       js "dot.SPELL.property.any"] ->
   exists stem partial,
     expr = stem ++ partial /\ startsWith (js "any") partial = true /\
     Exists (fun shapes => fst shapes (stem ++ js "any") <> None)
            aura_shapes).
Proof.
  intros expr item. apply (any_completion_has_hover_shape expr item).
  vm_compute. left. reflexivity.
Defined.

(** ** List names offered by the completion *)

Lemma offered_list_known (linePrefix : str) (document : TextDocument)
    (items : list CompletionItem) (item : CompletionItem) :
  getStepOptionCompletions_lists linePrefix (Some document) = Some items ->
  In item items ->
  str_mem (label item) (collectDefinedLists document) = true
  \/ str_mem (label item) sharedLists = true.
Proof.
  unfold getStepOptionCompletions_lists.
  destruct (re_match re_option_value linePrefix) as [vm|]; [|discriminate].
  destruct (_ || _); [|discriminate].
  intros E H.
  apply (f_equal (fun o => match o with Some l => l | None => [] end)) in E.
  cbv beta iota in E. rewrite <- E in H. clear E.
  apply in_app_or in H as [H|H].
  - right. apply in_flat_map in H as ([nm desc] & Hs & H). cbn [fst snd] in H.
    destruct (startsWith nm (groupN 2 vm) || str_eqb (groupN 2 vm) []);
      [|destruct H].
    destruct H as [<-|[]]. cbn [label].
    unfold sharedListItems in Hs. simpl in Hs.
    repeat (destruct Hs as [Hs|Hs];
            [injection Hs as <- _; vm_compute; reflexivity|]).
    destruct Hs.
  - left. apply in_flat_map in H as (nm & Hs & H).
    destruct (startsWith nm (groupN 2 vm) || str_eqb (groupN 2 vm) []);
      [|destruct H].
    destruct H as [<-|[]]. cbn [label]. now apply str_mem_In.
Qed.

(** X29. Every list name that the completion offers as the value of
    [name=] or [call=] is one the validator accepts: it is declared in the
    document or it is one of the validator's shared lists, so no finding of
    [validateActionLine], run with the lists of that document, is the
    undefined-list finding for it. *)
Theorem offered_lists_are_accepted (linePrefix : str)
    (document : TextDocument) (items : list CompletionItem)
    (item : CompletionItem) (text : str) (n : nat) (d : Diagnostic) :
  getStepOptionCompletions_lists linePrefix (Some document) = Some items ->
  In item items ->
  In d (validateActionLine text n (collectDefinedLists document)) ->
  (str_mem (label item) (collectDefinedLists document) = true
   \/ str_mem (label item) sharedLists = true) /\
  message d <> js "Action list " ++ dq ++ label item ++ dq
               ++ js " is not defined"
               ++ (if 0 <? length (collectDefinedLists document)
                   then js ". Available lists: "
                        ++ join (js ", ") (collectDefinedLists document)
                   else []).
Proof.
  intros Hc Hi Hd. pose proof (offered_list_known _ _ _ _ Hc Hi) as K.
  split; [exact K|]. intros E.
  apply validateActionLine_parts in Hd as (am & A & [H|[H|H]]).
  - destruct H as [-> _]. vm_compute in E. discriminate.
  - unfold fixed_action_messages in H. simpl in H.
    repeat (destruct H as [H|H];
            [rewrite <- H in E; vm_compute in E; discriminate|]).
    destruct H.
  - apply (list_ref_check_underlined text (group1 am) n _ d (action_inv _ _ A))
      in H as (l & _ & E1 & E2 & M & _).
    rewrite M in E. apply app_inv_head in E. apply app_inv_head in E.
    apply app_inv_tail in E. subst l. destruct K; congruence.
Qed.

Lemma offered_lists_are_accepted_witness :
  let document := map js ["lists:"; "  st:"; "  - x"; "  aoe:";
                          "  - y"]%string in
  let item := mkItem (js "auto_heal") KindModule
                (js "Shared action list (_shared.yaml)")
                (js "Shared auto-heal logic (_shared.yaml)") None in
  let d := diag_at 0 26 4
             (js "Action list " ++ dq ++ js "ao_e" ++ dq
              ++ js " is not defined. Available lists: st, aoe") Error in
  (str_mem (label item) (collectDefinedLists document) = true
   \/ str_mem (label item) sharedLists = true) /\
  message d <> js "Action list " ++ dq ++ label item ++ dq
               ++ js " is not defined"
               ++ (if 0 <? length (collectDefinedLists document)
                   then js ". Available lists: "
                        ++ join (js ", ") (collectDefinedLists document)
                   else []).
Proof.
  intros document item d.
  apply (offered_lists_are_accepted (js "  - call_action_list,name=a")
           document
           [mkItem (js "auto_target") KindModule
              (js "Shared action list (_shared.yaml)")
              (js "Shared auto-targeting logic (_shared.yaml)") None;
            item;
            mkItem (js "aoe") KindModule (js "Defined action list")
              (js "Call the " ++ dq ++ js "aoe" ++ dq ++ js " action list")
              None]
           item (js "  - call_action_list,name=ao_e") 0 d).
  - vm_compute. reflexivity.
  - right. left. reflexivity.
  - vm_compute. left. reflexivity.
Defined.

(** ** The round trip of a declared list *)













(** *** The guards of the pass on an action line *)





(** *** Which findings are about an undefined list *)









(** *** Error findings that quote a name *)








